(** * AvalonMaster: the Avalon-MM manager driver of cocotbext-avalon

    A shallow embedding of [src/cocotbext/avalon/avalon_master.py].

    - Python integers are [Z]; [bytes] objects are [list byte].
    - The driver object is the record [Master]; every method is a
      computation in the monad [M], which threads the object and keeps the
      mutations made before an exception was raised.
    - The coroutine [_run] is a state machine whose control points are its
      [await] expressions ([loc]); it is resumed once per rising clock edge
      with the bus values it samples on that resumption ([Sample]).
    - Callers and the engine are interleaved by the function [act], one
      [action] at a time; [run] folds it over a list of actions. *)

From Stdlib Require Import ZArith List Bool Lia Sorted.
From Stdlib Require Import Strings.Byte.
Import ListNotations.
Local Open Scope Z_scope.

(** ** Python integers and bytes *)

Module PyInt.

(** [int.bit_length()]: the number of bits of the absolute value. *)
Definition bit_length (x : Z) : Z :=
  match x with
  | Z0 => 0
  | _ => Z.log2 (Z.abs x) + 1
  end.

(** [math.ceil(a / b)] for a non-zero divisor. *)
Definition ceil_div (a b : Z) : Z := - ((- a) / b).

Definition byte_val (b : byte) : Z := Z.of_N (Byte.to_N b).

Definition byte_of_Z (z : Z) : byte :=
  match Byte.of_N (Z.to_N (z mod 256)) with
  | Some b => b
  | None => x00
  end.

(** The [n] low bytes of [x], least significant first. *)
Fixpoint le_bytes (n : nat) (x : Z) : list byte :=
  match n with
  | O => []
  | S k => byte_of_Z x :: le_bytes k (x / 256)
  end.

(** [int.from_bytes(bs, byteorder="little")]. *)
Fixpoint from_bytes (bs : list byte) : Z :=
  match bs with
  | [] => 0
  | b :: rest => byte_val b + 256 * from_bytes rest
  end.

(** [x.to_bytes(n, "little")]: [None] is Python's [OverflowError], raised
    for a negative [x] and for an [x] that does not fit in [n] bytes. *)
Definition to_bytes (n x : Z) : option (list byte) :=
  if (x <? 0) || (2 ^ (8 * n) <=? x) then None
  else Some (le_bytes (Z.to_nat n) x).

(** [bs[lo:hi]] for non-negative bounds. *)
Definition slice (bs : list byte) (lo hi : Z) : list byte :=
  firstn (Z.to_nat (hi - lo)) (skipn (Z.to_nat lo) bs).

(** [range(n)]. *)
Definition range (n : Z) : list Z := map Z.of_nat (seq 0 (Z.to_nat n)).

End PyInt.

Import PyInt.

(** ** The driver object *)

(** What [__init__] reads off the bus and its arguments. *)
Record Config := mkConfig {
  address_width : Z;
  wwidth : Z;
  rwidth : Z;
  be_width : Z;
  timeout_cycles : Z
}.

Definition rbytes (c : Config) : Z := Z.quot (rwidth c) 8.
Definition wbytes (c : Config) : Z := Z.quot (wwidth c) 8.
Definition rdata_mask (c : Config) : Z := 2 ^ rwidth c - 1.
Definition wdata_mask (c : Config) : Z := 2 ^ wwidth c - 1.

(** The [data] argument of [write] and [read]: [Union[int, bytes]]. *)
Inductive Payload :=
| PInt (v : Z)
| PBytes (bs : list byte).

(** An entry of [queue_tx]:
    [(write, addr, data, strb, error_expected, tx_id)]. *)
Record Beat := mkBeat {
  b_write : bool;
  b_addr : Z;
  b_data : list byte;
  b_strb : Z;
  b_error_expected : bool;
  b_id : Z
}.

(** The signals the driver assigns. *)
Record BusOut := mkBusOut {
  bus_read : Z;
  bus_write : Z;
  bus_address : Z;
  bus_writedata : Z;
  bus_byteenable : Z
}.

(** The signals the driver samples after a clock edge. *)
Record Sample := mkSample {
  waitrequest : bool;
  writeresponsevalid : bool;
  readdatavalid : bool;
  response : Z;
  readdata : Z
}.

(** Exceptions, with the operands their messages are formatted from. *)
Inductive Exn :=
| ZeroDivisionError
| OverflowError
| AddressOutOfRange (byte_addr word_addr : Z)
| WriteTimeout (cycle_count addr : Z)
| WriteResponseTimeout (cycle_count addr : Z)
| ReadTimeout (cycle_count addr : Z)
| ReadResponseTimeout (cycle_count addr : Z)
| WriteExpectedError
| WriteUnexpectedError (resp : Z)
| ReadExpectedError
| ReadUnexpectedError (resp : Z)
| VerificationMismatch (expected returned : Z).

Inductive Level := Info | Warning | Critical.

Inductive LogMsg :=
| MsgWriteAddr (addr word_addr data_int : Z)
| MsgReadAddr (addr word_addr : Z)
| MsgValueRead (ret : Z)
| MsgExn (e : Exn).

Record Master := mkMaster {
  cfg : Config;
  bus : BusOut;
  queue_tx : list Beat;
  queue_rx : list (list byte * Z);
  tx_id : Z;
  sync : bool;
  idle_ev : bool;
  exception_enabled : bool;
  exception_occurred : bool;
  log : list (Level * LogMsg)
}.

Definition set_bus (f : BusOut -> BusOut) (m : Master) : Master :=
  mkMaster (cfg m) (f (bus m)) (queue_tx m) (queue_rx m) (tx_id m) (sync m)
           (idle_ev m) (exception_enabled m) (exception_occurred m) (log m).
Definition set_queue_tx (q : list Beat) (m : Master) : Master :=
  mkMaster (cfg m) (bus m) q (queue_rx m) (tx_id m) (sync m)
           (idle_ev m) (exception_enabled m) (exception_occurred m) (log m).
Definition set_queue_rx (q : list (list byte * Z)) (m : Master) : Master :=
  mkMaster (cfg m) (bus m) (queue_tx m) q (tx_id m) (sync m)
           (idle_ev m) (exception_enabled m) (exception_occurred m) (log m).
Definition set_tx_id (i : Z) (m : Master) : Master :=
  mkMaster (cfg m) (bus m) (queue_tx m) (queue_rx m) i (sync m)
           (idle_ev m) (exception_enabled m) (exception_occurred m) (log m).
Definition set_sync (v : bool) (m : Master) : Master :=
  mkMaster (cfg m) (bus m) (queue_tx m) (queue_rx m) (tx_id m) v
           (idle_ev m) (exception_enabled m) (exception_occurred m) (log m).
Definition set_idle (v : bool) (m : Master) : Master :=
  mkMaster (cfg m) (bus m) (queue_tx m) (queue_rx m) (tx_id m) (sync m)
           v (exception_enabled m) (exception_occurred m) (log m).
Definition set_exception_enabled (v : bool) (m : Master) : Master :=
  mkMaster (cfg m) (bus m) (queue_tx m) (queue_rx m) (tx_id m) (sync m)
           (idle_ev m) v (exception_occurred m) (log m).
Definition set_exception_occurred (v : bool) (m : Master) : Master :=
  mkMaster (cfg m) (bus m) (queue_tx m) (queue_rx m) (tx_id m) (sync m)
           (idle_ev m) (exception_enabled m) v (log m).
Definition add_log (lv : Level) (msg : LogMsg) (m : Master) : Master :=
  mkMaster (cfg m) (bus m) (queue_tx m) (queue_rx m) (tx_id m) (sync m)
           (idle_ev m) (exception_enabled m) (exception_occurred m)
           (log m ++ [(lv, msg)]).

(** The object [__init__] leaves behind. *)
Definition init (c : Config) : Master :=
  mkMaster c (mkBusOut 0 0 0 0 0) [] [] 0 false true true false [].

(** ** Methods as computations on the object *)

Inductive Outcome (A : Type) :=
| Ok (a : A) (m : Master)
| Raised (e : Exn) (m : Master).
Arguments Ok {A} a m.
Arguments Raised {A} e m.

Definition M (A : Type) : Type := Master -> Outcome A.

Definition ret {A} (a : A) : M A := fun m => Ok a m.
Definition raise {A} (e : Exn) : M A := fun m => Raised e m.
Definition bind {A B} (c : M A) (k : A -> M B) : M B :=
  fun m => match c m with
           | Ok a m' => k a m'
           | Raised e m' => Raised e m'
           end.
Definition modify (f : Master -> Master) : M unit := fun m => Ok tt (f m).
Definition gets {A} (f : Master -> A) : M A := fun m => Ok (f m) m.

Notation "x <- c ;; k" := (bind c (fun x => k))
  (at level 61, c at next level, right associativity).
Notation "c ;;; k" := (bind c (fun _ => k))
  (at level 61, right associativity).

(** [for x in xs: body(x)]. *)
Fixpoint for_each {A} (body : A -> M unit) (xs : list A) : M unit :=
  match xs with
  | [] => ret tt
  | x :: rest => body x ;;; for_each body rest
  end.

Definition final {A} (o : Outcome A) : Master :=
  match o with
  | Ok _ m => m
  | Raised _ m => m
  end.

(** [math.ceil(a / b)], raising on a zero divisor. *)
Definition py_ceil_div (a b : Z) : M Z :=
  if b =? 0 then raise ZeroDivisionError else ret (ceil_div a b).

Definition py_to_bytes (n x : Z) : M (list byte) :=
  match to_bytes n x with
  | Some bs => ret bs
  | None => raise OverflowError
  end.

(** [self.tx_id += 1; self.queue_tx.append(...)]. *)
Definition enqueue (w : bool) (addrb : Z) (datab : list byte) (strb : Z)
    (error_expected : bool) : M unit :=
  modify (fun m => set_tx_id (tx_id m + 1) m) ;;;
  modify (fun m => set_queue_tx
    (queue_tx m ++ [mkBeat w addrb datab strb error_expected (tx_id m)]) m).

Definition write_nowait (addr : Z) (data : Payload) (strb : Z)
    (error_expected : bool) : M unit :=
  c <- gets cfg ;;
  num_transactions <-
    match data with
    | PInt v =>
        if 0 <? bit_length v then py_ceil_div (bit_length v) (wwidth c)
        else ret 1
    | PBytes bs => py_ceil_div (Z.of_nat (length bs)) (wbytes c)
    end ;;
  for_each (fun i =>
    let addrb := addr + i * wbytes c in
    datab <-
      match data with
      | PInt v =>
          let subdata := Z.land (Z.shiftr v (wwidth c * i)) (wdata_mask c) in
          py_to_bytes (wbytes c) subdata
      | PBytes bs => ret (slice bs (i * wbytes c) ((i + 1) * wbytes c))
      end ;;
    enqueue true addrb datab strb error_expected)
    (range num_transactions) ;;;
  modify (set_sync true) ;;;
  modify (set_idle false).

Definition read_nowait (addr : Z) (data : Payload) (error_expected : bool)
    : M Z :=
  c <- gets cfg ;;
  num_transactions <-
    match data with
    | PInt v =>
        if 0 <? bit_length v then py_ceil_div (bit_length v) (rwidth c)
        else ret 1
    | PBytes _ => ret 1
    end ;;
  for_each (fun i =>
    let addrb := addr + i * rbytes c in
    datab <-
      match data with
      | PInt v =>
          let subdata := Z.land (Z.shiftr v (rwidth c * i)) (rdata_mask c) in
          py_to_bytes (rbytes c) subdata
      | PBytes bs => ret bs
      end ;;
    enqueue false addrb datab (-1) error_expected)
    (range num_transactions) ;;;
  modify (set_sync true) ;;;
  modify (set_idle false) ;;;
  gets tx_id.

Definition count_tx (m : Master) : Z := Z.of_nat (length (queue_tx m)).
Definition empty_tx (m : Master) : bool :=
  match queue_tx m with [] => true | _ => false end.
Definition count_rx (m : Master) : Z := Z.of_nat (length (queue_rx m)).
Definition empty_rx (m : Master) : bool :=
  match queue_rx m with [] => true | _ => false end.
Definition idle (m : Master) : bool := empty_tx m && empty_rx m.

Definition clear : M unit :=
  modify (set_queue_tx []) ;;;
  modify (set_queue_rx []).

(** ** The engine [_run] *)

(** The control points of [_run]: the [await] it is suspended at, with the
    local variables live across it. *)
Inductive loc :=
| LStart                                  (* line 256 *)
| LWaitWork                               (* line 261, [sync.wait()] *)
| LWriteIssued (b : Beat)                 (* line 297 *)
| LWriteAccept (b : Beat) (cycle_count : Z)   (* line 302 *)
| LWriteResp (b : Beat) (cycle_count : Z)     (* line 318 *)
| LReadSetup (b : Beat) (word_addr : Z)   (* line 351 *)
| LReadIssued (b : Beat)                  (* line 357 *)
| LReadAccept (b : Beat) (cycle_count : Z)    (* line 362 *)
| LReadResp (b : Beat) (cycle_count : Z)      (* line 373 *)
| LBeatEnd                                (* line 416 *)
| LDead (e : Exn).                        (* the coroutine raised *)

Definition timed_out (c : Config) (cycle_count : Z) : bool :=
  (0 <=? timeout_cycles c) && (timeout_cycles c <=? cycle_count).

Definition critical {A} (e : Exn) : M A :=
  modify (add_log Critical (MsgExn e)) ;;; raise e.

(** Lines 272-297 and 347-351: the beat just popped is checked and, for a
    write, put on the bus. *)
Definition issue (b : Beat) : M loc :=
  c <- gets cfg ;;
  if wbytes c =? 0 then raise ZeroDivisionError else
  let word_addr := b_addr b / wbytes c in
  if (word_addr <? 0) || (2 ^ address_width c <=? word_addr) then
    raise (AddressOutOfRange (b_addr b) word_addr)
  else if b_write b then
    let data_int := from_bytes (b_data b) in
    modify (add_log Info (MsgWriteAddr (b_addr b) word_addr data_int)) ;;;
    modify (set_bus (fun o =>
      mkBusOut (bus_read o) 1 word_addr (Z.land data_int (wdata_mask c))
        (if b_strb b =? -1 then Z.shiftl 1 (be_width c) - 1
         else Z.land (b_strb b) (Z.shiftl 1 (be_width c) - 1)))) ;;;
    ret (LWriteIssued b)
  else
    modify (add_log Info (MsgReadAddr (b_addr b) word_addr)) ;;;
    ret (LReadSetup b word_addr).

(** Lines 257-270: the head of the outer loop. *)
Definition run_loop : M loc :=
  q <- gets queue_tx ;;
  match q with
  | [] =>
      modify (set_idle true) ;;;
      modify (set_sync false) ;;;
      ret LWaitWork
  | b :: rest =>
      modify (set_queue_tx rest) ;;;
      issue b
  end.

(** Lines 325-344. *)
Definition write_check_response (error_expected : bool) (resp : Z)
    : M unit :=
  if error_expected then
    if resp =? 0 then
      modify (set_exception_occurred true) ;;;
      en <- gets exception_enabled ;;
      if en then critical WriteExpectedError
      else modify (add_log Warning (MsgExn WriteExpectedError))
    else ret tt
  else
    if negb (resp =? 0) then
      modify (set_exception_occurred true) ;;;
      en <- gets exception_enabled ;;
      if en then critical (WriteUnexpectedError resp)
      else modify (add_log Warning (MsgExn (WriteUnexpectedError resp)))
    else ret tt.

(** Lines 384-403. *)
Definition read_check_response (error_expected : bool) (resp : Z)
    : M unit :=
  if error_expected then
    if resp =? 0 then
      modify (set_exception_occurred true) ;;;
      en <- gets exception_enabled ;;
      if en then critical ReadExpectedError
      else modify (add_log Warning (MsgExn ReadExpectedError))
    else ret tt
  else
    if negb (resp =? 0) then
      modify (set_exception_occurred true) ;;;
      en <- gets exception_enabled ;;
      if en then critical (ReadUnexpectedError resp)
      else modify (add_log Warning (MsgExn (ReadUnexpectedError resp)))
    else ret tt.

(** Lines 325-344, then the [await] of line 416. *)
Definition write_complete (b : Beat) (s : Sample) : M loc :=
  write_check_response (b_error_expected b) (response s) ;;;
  ret LBeatEnd.

(** Lines 316-323: the test of the response loop. *)
Definition write_wait_response (b : Beat) (cycle_count : Z) (s : Sample)
    : M loc :=
  if negb (writeresponsevalid s) then ret (LWriteResp b cycle_count)
  else write_complete b s.

(** Lines 300-313: the test of the accept loop. *)
Definition write_wait_accept (b : Beat) (cycle_count : Z) (s : Sample)
    : M loc :=
  if waitrequest s then ret (LWriteAccept b cycle_count)
  else
    modify (set_bus (fun o => mkBusOut (bus_read o) 0 0 0 0)) ;;;
    write_wait_response b 0 s.

(** Lines 405-416: the read data is captured, verified and delivered. *)
Definition read_capture (b : Beat) (s : Sample) : M loc :=
  let r := readdata s in
  modify (add_log Info (MsgValueRead r)) ;;;
  (match b_data b with
   | [] => ret tt
   | _ :: _ =>
       let data_int := from_bytes (b_data b) in
       if data_int =? r then ret tt
       else raise (VerificationMismatch data_int r)
   end) ;;;
  c <- gets cfg ;;
  bs <- py_to_bytes (rbytes c) r ;;
  modify (fun m => set_queue_rx (queue_rx m ++ [(bs, b_id b)]) m) ;;;
  ret LBeatEnd.

(** Lines 380-416. *)
Definition read_complete (b : Beat) (s : Sample) : M loc :=
  modify (set_bus (fun o =>
    mkBusOut 0 (bus_write o) 0 (bus_writedata o) (bus_byteenable o))) ;;;
  read_check_response (b_error_expected b) (response s) ;;;
  read_capture b s.

(** Lines 371-378: the test of the read-data loop. *)
Definition read_wait_response (b : Beat) (cycle_count : Z) (s : Sample)
    : M loc :=
  if negb (readdatavalid s) then ret (LReadResp b cycle_count)
  else read_complete b s.

(** Lines 360-367: the test of the accept loop. *)
Definition read_wait_accept (b : Beat) (cycle_count : Z) (s : Sample)
    : M loc :=
  if waitrequest s then ret (LReadAccept b cycle_count)
  else read_wait_response b 0 s.

(** The code run when [await RisingEdge(self.clock)] returns at control
    point [l], up to the next [await]; [s] is what the bus shows then. *)
Definition engine_edge (s : Sample) (l : loc) : M loc :=
  match l with
  | LStart => run_loop
  | LWaitWork => ret LWaitWork
  | LWriteIssued b => write_wait_accept b 0 s
  | LWriteAccept b cycle_count =>
      c <- gets cfg ;;
      let cycle_count := cycle_count + 1 in
      if timed_out c cycle_count then
        critical (WriteTimeout cycle_count (b_addr b))
      else write_wait_accept b cycle_count s
  | LWriteResp b cycle_count =>
      c <- gets cfg ;;
      let cycle_count := cycle_count + 1 in
      if timed_out c cycle_count then
        critical (WriteResponseTimeout cycle_count (b_addr b))
      else write_wait_response b cycle_count s
  | LReadSetup b word_addr =>
      modify (set_bus (fun o =>
        mkBusOut 1 (bus_write o) word_addr (bus_writedata o)
                 (bus_byteenable o))) ;;;
      ret (LReadIssued b)
  | LReadIssued b => read_wait_accept b 0 s
  | LReadAccept b cycle_count =>
      c <- gets cfg ;;
      let cycle_count := cycle_count + 1 in
      if timed_out c cycle_count then
        critical (ReadTimeout cycle_count (b_addr b))
      else read_wait_accept b cycle_count s
  | LReadResp b cycle_count =>
      c <- gets cfg ;;
      let cycle_count := cycle_count + 1 in
      if timed_out c cycle_count then
        critical (ReadResponseTimeout cycle_count (b_addr b))
      else read_wait_response b cycle_count s
  | LBeatEnd => modify (set_sync true) ;;; run_loop
  | LDead e => ret (LDead e)
  end.

(** The code run when [await self.sync.wait()] returns. *)
Definition engine_wake (l : loc) : M loc :=
  match l with
  | LWaitWork => run_loop
  | _ => ret l
  end.

(** The driver object together with its engine coroutine. *)
Record Sys := mkSys {
  mst : Master;
  eng : loc
}.

(** An exception that leaves [_run] ends the coroutine. *)
Definition settle (o : Outcome loc) : Sys :=
  match o with
  | Ok l m => mkSys m l
  | Raised e m => mkSys m (LDead e)
  end.

Definition start (c : Config) : Sys := mkSys (init c) LStart.

Definition on_edge (s : Sample) (y : Sys) : Sys :=
  settle (engine_edge s (eng y) (mst y)).

Definition on_wake (y : Sys) : Sys :=
  settle (engine_wake (eng y) (mst y)).

(** The engine over a run of clock edges. *)
Fixpoint on_edges (ss : list Sample) (y : Sys) : Sys :=
  match ss with
  | [] => y
  | s :: rest => on_edges rest (on_edge s y)
  end.

(** ** The callers' coroutines *)

(** The control points of [write], [read] and [wait]. *)
Inductive caller :=
| CWriteWait                      (* [write], line 124 *)
| CReadSearch (rx_id : Z)         (* [read], line 185, not yet found *)
| CReadFound (r : list byte)      (* [read], line 185, found *)
| CReadWait (r : list byte)       (* [read], line 186 *)
| CWaitIdle                       (* [wait], line 253 *)
| CReturned (r : option (list byte)).

Definition write (addr : Z) (data : Payload) (strb : Z)
    (error_expected : bool) : M caller :=
  write_nowait addr data strb error_expected ;;;
  ret CWriteWait.

(** Lines 180-184: the inner loop of [read]; returns the data of the entry
    it stopped at, and what it left in the queue. *)
Fixpoint rx_scan (rx_id : Z) (q : list (list byte * Z))
    : option (list byte) * list (list byte * Z) :=
  match q with
  | [] => (None, [])
  | (r, t) :: rest =>
      if rx_id =? t then (Some r, rest) else rx_scan rx_id rest
  end.

Definition read_search (rx_id : Z) : M caller :=
  q <- gets queue_rx ;;
  modify (set_queue_rx (snd (rx_scan rx_id q))) ;;;
  match fst (rx_scan rx_id q) with
  | Some r => ret (CReadFound r)
  | None => ret (CReadSearch rx_id)
  end.

Definition read (addr : Z) (data : Payload) (error_expected : bool)
    : M caller :=
  rx_id <- read_nowait addr data error_expected ;;
  read_search rx_id.

Definition wait : M caller := ret CWaitIdle.

(** The caller's code run when [await RisingEdge(self.clock)] returns. *)
Definition caller_edge (k : caller) : M caller :=
  match k with
  | CReadSearch rx_id => read_search rx_id
  | CReadFound r => ret (CReadWait r)
  | _ => ret k
  end.

(** [await self._idle.wait()] returns once the event is set. *)
Definition caller_idle (k : caller) : M caller :=
  i <- gets idle_ev ;;
  if i then
    match k with
    | CWriteWait => ret (CReturned None)
    | CReadWait r => ret (CReturned (Some r))
    | CWaitIdle => ret (CReturned None)
    | _ => ret k
    end
  else ret k.

(** ** Interleaving of callers and engine *)

(** What can happen to the driver between two suspensions: the engine is
    resumed by a clock edge or by [sync]; a caller runs a method; [read]
    scans the response queue; the test bench flips [exception_enabled] or
    calls [_restart]. *)
Inductive action :=
| AEdge (s : Sample)
| AWake
| AWriteNowait (addr : Z) (data : Payload) (strb : Z) (error_expected : bool)
| AReadNowait (addr : Z) (data : Payload) (error_expected : bool)
| AClear
| ARxScan (rx_id : Z)
| ASetExceptionEnabled (v : bool)
| ARestart.

Definition on_master (f : Master -> Master) (y : Sys) : Sys :=
  mkSys (f (mst y)) (eng y).

Definition act (a : action) (y : Sys) : Sys :=
  match a with
  | AEdge s => on_edge s y
  | AWake => if sync (mst y) then on_wake y else y
  | AWriteNowait addr data strb ee =>
      on_master (fun m => final (write_nowait addr data strb ee m)) y
  | AReadNowait addr data ee =>
      on_master (fun m => final (read_nowait addr data ee m)) y
  | AClear => on_master (fun m => final (clear m)) y
  | ARxScan rx_id => on_master (fun m => final (read_search rx_id m)) y
  | ASetExceptionEnabled v => on_master (set_exception_enabled v) y
  | ARestart => mkSys (mst y) LStart
  end.

Fixpoint run (acts : list action) (y : Sys) : Sys :=
  match acts with
  | [] => y
  | a :: rest => run rest (act a y)
  end.

Definition reachable (c : Config) (y : Sys) : Prop :=
  exists acts, y = run acts (start c).

(** The ids handed out by one action: those of the beats it appended. *)
Definition assigned (a : action) (y : Sys) : list Z :=
  match a with
  | AWriteNowait _ _ _ _ | AReadNowait _ _ _ =>
      map b_id (skipn (length (queue_tx (mst y))) (queue_tx (mst (act a y))))
  | _ => []
  end.

Fixpoint assigned_ids (acts : list action) (y : Sys) : list Z :=
  match acts with
  | [] => []
  | a :: rest => assigned a y ++ assigned_ids rest (act a y)
  end.

(** The beat the engine holds between dequeue and completion. *)
Definition in_flight (l : loc) : option Beat :=
  match l with
  | LWriteIssued b | LWriteAccept b _ | LWriteResp b _
  | LReadSetup b _ | LReadIssued b | LReadAccept b _ | LReadResp b _ => Some b
  | _ => None
  end.

(** The engine is not working on a beat. *)
Definition at_rest (l : loc) : bool :=
  match l with
  | LStart | LWaitWork => true
  | _ => false
  end.

(** A 32-bit bus with 16 address bits and the default timeout. *)
Definition cfg32 : Config := mkConfig 16 32 32 4 1000.

(** A bus whose read data is twice as wide as its write data. *)
Definition cfg_r64_w32 : Config := mkConfig 16 32 64 4 1000.

Definition ok_sample (rd : Z) : Sample := mkSample false true true 0 rd.
Definition busy_sample : Sample := mkSample true false false 0 0.

(** Beat [i] of the integer payload [P] as [write_nowait] builds it; the
    ids of one call are [base + i]. *)
Definition int_beat (c : Config) (addr P strb : Z) (ee : bool) (base i : Z)
    : Beat :=
  mkBeat true (addr + i * wbytes c)
    (le_bytes (Z.to_nat (wbytes c))
       (Z.land (Z.shiftr P (wwidth c * i)) (wdata_mask c)))
    strb ee (base + i).

(** The concatenated payloads of a run of beats. *)
Definition payload_bytes (bs : list Beat) : list byte :=
  concat (map b_data bs).

(** The response contract: the status is an error exactly when one was
    expected. *)
Definition contract_ok (error_expected : bool) (status : Z) : bool :=
  Bool.eqb error_expected (negb (status =? 0)).

(** The exception each direction raises on a violated contract. *)
Definition write_violation (error_expected : bool) (status : Z) : Exn :=
  if error_expected then WriteExpectedError else WriteUnexpectedError status.
Definition read_violation (error_expected : bool) (status : Z) : Exn :=
  if error_expected then ReadExpectedError else ReadUnexpectedError status.

(** The four wait loops of [_run]. *)
Inductive phase := WriteAccept | WriteResponse | ReadAccept | ReadResponse.

(** The [await] inside the loop of a phase. *)
Definition phase_loc (ph : phase) (b : Beat) (cycle_count : Z) : loc :=
  match ph with
  | WriteAccept => LWriteAccept b cycle_count
  | WriteResponse => LWriteResp b cycle_count
  | ReadAccept => LReadAccept b cycle_count
  | ReadResponse => LReadResp b cycle_count
  end.

(** The loop condition of a phase: the awaited event has not occurred. *)
Definition phase_blocked (ph : phase) (s : Sample) : bool :=
  match ph with
  | WriteAccept | ReadAccept => waitrequest s
  | WriteResponse => negb (writeresponsevalid s)
  | ReadResponse => negb (readdatavalid s)
  end.

Definition phase_timeout (ph : phase) (cycle_count addr : Z) : Exn :=
  match ph with
  | WriteAccept => WriteTimeout cycle_count addr
  | WriteResponse => WriteResponseTimeout cycle_count addr
  | ReadAccept => ReadTimeout cycle_count addr
  | ReadResponse => ReadResponseTimeout cycle_count addr
  end.

Definition is_timeout (e : Exn) : bool :=
  match e with
  | WriteTimeout _ _ | WriteResponseTimeout _ _
  | ReadTimeout _ _ | ReadResponseTimeout _ _ => true
  | _ => false
  end.

Definition is_out_of_range (e : Exn) : bool :=
  match e with
  | AddressOutOfRange _ _ => true
  | _ => false
  end.

(** The outcome raised an exception [P] holds of. *)
Definition raises {A} (P : Exn -> bool) (o : Outcome A) : bool :=
  match o with
  | Ok _ _ => false
  | Raised e _ => P e
  end.

(** Data widths that are a positive whole number of bytes. *)
Definition byte_wide (c : Config) : Prop :=
  0 < wwidth c /\ wwidth c mod 8 = 0 /\ 0 < rwidth c /\ rwidth c mod 8 = 0.

(** The beats an enqueueing loop appends over the indices [xs], the last
    id handed out before being [id0]: the loop stops at the first index
    whose payload cannot be built. *)
Fixpoint loop_beats (w : bool) (addr_of : Z -> Z)
    (data_of : Z -> option (list byte)) (strb : Z) (ee : bool)
    (id0 : Z) (xs : list Z) : list Beat :=
  match xs with
  | [] => []
  | i :: rest =>
      match data_of i with
      | Some d =>
          mkBeat w (addr_of i) d strb ee (id0 + 1)
          :: loop_beats w addr_of data_of strb ee (id0 + 1) rest
      | None => []
      end
  end.

(** The ids [id0 + 1, ..., id0 + n]. *)
Definition ids_after (id0 : Z) (n : nat) : list Z :=
  map (fun k => id0 + 1 + Z.of_nat k) (seq 0 n).

(** [m'] is [m] with [beats] appended to the transaction queue and as many
    ids used up. *)
Definition appended (m : Master) (beats : list Beat) (m' : Master) : Prop :=
  m' = set_queue_tx (queue_tx m ++ beats)
         (set_tx_id (tx_id m + Z.of_nat (length beats)) m).

(** The payload of beat [i] in [write_nowait] and in [read_nowait];
    [None] when [to_bytes] overflows. *)
Definition write_data (c : Config) (data : Payload) (i : Z)
    : option (list byte) :=
  match data with
  | PInt v =>
      to_bytes (wbytes c) (Z.land (Z.shiftr v (wwidth c * i)) (wdata_mask c))
  | PBytes bs => Some (slice bs (i * wbytes c) ((i + 1) * wbytes c))
  end.

Definition read_data (c : Config) (data : Payload) (i : Z)
    : option (list byte) :=
  match data with
  | PInt v =>
      to_bytes (rbytes c) (Z.land (Z.shiftr v (rwidth c * i)) (rdata_mask c))
  | PBytes bs => Some bs
  end.

(** What a resumption of the engine at control point [l] in state [m]
    may do to the queues and the id counter, [y'] being what it leaves:
    the configuration and the counter stay; the transaction queue only
    loses beats; a beat in flight afterwards was in flight before or came
    from the queue; a new response carries the id of the beat that was in
    flight. *)
Definition engine_frame (m : Master) (l : loc) (y' : Sys) : Prop :=
  cfg (mst y') = cfg m /\
  tx_id (mst y') = tx_id m /\
  (forall b, In b (queue_tx (mst y')) -> In b (queue_tx m)) /\
  (forall b, in_flight (eng y') = Some b ->
             in_flight l = Some b \/ In b (queue_tx m)) /\
  (forall e, In e (queue_rx (mst y')) ->
             In e (queue_rx m) \/
             exists b, in_flight l = Some b /\ snd e = b_id b).

(** The resumptions of the engine, and the enqueueing calls. *)
Definition is_engine (a : action) : bool :=
  match a with
  | AEdge _ | AWake => true
  | _ => false
  end.

Definition is_enqueue (a : action) : bool :=
  match a with
  | AWriteNowait _ _ _ _ | AReadNowait _ _ _ => true
  | _ => false
  end.

(** What one action may do to the queues and the id counter. *)
Definition action_frame (y y' : Sys) : Prop :=
  cfg (mst y') = cfg (mst y) /\
  tx_id (mst y) <= tx_id (mst y') /\
  (forall b, In b (queue_tx (mst y')) ->
             In b (queue_tx (mst y)) \/
             tx_id (mst y) < b_id b <= tx_id (mst y')) /\
  (forall b, in_flight (eng y') = Some b ->
             in_flight (eng y) = Some b \/ In b (queue_tx (mst y))) /\
  (forall e, In e (queue_rx (mst y')) ->
             In e (queue_rx (mst y)) \/
             exists b, in_flight (eng y) = Some b /\ snd e = b_id b).

(** No beat carries an id above the counter. *)
Definition ids_bounded (y : Sys) : Prop :=
  (forall b, In b (queue_tx (mst y)) -> b_id b <= tx_id (mst y)) /\
  (forall b, in_flight (eng y) = Some b -> b_id b <= tx_id (mst y)).

(** The id [k] has been handed out and is nowhere in the driver. *)
Definition absent (k : Z) (y : Sys) : Prop :=
  k <= tx_id (mst y) /\
  (forall b, In b (queue_tx (mst y)) -> k < b_id b) /\
  (forall b, in_flight (eng y) = Some b -> b_id b <> k) /\
  (forall e, In e (queue_rx (mst y)) -> snd e <> k).

(** When [_idle] is set the engine has nothing queued and nothing in
    flight. *)
Definition idle_sound (y : Sys) : Prop :=
  idle_ev (mst y) = true ->
  queue_tx (mst y) = [] /\ at_rest (eng y) = true.

(** What a resumption of the engine may do to [_idle]: nothing, leaving
    the transaction queue as it was and the engine on the same side of a
    beat; or it was at the head of its loop and found the queue empty, set
    [_idle] and went to wait for work; or it was there and took a beat. *)
Definition idle_frame (m : Master) (l : loc) (y' : Sys) : Prop :=
  (idle_ev (mst y') = idle_ev m /\
   queue_tx (mst y') = queue_tx m /\
   at_rest (eng y') = at_rest l) \/
  (in_flight l = None /\
   queue_tx m = [] /\ queue_tx (mst y') = [] /\
   idle_ev (mst y') = true /\ eng y' = LWaitWork) \/
  (in_flight l = None /\
   (exists b, queue_tx m = b :: queue_tx (mst y')) /\
   idle_ev (mst y') = idle_ev m /\
   at_rest (eng y') = false).

(** A wait of [k] cycles in one loop stays within the budget: the count
    is tested only after a cycle has been waited. *)
Definition within_budget (c : Config) (k : nat) : bool :=
  match k with
  | O => true
  | S _ => negb (timed_out c (Z.of_nat k))
  end.

(** Where the engine is after [k] cycles with [waitrequest] high, counted
    from the issue of the beat. *)
Definition write_accept_loc (b : Beat) (k : nat) : loc :=
  match k with
  | O => LWriteIssued b
  | S j => LWriteAccept b (Z.of_nat j)
  end.

Definition read_accept_loc (b : Beat) (k : nat) : loc :=
  match k with
  | O => LReadIssued b
  | S j => LReadAccept b (Z.of_nat j)
  end.

(** The write signals released, line 309-312; the read signals released,
    lines 381-382. *)
Definition release_write (o : BusOut) : BusOut :=
  mkBusOut (bus_read o) 0 0 0 0.
Definition release_read (o : BusOut) : BusOut :=
  mkBusOut 0 (bus_write o) 0 (bus_writedata o) (bus_byteenable o).

(** What only grows: the configuration stays, the id counter does not go
    back, [exception_occurred] once set stays set, and the log is
    extended. *)
Definition monotone_frame (m m' : Master) : Prop :=
  cfg m' = cfg m /\
  tx_id m <= tx_id m' /\
  (exception_occurred m = true -> exception_occurred m' = true) /\
  exists l, log m' = log m ++ l.

(** The ids the driver holds, in the order their beats were enqueued:
    those of the responses delivered and not yet consumed, that of the
    beat in flight, those of the beats queued. *)
Definition flight_ids (l : loc) : list Z :=
  match in_flight l with
  | Some b => [b_id b]
  | None => []
  end.

Definition id_line (y : Sys) : list Z :=
  map snd (queue_rx (mst y)) ++ flight_ids (eng y)
  ++ map b_id (queue_tx (mst y)).

Definition ordered (y : Sys) : Prop :=
  StronglySorted Z.lt (id_line y) /\
  Forall (fun i => i <= tx_id (mst y)) (id_line y).

(** [l] is [l'] with some elements left out. *)
Inductive subseq : list Z -> list Z -> Prop :=
| subseq_nil : subseq [] []
| subseq_skip x l l' : subseq l l' -> subseq l (x :: l')
| subseq_keep x l l' : subseq l l' -> subseq (x :: l) (x :: l').

(** What a resumption of the engine does to the beats: nothing, but
    possibly giving up the beat in flight; or it takes the head of the
    transaction queue; or it delivers the response of the read beat in
    flight. *)
Definition beat_shape (m : Master) (l : loc) (y' : Sys) : Prop :=
  (queue_rx (mst y') = queue_rx m /\
   queue_tx (mst y') = queue_tx m /\
   (in_flight (eng y') = in_flight l \/ in_flight (eng y') = None)) \/
  (in_flight l = None /\
   queue_rx (mst y') = queue_rx m /\
   exists b, queue_tx m = b :: queue_tx (mst y') /\
             (in_flight (eng y') = Some b \/ in_flight (eng y') = None)) \/
  (exists b d,
     in_flight l = Some b /\
     queue_rx (mst y') = queue_rx m ++ [(d, b_id b)] /\
     queue_tx (mst y') = queue_tx m /\
     in_flight (eng y') = None).

(** An engine waiting for work with beats queued has [sync] set, so that
    its wait returns. *)
Definition wake_sound (y : Sys) : Prop :=
  eng y = LWaitWork -> queue_tx (mst y) <> [] -> sync (mst y) = true.

(** What a resumption of the engine may do to [_idle] and [sync]: leave
    both, not arriving at the wait for work; or, at the head of its loop
    with the transaction queue empty, set [_idle], clear [sync] and wait
    for work; or, after a beat, set [sync] and take the next beat. *)
Definition sync_frame (m : Master) (l : loc) (y' : Sys) : Prop :=
  (idle_ev (mst y') = idle_ev m /\
   sync (mst y') = sync m /\
   (eng y' = LWaitWork -> l = LWaitWork)) \/
  (queue_tx m = [] /\ in_flight l = None /\
   idle_ev (mst y') = true /\ sync (mst y') = false /\
   eng y' = LWaitWork) \/
  (l = LBeatEnd /\
   idle_ev (mst y') = idle_ev m /\ sync (mst y') = true /\
   at_rest (eng y') = false).

(** An engine that waits for work with [sync] clear has [_idle] set. *)
Definition idle_when_waiting (y : Sys) : Prop :=
  eng y = LWaitWork -> sync (mst y) = false -> idle_ev (mst y) = true.

(** [_idle] is set exactly when [sync] is clear. *)
Definition idle_tracks_sync (y : Sys) : Prop :=
  idle_ev (mst y) = negb (sync (mst y)).

(** * Properties *)

(** ** Bytes and integers *)

Module PyIntFacts.

Lemma byte_val_range b : 0 <= byte_val b < 256.
Proof.
  unfold byte_val. pose proof (Byte.to_N_bounded b). lia.
Qed.

Lemma byte_val_of_Z z : byte_val (byte_of_Z z) = z mod 256.
Proof.
  unfold byte_val, byte_of_Z.
  pose proof (Z.mod_pos_bound z 256 eq_refl) as Hr.
  destruct (Byte.of_N (Z.to_N (z mod 256))) eqn:E.
  - apply Byte.to_of_N in E. rewrite E. lia.
  - apply Byte.of_N_None_iff in E. lia.
Qed.

Lemma length_le_bytes n x : length (le_bytes n x) = n.
Proof. revert x. induction n; intros; simpl; auto. Qed.

Lemma from_bytes_le_bytes n x :
  from_bytes (le_bytes n x) = x mod 2 ^ (8 * Z.of_nat n).
Proof.
  revert x. induction n as [|n IH]; intros x.
  - simpl. now rewrite Z.mod_1_r.
  - cbn [le_bytes from_bytes]. rewrite byte_val_of_Z, IH.
    replace (8 * Z.of_nat (S n)) with (8 + 8 * Z.of_nat n) by lia.
    rewrite Z.pow_add_r by lia.
    change (2 ^ 8) with 256.
    rewrite Z.rem_mul_r by lia. reflexivity.
Qed.

Lemma from_bytes_range bs :
  0 <= from_bytes bs < 2 ^ (8 * Z.of_nat (length bs)).
Proof.
  induction bs as [|b bs IH].
  - simpl. lia.
  - cbn [from_bytes length]. pose proof (byte_val_range b).
    replace (8 * Z.of_nat (S (length bs))) with (8 + 8 * Z.of_nat (length bs))
      by lia.
    rewrite Z.pow_add_r by lia. change (2 ^ 8) with 256. nia.
Qed.

Lemma from_bytes_app xs ys :
  from_bytes (xs ++ ys)
  = from_bytes xs + 2 ^ (8 * Z.of_nat (length xs)) * from_bytes ys.
Proof.
  induction xs as [|x xs IH].
  - cbn [app from_bytes length]. change (8 * Z.of_nat 0) with 0.
    rewrite Z.pow_0_r. lia.
  - cbn [app from_bytes length]. rewrite IH.
    replace (8 * Z.of_nat (S (length xs))) with (8 + 8 * Z.of_nat (length xs))
      by lia.
    rewrite Z.pow_add_r by lia. change (2 ^ 8) with 256. ring.
Qed.

Lemma to_bytes_fits n x :
  0 <= x < 2 ^ (8 * n) -> to_bytes n x = Some (le_bytes (Z.to_nat n) x).
Proof.
  intros [H0 H1]. unfold to_bytes.
  destruct (x <? 0) eqn:E0; [lia|].
  destruct (2 ^ (8 * n) <=? x) eqn:E1; [lia|]. reflexivity.
Qed.

Lemma from_to_bytes n x bs :
  0 <= n -> to_bytes n x = Some bs ->
  from_bytes bs = x /\ Z.of_nat (length bs) = n.
Proof.
  intros Hn. unfold to_bytes.
  destruct (x <? 0) eqn:E0; [discriminate|].
  destruct (2 ^ (8 * n) <=? x) eqn:E1; [discriminate|].
  intros [= <-]. rewrite from_bytes_le_bytes, length_le_bytes.
  rewrite Z2Nat.id by lia. split; [|reflexivity].
  apply Z.mod_small. lia.
Qed.

Lemma bit_length_nonneg x : 0 <= bit_length x.
Proof.
  destruct x; cbn [bit_length Z.abs]; try lia.
  - pose proof (Z.log2_nonneg (Z.pos p)). lia.
  - pose proof (Z.log2_nonneg (Z.pos p)). lia.
Qed.

Lemma bit_length_bound x : 0 <= x -> x < 2 ^ bit_length x.
Proof.
  intros Hx. destruct x as [|p|p]; [simpl; lia| |lia].
  cbn [bit_length Z.abs].
  pose proof (Z.log2_spec (Z.pos p) eq_refl) as [_ H].
  replace (Z.log2 (Z.pos p) + 1) with (Z.succ (Z.log2 (Z.pos p))) by lia.
  exact H.
Qed.

Lemma bit_length_pos x : 0 < bit_length x <-> x <> 0.
Proof.
  destruct x; cbn [bit_length Z.abs].
  - split; [lia|congruence].
  - pose proof (Z.log2_nonneg (Z.pos p)). split; [discriminate|lia].
  - pose proof (Z.log2_nonneg (Z.pos p)). split; [discriminate|lia].
Qed.

Lemma ceil_div_ge a b : 0 < b -> a <= b * ceil_div a b.
Proof.
  intros Hb. unfold ceil_div.
  pose proof (Z.mul_div_le (- a) b Hb). lia.
Qed.

Lemma ceil_div_pos a b : 0 < b -> 0 < a -> 1 <= ceil_div a b.
Proof.
  intros Hb Ha. unfold ceil_div.
  assert ((- a) / b < 0) by (apply Z.div_lt_upper_bound; lia). lia.
Qed.

Lemma ceil_div_0 b : ceil_div 0 b = 0.
Proof. unfold ceil_div. simpl. reflexivity. Qed.

(** [ceil_div a b] is the least [n] with [a <= b * n]. *)
Lemma ceil_div_least a b n : 0 < b -> a <= b * n -> ceil_div a b <= n.
Proof.
  intros Hb H. unfold ceil_div.
  assert (- n <= (- a) / b) by (apply Z.div_le_lower_bound; lia). lia.
Qed.

Lemma land_mask x w : 0 <= w -> Z.land x (2 ^ w - 1) = x mod 2 ^ w.
Proof.
  intros Hw. rewrite <- Z.land_ones by assumption.
  now rewrite Z.ones_equiv, <- Z.sub_1_r.
Qed.

Lemma quot8 w : 0 <= w -> Z.quot w 8 = w / 8.
Proof. intros. apply Z.quot_div_nonneg; lia. Qed.

End PyIntFacts.

Import PyIntFacts.

(** ** Splitting a write into beats *)

Lemma range_length n : 0 <= n -> Z.of_nat (length (range n)) = n.
Proof.
  intros. unfold range. rewrite length_map, length_seq. lia.
Qed.

Lemma nth_range_map {A} (f : Z -> A) n i :
  0 <= i < n -> nth_error (map f (range n)) (Z.to_nat i) = Some (f i).
Proof.
  intros Hi. unfold range. rewrite map_map.
  rewrite nth_error_map.
  rewrite nth_error_seq.
  assert (Hlt : (Z.to_nat i < Z.to_nat n)%nat) by lia.
  apply Nat.ltb_lt in Hlt. rewrite Hlt. cbn. f_equal. f_equal. lia.
Qed.

Section WriteSplit.

Variables (c : Config) (addr P strb : Z) (ee : bool).
Hypothesis width8 : wwidth c = 8 * wbytes c.
Hypothesis wbytes_nonneg : 0 <= wbytes c.

Let W := wwidth c.

Lemma chunk_fits i :
  0 <= Z.land (Z.shiftr P (wwidth c * i)) (wdata_mask c)
    < 2 ^ (8 * wbytes c).
Proof.
  unfold wdata_mask. rewrite land_mask by lia.
  rewrite <- width8. apply Z.mod_pos_bound.
  apply Z.pow_pos_nonneg; lia.
Qed.

Lemma for_each_enqueue_int base k : forall j m,
  tx_id m = base + Z.of_nat j - 1 ->
  for_each (fun i =>
      datab <- py_to_bytes (wbytes c)
                 (Z.land (Z.shiftr P (wwidth c * i)) (wdata_mask c)) ;;
      enqueue true (addr + i * wbytes c) datab strb ee)
    (map Z.of_nat (seq j k)) m
  = Ok tt (set_queue_tx
             (queue_tx m
              ++ map (int_beat c addr P strb ee base) (map Z.of_nat (seq j k)))
             (set_tx_id (tx_id m + Z.of_nat k) m)).
Proof.
  induction k as [|k IH]; intros j m Hid.
  - destruct m; cbn. unfold ret. f_equal. unfold set_queue_tx, set_tx_id.
    cbn. f_equal; [now rewrite app_nil_r | lia].
  - cbn [seq map for_each]. unfold bind at 1. unfold bind at 1.
    unfold py_to_bytes. rewrite (to_bytes_fits _ _ (chunk_fits (Z.of_nat j))).
    unfold ret at 1. unfold enqueue, bind, modify.
    rewrite IH by (cbn; lia).
    f_equal. destruct m; unfold set_queue_tx, set_tx_id; cbn in *.
    f_equal.
    + rewrite <- app_assoc. cbn. do 2 f_equal.
      unfold int_beat. f_equal. lia.
    + lia.
Qed.

Lemma chunk_value i :
  0 <= i -> 0 <= W ->
  Z.land (Z.shiftr P (wwidth c * i)) (wdata_mask c)
  = (P / 2 ^ (i * W)) mod 2 ^ W.
Proof.
  unfold W. intros Hi HW. unfold wdata_mask. rewrite land_mask by lia.
  rewrite Z.shiftr_div_pow2 by nia. now rewrite (Z.mul_comm (wwidth c) i).
Qed.

Lemma payload_bytes_chunks base k : forall j,
  from_bytes (payload_bytes
    (map (int_beat c addr P strb ee base) (map Z.of_nat (seq j k))))
  = (P / 2 ^ (W * Z.of_nat j)) mod 2 ^ (W * Z.of_nat k).
Proof.
  assert (HW : 0 <= W) by (unfold W; lia).
  induction k as [|k IH]; intros j.
  - cbn. rewrite Z.mul_0_r, Z.pow_0_r, Z.mod_1_r. reflexivity.
  - unfold payload_bytes in *. cbn [seq map concat].
    rewrite from_bytes_app, IH. cbn [int_beat b_data].
    rewrite from_bytes_le_bytes, length_le_bytes.
    rewrite Z2Nat.id by lia. rewrite <- width8. fold W.
    rewrite chunk_value by lia.
    rewrite Z.mod_mod by (apply Z.pow_nonzero; lia).
    assert (Hp : 0 < 2 ^ W) by (apply Z.pow_pos_nonneg; lia).
    assert (Hq : 0 < 2 ^ (W * Z.of_nat k)) by (apply Z.pow_pos_nonneg; nia).
    assert (Hr : 0 < 2 ^ (Z.of_nat j * W)) by (apply Z.pow_pos_nonneg; nia).
    replace (W * Z.of_nat (S j)) with (Z.of_nat j * W + W) by lia.
    rewrite Z.pow_add_r by nia.
    rewrite <- Z.div_div by lia.
    replace (W * Z.of_nat (S k)) with (W + W * Z.of_nat k) by lia.
    rewrite Z.pow_add_r by nia.
    rewrite (Z.mul_comm W (Z.of_nat j)).
    rewrite (Z.rem_mul_r _ (2 ^ W) (2 ^ (W * Z.of_nat k))) by lia.
    reflexivity.
Qed.

End WriteSplit.

Lemma num_beats_max L W :
  0 <= L -> 0 < W ->
  (if 0 <? L then ceil_div L W else 1) = Z.max 1 (ceil_div L W).
Proof.
  intros HL HW. destruct (0 <? L) eqn:E.
  - apply Z.ltb_lt in E. pose proof (ceil_div_pos L W HW E). lia.
  - apply Z.ltb_ge in E. replace L with 0 by lia. rewrite ceil_div_0. lia.
Qed.

Lemma width_bytes w : 0 <= w -> w mod 8 = 0 -> w = 8 * Z.quot w 8.
Proof.
  intros Hw H8. rewrite quot8 by assumption.
  pose proof (Z.div_mod w 8). lia.
Qed.

(** C1: an integer payload [P] of bit length [L] written on a [W]-bit bus
    enqueues exactly [max 1 (ceil (L / W))] beats, by [write_nowait] and by
    [write] alike; beat [i] is a write at byte address [addr + i * (W / 8)]
    whose payload is the [W / 8] little-endian bytes of bits
    [i * W .. (i + 1) * W) of [P]; and the payloads, concatenated in order
    and read little-endian, give back [P]. *)
Theorem write_nowait_int_beats (m : Master) (addr P strb : Z) (ee : bool) :
  let W := wwidth (cfg m) in
  let n := Z.max 1 (ceil_div (bit_length P) W) in
  0 < W -> W mod 8 = 0 ->
  exists beats m',
    write_nowait addr (PInt P) strb ee m = Ok tt m' /\
    write addr (PInt P) strb ee m = Ok CWriteWait m' /\
    queue_tx m' = queue_tx m ++ beats /\
    Z.of_nat (length beats) = n /\
    (forall i, 0 <= i < n -> exists b,
        nth_error beats (Z.to_nat i) = Some b /\
        b_write b = true /\
        b_addr b = addr + i * (W / 8) /\
        Z.of_nat (length (b_data b)) = W / 8 /\
        from_bytes (b_data b) = (P / 2 ^ (i * W)) mod 2 ^ W /\
        b_strb b = strb /\ b_error_expected b = ee /\
        b_id b = tx_id m + 1 + i) /\
    (0 <= P -> from_bytes (payload_bytes beats) = P).
Proof.
  intros W n HW H8.
  assert (width8 : wwidth (cfg m) = 8 * wbytes (cfg m))
    by (apply width_bytes; fold W; lia).
  assert (Hwb : 0 <= wbytes (cfg m)) by (fold W in width8; lia).
  assert (Hwb8 : W / 8 = wbytes (cfg m))
    by (unfold wbytes; fold W; rewrite quot8; lia).
  assert (Hn : 1 <= n) by (unfold n; lia).
  pose proof (bit_length_nonneg P) as HL.
  assert (Hnum : (if 0 <? bit_length P
                  then py_ceil_div (bit_length P) (wwidth (cfg m))
                  else ret 1) m = Ok n m).
  { unfold n. rewrite <- num_beats_max by (fold W; lia).
    unfold py_ceil_div. fold W.
    destruct (W =? 0) eqn:E0; [lia|]. now destruct (0 <? bit_length P). }
  assert (Hrun : write_nowait addr (PInt P) strb ee m
    = Ok tt (set_idle false (set_sync true
        (set_queue_tx
           (queue_tx m ++ map (int_beat (cfg m) addr P strb ee (tx_id m + 1))
                              (range n))
           (set_tx_id (tx_id m + n) m))))).
  { unfold write_nowait. unfold bind at 1. unfold gets at 1.
    unfold bind at 1. rewrite Hnum.
    unfold bind at 1. unfold range.
    rewrite (for_each_enqueue_int (cfg m) addr P strb ee width8 Hwb
               (tx_id m + 1)) by lia.
    rewrite Z2Nat.id by lia. reflexivity. }
  eexists. eexists. split; [exact Hrun|].
  split; [unfold write, bind; now rewrite Hrun|].
  split; [reflexivity|].
  split; [rewrite length_map; apply range_length; lia|].
  split.
  - intros i Hi. eexists. split; [apply nth_range_map; exact Hi|].
    cbn [int_beat b_write b_addr b_data b_strb b_error_expected b_id].
    rewrite length_le_bytes, from_bytes_le_bytes, Z2Nat.id by lia.
    rewrite <- width8, Hwb8.
    rewrite (chunk_value (cfg m) P width8 i) by (fold W; lia). fold W.
    rewrite Z.mod_mod by (apply Z.pow_nonzero; lia).
    repeat split; lia.
  - intros HP. unfold range.
    rewrite (payload_bytes_chunks (cfg m) addr P strb ee width8 Hwb).
    fold W. rewrite Z.mul_0_r, Z.pow_0_r, Z.div_1_r, Z2Nat.id by lia.
    apply Z.mod_small. split; [exact HP|].
    apply Z.lt_le_trans with (2 ^ bit_length P);
      [apply bit_length_bound; exact HP|].
    apply Z.pow_le_mono_r; [lia|].
    pose proof (ceil_div_ge (bit_length P) W HW). unfold n. nia.
Qed.

Lemma write_nowait_int_beats_witness :
  exists beats m',
    write_nowait 16 (PInt 3735928559) (-1) false (init cfg32) = Ok tt m' /\
    queue_tx m' = beats /\
    Z.of_nat (length beats) = 1 /\
    from_bytes (payload_bytes beats) = 3735928559.
Proof.
  destruct (write_nowait_int_beats (init cfg32) 16 3735928559 (-1) false)
    as (beats & m' & Hw & _ & Hq & Hlen & _ & Hrec);
    [reflexivity | reflexivity |].
  exists beats, m'. repeat split.
  - exact Hw.
  - exact Hq.
  - exact Hlen.
  - apply Hrec. discriminate.
Defined.

(** ** The response contract *)

Ltac run_m :=
  repeat (unfold bind, modify, gets, ret, raise, critical in *; cbn in *).

Lemma write_check_response_spec ee status m :
  write_check_response ee status m =
  if contract_ok ee status then Ok tt m
  else
    let e := write_violation ee status in
    let m1 := set_exception_occurred true m in
    if exception_enabled m then Raised e (add_log Critical (MsgExn e) m1)
    else Ok tt (add_log Warning (MsgExn e) m1).
Proof.
  unfold write_check_response, contract_ok, write_violation.
  destruct ee, (status =? 0), (exception_enabled m) eqn:En; run_m;
    try rewrite En; reflexivity.
Qed.

Lemma read_check_response_spec ee status m :
  read_check_response ee status m =
  if contract_ok ee status then Ok tt m
  else
    let e := read_violation ee status in
    let m1 := set_exception_occurred true m in
    if exception_enabled m then Raised e (add_log Critical (MsgExn e) m1)
    else Ok tt (add_log Warning (MsgExn e) m1).
Proof.
  unfold read_check_response, contract_ok, read_violation.
  destruct ee, (status =? 0), (exception_enabled m) eqn:En; run_m;
    try rewrite En; reflexivity.
Qed.



(** ** Timeouts of the wait loops *)

Lemma timed_out_true c n :
  timed_out c n = true <-> 0 <= timeout_cycles c <= n.
Proof.
  unfold timed_out. rewrite andb_true_iff, !Z.leb_le. tauto.
Qed.

Lemma timed_out_false c n :
  timed_out c n = false <-> timeout_cycles c < 0 \/ n < timeout_cycles c.
Proof.
  unfold timed_out. rewrite andb_false_iff, !Z.leb_gt. tauto.
Qed.

(** One more cycle in a wait loop whose budget is used up. *)
Lemma phase_edge_timeout ph b cc s m :
  timed_out (cfg m) (cc + 1) = true ->
  engine_edge s (phase_loc ph b cc) m
  = Raised (phase_timeout ph (cc + 1) (b_addr b))
      (add_log Critical (MsgExn (phase_timeout ph (cc + 1) (b_addr b))) m).
Proof.
  intros Ht.
  destruct ph; cbn [phase_loc engine_edge phase_timeout];
    unfold bind, gets; rewrite Ht; reflexivity.
Qed.

(** One more cycle in a wait loop that goes on waiting. *)
Lemma phase_edge_blocked ph b cc s m :
  timed_out (cfg m) (cc + 1) = false ->
  phase_blocked ph s = true ->
  engine_edge s (phase_loc ph b cc) m = Ok (phase_loc ph b (cc + 1)) m.
Proof.
  intros Ht Hb.
  destruct ph; cbn [phase_loc engine_edge phase_blocked] in *;
    unfold bind, gets; rewrite Ht;
    unfold write_wait_accept, write_wait_response, read_wait_accept,
      read_wait_response;
    rewrite Hb; reflexivity.
Qed.

Lemma on_edges_app ss1 ss2 y :
  on_edges (ss1 ++ ss2) y = on_edges ss2 (on_edges ss1 y).
Proof.
  revert y. induction ss1 as [|s ss1 IH]; intros y; cbn; auto.
Qed.

(** A run of cycles in a wait loop, none of which brings the awaited
    signal or uses up the budget. *)
Lemma phase_edges_blocked ph b m ss : forall cc,
  Forall (fun s => phase_blocked ph s = true) ss ->
  timed_out (cfg m) (cc + Z.of_nat (length ss)) = false ->
  on_edges ss (mkSys m (phase_loc ph b cc))
  = mkSys m (phase_loc ph b (cc + Z.of_nat (length ss))).
Proof.
  induction ss as [|s ss IH]; intros cc Hall Ht.
  - cbn. now rewrite Z.add_0_r.
  - inversion Hall as [|? ? Hs Hrest]; subst.
    cbn [on_edges length]. unfold on_edge. cbn [eng mst].
    rewrite phase_edge_blocked; trivial.
    + cbn [settle]. rewrite IH; trivial.
      * do 2 f_equal. lia.
      * replace (cc + 1 + Z.of_nat (length ss))
          with (cc + Z.of_nat (length (s :: ss))) by (cbn [length]; lia).
        exact Ht.
    + apply timed_out_false. apply timed_out_false in Ht.
      cbn [length] in Ht. lia.
Qed.

Lemma check_never_times_out_w ee status m :
  raises is_timeout (write_check_response ee status m) = false.
Proof.
  rewrite write_check_response_spec.
  destruct (contract_ok ee status), (exception_enabled m), ee; reflexivity.
Qed.

Lemma check_never_times_out_r ee status m :
  raises is_timeout (read_check_response ee status m) = false.
Proof.
  rewrite read_check_response_spec.
  destruct (contract_ok ee status), (exception_enabled m), ee; reflexivity.
Qed.

Lemma read_capture_never_times_out b s m :
  raises is_timeout (read_capture b s m) = false.
Proof.
  unfold read_capture, bind, modify, gets, ret, raise, py_to_bytes.
  destruct (b_data b);
    [|destruct (from_bytes (b0 :: l) =? readdata s)]; cbn;
    try reflexivity;
    match goal with
    | |- context [to_bytes ?n ?x] => destruct (to_bytes n x)
    end; reflexivity.
Qed.

Lemma write_wait_response_never_times_out b cc s m :
  raises is_timeout (write_wait_response b cc s m) = false.
Proof.
  unfold write_wait_response, write_complete, bind, ret.
  destruct (negb (writeresponsevalid s)); [reflexivity|].
  pose proof (check_never_times_out_w (b_error_expected b) (response s) m).
  destruct (write_check_response _ _ m); auto.
Qed.

Lemma read_wait_response_never_times_out b cc s m :
  raises is_timeout (read_wait_response b cc s m) = false.
Proof.
  unfold read_wait_response, read_complete, bind, modify.
  destruct (negb (readdatavalid s)); [reflexivity|].
  match goal with
  | |- context [read_check_response ?e ?r ?x] =>
      pose proof (check_never_times_out_r e r x) as H;
      destruct (read_check_response e r x); auto
  end.
  apply read_capture_never_times_out.
Qed.

(** With the timeout disabled no wait loop ever raises a timeout. *)
Lemma phase_edge_unbounded ph b cc s m :
  timeout_cycles (cfg m) < 0 ->
  raises is_timeout (engine_edge s (phase_loc ph b cc) m) = false.
Proof.
  intros Hneg.
  assert (Ht : timed_out (cfg m) (cc + 1) = false)
    by (apply timed_out_false; lia).
  destruct ph; cbn [phase_loc engine_edge]; unfold bind at 1, gets;
    rewrite Ht.
  - unfold write_wait_accept, bind, modify, ret.
    destruct (waitrequest s); [reflexivity|].
    apply write_wait_response_never_times_out.
  - apply write_wait_response_never_times_out.
  - unfold read_wait_accept, ret.
    destruct (waitrequest s); [reflexivity|].
    apply read_wait_response_never_times_out.
  - apply read_wait_response_never_times_out.
Qed.

(** C4: in each of the four wait loops, entered with the awaited signal
    absent: with a budget [T >= 0], once [max 1 T] cycles have been waited
    and the signal was absent on all the earlier ones, the engine raises
    the timeout of that loop, which carries the beat's address and the
    cycle count; with a negative budget the engine goes on waiting for as
    long as the signal is absent, and never raises a timeout. *)
Theorem wait_phase_timeout (ph : phase) (b : Beat) (m : Master) :
  let T := timeout_cycles (cfg m) in
  (0 <= T ->
   forall ss s,
     Forall (fun x => phase_blocked ph x = true) ss ->
     Z.of_nat (length ss) = Z.max 1 T - 1 ->
     let e := phase_timeout ph (Z.max 1 T) (b_addr b) in
     on_edges (ss ++ [s]) (mkSys m (phase_loc ph b 0))
     = mkSys (add_log Critical (MsgExn e) m) (LDead e)) /\
  (T < 0 ->
   forall ss,
     Forall (fun x => phase_blocked ph x = true) ss ->
     on_edges ss (mkSys m (phase_loc ph b 0))
     = mkSys m (phase_loc ph b (Z.of_nat (length ss)))) /\
  (T < 0 ->
   forall s cc,
     raises is_timeout (engine_edge s (phase_loc ph b cc) m) = false).
Proof.
  cbv zeta. repeat split.
  - intros HT ss s Hall Hlen.
    rewrite on_edges_app.
    assert (Hrun : on_edges ss (mkSys m (phase_loc ph b 0))
                   = mkSys m (phase_loc ph b (0 + Z.of_nat (length ss)))).
    { destruct ss as [|s0 ss'] eqn:Ess; [reflexivity|].
      rewrite <- Ess in *. apply phase_edges_blocked; trivial.
      apply timed_out_false. rewrite Ess in Hlen. cbn [length] in Hlen.
      rewrite Ess. cbn [length]. lia. }
    rewrite Hrun.
    cbn [on_edges]. unfold on_edge. cbn [eng mst].
    rewrite phase_edge_timeout.
    + cbn [settle]. rewrite Hlen.
      replace (0 + (Z.max 1 (timeout_cycles (cfg m)) - 1) + 1)
        with (Z.max 1 (timeout_cycles (cfg m))) by lia.
      reflexivity.
    + apply timed_out_true. lia.
  - intros HT ss Hall.
    rewrite phase_edges_blocked; trivial.
    apply timed_out_false. lia.
  - intros HT s cc. now apply phase_edge_unbounded.
Qed.

Lemma wait_phase_timeout_witness :
  on_edges [busy_sample; busy_sample]
    (mkSys (init (mkConfig 16 32 32 4 2))
           (LWriteAccept (mkBeat true 16 [] (-1) false 1) 0))
  = mkSys (add_log Critical (MsgExn (WriteTimeout 2 16))
             (init (mkConfig 16 32 32 4 2)))
          (LDead (WriteTimeout 2 16)).
Proof.
  pose proof (wait_phase_timeout WriteAccept
                (mkBeat true 16 [] (-1) false 1)
                (init (mkConfig 16 32 32 4 2))) as H.
  cbv zeta in H. destruct H as (H & _ & _).
  apply (H ltac:(cbn; lia) [busy_sample] busy_sample).
  - repeat constructor.
  - reflexivity.
Defined.

(** ** The enqueueing loop in general *)

Section EnqueueLoop.

Variables (w : bool) (addr_of : Z -> Z) (data_of : Z -> option (list byte))
          (strb : Z) (ee : bool).

Let body (i : Z) : M unit :=
  datab <- match data_of i with
           | Some d => ret d
           | None => raise OverflowError
           end ;;
  enqueue w (addr_of i) datab strb ee.

Lemma appended_nil m : appended m [] m.
Proof.
  unfold appended, set_queue_tx, set_tx_id. destruct m; cbn.
  f_equal; [now rewrite app_nil_r | lia].
Qed.

Lemma for_each_enqueue_final xs : forall m,
  appended m (loop_beats w addr_of data_of strb ee (tx_id m) xs)
           (final (for_each body xs m)).
Proof.
  induction xs as [|i xs IH]; intros m.
  - cbn. apply appended_nil.
  - cbn [for_each loop_beats]. unfold bind at 1. unfold body at 1.
    unfold bind at 1.
    destruct (data_of i) as [d|] eqn:Ed.
    + unfold ret at 1. unfold enqueue, bind, modify.
      match goal with
      | |- appended _ _ (final (for_each body xs ?m1)) =>
          specialize (IH m1); set (mid := m1) in *
      end.
      unfold appended in *. rewrite IH.
      destruct m; unfold mid, set_queue_tx, set_tx_id; cbn.
      f_equal.
      * now rewrite <- app_assoc.
      * lia.
    + cbn. apply appended_nil.
Qed.

Lemma for_each_enqueue_ok xs : forall m,
  Forall (fun i => data_of i <> None) xs ->
  exists m', for_each body xs m = Ok tt m'.
Proof.
  induction xs as [|i xs IH]; intros m Hall.
  - cbn. eexists. reflexivity.
  - inversion Hall as [|? ? Hi Hrest]; subst.
    cbn [for_each]. unfold bind at 1. unfold body at 1. unfold bind at 1.
    destruct (data_of i) as [d|] eqn:Ed; [|congruence].
    unfold ret at 1. unfold enqueue, bind, modify.
    apply IH. exact Hrest.
Qed.

Lemma for_each_ok_length xs : forall m m',
  for_each body xs m = Ok tt m' ->
  length (loop_beats w addr_of data_of strb ee (tx_id m) xs) = length xs.
Proof.
  induction xs as [|i xs IH]; intros m m' Hok; [reflexivity|].
  cbn [for_each loop_beats] in *. unfold bind at 1 in Hok.
  unfold body at 1 in Hok. unfold bind at 1 in Hok.
  destruct (data_of i) as [d|]; [|discriminate Hok].
  unfold ret at 1 in Hok. unfold enqueue, bind, modify in Hok.
  cbn [length]. f_equal.
  apply IH in Hok. exact Hok.
Qed.

Lemma loop_beats_length xs : forall id0,
  Forall (fun i => data_of i <> None) xs ->
  length (loop_beats w addr_of data_of strb ee id0 xs) = length xs.
Proof.
  induction xs as [|i xs IH]; intros id0 Hall; [reflexivity|].
  inversion Hall as [|? ? Hi Hrest]; subst.
  cbn [loop_beats]. destruct (data_of i); [|congruence].
  cbn [length]. f_equal. now apply IH.
Qed.

Lemma loop_beats_ids xs : forall id0,
  map b_id (loop_beats w addr_of data_of strb ee id0 xs)
  = ids_after id0 (length (loop_beats w addr_of data_of strb ee id0 xs)).
Proof.
  unfold ids_after.
  induction xs as [|i xs IH]; intros id0; cbn [loop_beats]; [reflexivity|].
  destruct (data_of i); [|reflexivity].
  cbn [map length seq b_id]. f_equal; [lia|].
  rewrite IH, <- seq_shift, map_map.
  apply map_ext. intros k. lia.
Qed.

Lemma loop_beats_nth xs : forall id0 k i,
  Forall (fun j => data_of j <> None) xs ->
  nth_error xs k = Some i ->
  exists d, data_of i = Some d /\
    nth_error (loop_beats w addr_of data_of strb ee id0 xs) k
    = Some (mkBeat w (addr_of i) d strb ee (id0 + 1 + Z.of_nat k)).
Proof.
  induction xs as [|x xs IH]; intros id0 k i Hall Hk.
  - destruct k; discriminate.
  - inversion Hall as [|? ? Hx Hrest]; subst.
    cbn [loop_beats]. destruct (data_of x) as [d|] eqn:Ed; [|congruence].
    destruct k as [|k]; cbn [nth_error] in *.
    + injection Hk as <-. exists d. split; [exact Ed|].
      do 2 f_equal. lia.
    + destruct (IH (id0 + 1) k i Hrest Hk) as (d' & Hd & Hn).
      exists d'. split; [exact Hd|]. rewrite Hn. do 2 f_equal. lia.
Qed.

End EnqueueLoop.

(** ** What an enqueueing call leaves behind *)

Lemma enqueue_call_shape (loop : M unit) m beats :
  appended m beats (final (loop m)) ->
  exists mq, appended m beats mq /\
    ((loop ;;; modify (set_sync true) ;;; modify (set_idle false)) m
       = Ok tt (set_idle false (set_sync true mq))
     \/ exists e,
       (loop ;;; modify (set_sync true) ;;; modify (set_idle false)) m
       = Raised e mq).
Proof.
  intros Ha. exists (final (loop m)). split; [exact Ha|].
  unfold bind, modify. destruct (loop m) as [[] mo|e mo]; cbn; eauto.
Qed.

Lemma byte_wide_bytes c :
  byte_wide c ->
  wwidth c = 8 * wbytes c /\ 0 < wbytes c /\
  rwidth c = 8 * rbytes c /\ 0 < rbytes c.
Proof.
  intros (Hw & Hw8 & Hr & Hr8).
  pose proof (width_bytes (wwidth c) ltac:(lia) Hw8).
  pose proof (width_bytes (rwidth c) ltac:(lia) Hr8).
  unfold wbytes, rbytes. lia.
Qed.

Lemma write_data_some c data i :
  byte_wide c -> write_data c data i <> None.
Proof.
  intros Hc. destruct (byte_wide_bytes c Hc) as (H8 & Hb & _ & _).
  destruct data as [v|bs]; cbn [write_data]; [|discriminate].
  rewrite to_bytes_fits; [discriminate|].
  unfold wdata_mask. rewrite land_mask by lia. rewrite <- H8.
  apply Z.mod_pos_bound. apply Z.pow_pos_nonneg; lia.
Qed.

Lemma read_data_some c data i :
  byte_wide c -> read_data c data i <> None.
Proof.
  intros Hc. destruct (byte_wide_bytes c Hc) as (_ & _ & H8 & Hb).
  destruct data as [v|bs]; cbn [read_data]; [|discriminate].
  rewrite to_bytes_fits; [discriminate|].
  unfold rdata_mask. rewrite land_mask by lia. rewrite <- H8.
  apply Z.mod_pos_bound. apply Z.pow_pos_nonneg; lia.
Qed.

Lemma write_nowait_frame addr data strb ee m :
  exists beats mq,
    appended m beats mq /\
    map b_id beats = ids_after (tx_id m) (length beats) /\
    (write_nowait addr data strb ee m
       = Ok tt (set_idle false (set_sync true mq))
     \/ (exists e, write_nowait addr data strb ee m = Raised e mq) /\
        ~ byte_wide (cfg m)).
Proof.
  assert (Hstop : ~ byte_wide (cfg m) -> forall e, exists beats mq,
    appended m beats mq /\
    map b_id beats = ids_after (tx_id m) (length beats) /\
    (@Raised unit e m = Ok tt (set_idle false (set_sync true mq))
     \/ (exists e', @Raised unit e m = Raised e' mq) /\
        ~ byte_wide (cfg m))).
  { intros Hn e. exists [], m. split; [apply appended_nil|].
    split; [reflexivity|]. right. split; [now exists e|exact Hn]. }
  assert (Hloop : forall n, exists beats mq,
    appended m beats mq /\
    map b_id beats = ids_after (tx_id m) (length beats) /\
    ((for_each (fun i =>
        datab <- match write_data (cfg m) data i with
                 | Some d => ret d
                 | None => raise OverflowError
                 end ;;
        enqueue true (addr + i * wbytes (cfg m)) datab strb ee)
        (range n) ;;;
      modify (set_sync true) ;;; modify (set_idle false)) m
       = Ok tt (set_idle false (set_sync true mq))
     \/ (exists e,
      (for_each (fun i =>
        datab <- match write_data (cfg m) data i with
                 | Some d => ret d
                 | None => raise OverflowError
                 end ;;
        enqueue true (addr + i * wbytes (cfg m)) datab strb ee)
        (range n) ;;;
      modify (set_sync true) ;;; modify (set_idle false)) m
       = Raised e mq) /\ ~ byte_wide (cfg m))).
  { intros n.
    pose proof (for_each_enqueue_final true
                  (fun i => addr + i * wbytes (cfg m))
                  (write_data (cfg m) data) strb ee (range n) m) as Hf.
    pose proof (for_each_enqueue_ok true
                  (fun i => addr + i * wbytes (cfg m))
                  (write_data (cfg m) data) strb ee (range n) m) as Hok.
    eexists. eexists. split; [exact Hf|].
    split; [apply loop_beats_ids|].
    unfold bind, modify in *.
    match goal with
    | |- context [for_each ?f ?xs m] =>
        destruct (for_each f xs m) as [[] mo|e mo]
    end; cbn; [now left|right].
    split; [now exists e|]. intros Hc.
    destruct Hok as [m' Hm'];
      [apply Forall_forall; intros; now apply write_data_some|].
    discriminate. }
  remember (write_nowait addr data strb ee m) as o eqn:Eo.
  unfold write_nowait in Eo. unfold bind at 1 in Eo.
  unfold gets at 1 in Eo. unfold bind at 1 in Eo.
  destruct data as [v|bs].
  - unfold py_ceil_div, ret at 1, raise at 1 in Eo.
    destruct (0 <? bit_length v);
      [destruct (wwidth (cfg m) =? 0) eqn:E0|]; subst o.
    + refine (Hstop _ ZeroDivisionError).
      intros (Hc & _). lia.
    + exact (Hloop (ceil_div (bit_length v) (wwidth (cfg m)))).
    + exact (Hloop 1).
  - unfold py_ceil_div, ret at 1, raise at 1 in Eo.
    destruct (wbytes (cfg m) =? 0) eqn:E0; subst o.
    + refine (Hstop _ ZeroDivisionError).
      intros Hc. apply byte_wide_bytes in Hc. lia.
    + exact (Hloop (ceil_div (Z.of_nat (length bs)) (wbytes (cfg m)))).
Qed.

Lemma read_nowait_frame addr data ee m :
  exists beats mq,
    appended m beats mq /\
    map b_id beats = ids_after (tx_id m) (length beats) /\
    (read_nowait addr data ee m
       = Ok (tx_id mq) (set_idle false (set_sync true mq)) /\
     (0 <= rwidth (cfg m) -> beats <> [])
     \/ (exists e, read_nowait addr data ee m = Raised e mq) /\
        ~ byte_wide (cfg m)).
Proof.
  assert (Hstop : ~ byte_wide (cfg m) -> forall e, exists beats mq,
    appended m beats mq /\
    map b_id beats = ids_after (tx_id m) (length beats) /\
    (@Raised Z e m = Ok (tx_id mq) (set_idle false (set_sync true mq)) /\
     (0 <= rwidth (cfg m) -> beats <> [])
     \/ (exists e', @Raised Z e m = Raised e' mq) /\
        ~ byte_wide (cfg m))).
  { intros Hn e. exists [], m. split; [apply appended_nil|].
    split; [reflexivity|]. right. split; [now exists e|exact Hn]. }
  assert (Hloop : forall n, (0 <= rwidth (cfg m) -> 1 <= n) ->
    exists beats mq,
    appended m beats mq /\
    map b_id beats = ids_after (tx_id m) (length beats) /\
    ((for_each (fun i =>
        datab <- match read_data (cfg m) data i with
                 | Some d => ret d
                 | None => raise OverflowError
                 end ;;
        enqueue false (addr + i * rbytes (cfg m)) datab (-1) ee)
        (range n) ;;;
      modify (set_sync true) ;;; modify (set_idle false) ;;; gets tx_id) m
       = Ok (tx_id mq) (set_idle false (set_sync true mq)) /\
     (0 <= rwidth (cfg m) -> beats <> [])
     \/ (exists e,
      (for_each (fun i =>
        datab <- match read_data (cfg m) data i with
                 | Some d => ret d
                 | None => raise OverflowError
                 end ;;
        enqueue false (addr + i * rbytes (cfg m)) datab (-1) ee)
        (range n) ;;;
      modify (set_sync true) ;;; modify (set_idle false) ;;; gets tx_id) m
       = Raised e mq) /\ ~ byte_wide (cfg m))).
  { intros n Hn.
    pose proof (for_each_enqueue_final false
                  (fun i => addr + i * rbytes (cfg m))
                  (read_data (cfg m) data) (-1) ee (range n) m) as Hf.
    pose proof (for_each_enqueue_ok false
                  (fun i => addr + i * rbytes (cfg m))
                  (read_data (cfg m) data) (-1) ee (range n) m) as Hok.
    pose proof (for_each_ok_length false
                  (fun i => addr + i * rbytes (cfg m))
                  (read_data (cfg m) data) (-1) ee (range n) m) as Hlen.
    eexists. eexists. split; [exact Hf|].
    split; [apply loop_beats_ids|].
    unfold bind, modify, gets in *.
    match goal with
    | |- context [for_each ?f ?xs m] =>
        destruct (for_each f xs m) as [[] mo|e mo]
    end; cbn; [left|right].
    - split; [reflexivity|]. intros Hw Hnil.
      specialize (Hlen mo eq_refl). rewrite Hnil in Hlen. cbn in Hlen.
      pose proof (range_length n ltac:(lia)) as Hr.
      rewrite <- Hlen in Hr. cbn in Hr. lia.
    - split; [now exists e|]. intros Hc.
      destruct Hok as [m' Hm'];
        [apply Forall_forall; intros; now apply read_data_some|].
      discriminate. }
  remember (read_nowait addr data ee m) as o eqn:Eo.
  unfold read_nowait in Eo. unfold bind at 1 in Eo.
  unfold gets at 1 in Eo. unfold bind at 1 in Eo.
  destruct data as [v|bs].
  - unfold py_ceil_div, ret at 1, raise at 1 in Eo.
    destruct (0 <? bit_length v) eqn:EL;
      [destruct (rwidth (cfg m) =? 0) eqn:E0|]; subst o.
    + refine (Hstop _ ZeroDivisionError).
      intros (_ & _ & Hc & _). lia.
    + refine (Hloop (ceil_div (bit_length v) (rwidth (cfg m))) _).
      intros Hw. apply ceil_div_pos; lia.
    + refine (Hloop 1 _). lia.
  - unfold ret at 1 in Eo. subst o. refine (Hloop 1 _). lia.
Qed.

(** ** Issue of a beat: the address check *)

Lemma run_loop_cons m b rest :
  queue_tx m = b :: rest -> run_loop m = issue b (set_queue_tx rest m).
Proof.
  intros Hq. unfold run_loop, bind, gets, modify. now rewrite Hq.
Qed.

Lemma run_loop_nil m :
  queue_tx m = [] ->
  run_loop m = Ok LWaitWork (set_sync false (set_idle true m)).
Proof.
  intros Hq. unfold run_loop, bind, gets, modify, ret. now rewrite Hq.
Qed.

Lemma issue_out_of_range b m :
  wbytes (cfg m) <> 0 ->
  b_addr b / wbytes (cfg m) < 0 \/
  2 ^ address_width (cfg m) <= b_addr b / wbytes (cfg m) ->
  issue b m
  = Raised (AddressOutOfRange (b_addr b) (b_addr b / wbytes (cfg m))) m.
Proof.
  intros Hw Hr. unfold issue, bind, gets, raise.
  destruct (wbytes (cfg m) =? 0) eqn:E0; [lia|].
  destruct ((b_addr b / wbytes (cfg m) <? 0)
            || (2 ^ address_width (cfg m) <=? b_addr b / wbytes (cfg m)))
    eqn:E; [reflexivity|].
  apply orb_false_iff in E. lia.
Qed.

Lemma issue_in_range b m :
  wbytes (cfg m) <> 0 ->
  0 <= b_addr b / wbytes (cfg m) < 2 ^ address_width (cfg m) ->
  issue b m =
  let word_addr := b_addr b / wbytes (cfg m) in
  if b_write b then
    Ok (LWriteIssued b)
      (set_bus (fun o =>
         mkBusOut (bus_read o) 1 word_addr
           (Z.land (from_bytes (b_data b)) (wdata_mask (cfg m)))
           (if b_strb b =? -1 then Z.shiftl 1 (be_width (cfg m)) - 1
            else Z.land (b_strb b) (Z.shiftl 1 (be_width (cfg m)) - 1)))
         (add_log Info
            (MsgWriteAddr (b_addr b) word_addr (from_bytes (b_data b))) m))
  else
    Ok (LReadSetup b word_addr)
       (add_log Info (MsgReadAddr (b_addr b) word_addr) m).
Proof.
  intros Hw Hr. unfold issue, bind, gets, modify, ret.
  destruct (wbytes (cfg m) =? 0) eqn:E0; [lia|].
  destruct ((b_addr b / wbytes (cfg m) <? 0)
            || (2 ^ address_width (cfg m) <=? b_addr b / wbytes (cfg m)))
    eqn:E.
  - apply orb_true_iff in E. lia.
  - cbv zeta. destruct (b_write b); reflexivity.
Qed.

(** C6: when the engine dequeues a beat whose word address (the byte
    address divided by the bus width in bytes) is negative or at least
    [2 ^ address_width], it raises the out-of-range error with the bus
    signals as they were: only the queue has lost the beat.  This holds at
    each of the three points the engine dequeues from.  A beat whose word
    address is in range never raises that error. *)
Theorem address_range_check (m : Master) (b : Beat) (rest : list Beat) :
  queue_tx m = b :: rest ->
  wbytes (cfg m) <> 0 ->
  let word_addr := b_addr b / wbytes (cfg m) in
  let e := AddressOutOfRange (b_addr b) word_addr in
  (word_addr < 0 \/ 2 ^ address_width (cfg m) <= word_addr ->
     run_loop m = Raised e (set_queue_tx rest m) /\
     bus (set_queue_tx rest m) = bus m /\
     (forall s, on_edge s (mkSys m LStart)
                = mkSys (set_queue_tx rest m) (LDead e)) /\
     on_wake (mkSys m LWaitWork) = mkSys (set_queue_tx rest m) (LDead e) /\
     (forall s, on_edge s (mkSys m LBeatEnd)
                = mkSys (set_queue_tx rest (set_sync true m)) (LDead e)) /\
     bus (set_queue_tx rest (set_sync true m)) = bus m) /\
  (0 <= word_addr < 2 ^ address_width (cfg m) ->
     raises is_out_of_range (run_loop m) = false).
Proof.
  intros Hq Hw word_addr e. split.
  - intros Hr.
    assert (Hrun : run_loop m = Raised e (set_queue_tx rest m)).
    { rewrite (run_loop_cons m b rest Hq).
      now rewrite issue_out_of_range. }
    repeat split.
    + exact Hrun.
    + intros s. unfold on_edge. cbn [eng mst engine_edge]. now rewrite Hrun.
    + unfold on_wake. cbn [eng mst engine_wake]. now rewrite Hrun.
    + intros s. unfold on_edge. cbn [eng mst engine_edge].
      unfold bind, modify.
      rewrite (run_loop_cons (set_sync true m) b rest Hq).
      now rewrite issue_out_of_range.
  - intros Hr. rewrite (run_loop_cons m b rest Hq).
    rewrite issue_in_range by assumption.
    cbv zeta. destruct (b_write b); reflexivity.
Qed.

Lemma address_range_check_witness :
  on_edge busy_sample
    (mkSys (set_queue_tx [mkBeat true 262144 [] (-1) false 1] (init cfg32))
           LStart)
  = mkSys (set_queue_tx [] (set_queue_tx [mkBeat true 262144 [] (-1) false 1]
                                         (init cfg32)))
          (LDead (AddressOutOfRange 262144 65536)).
Proof.
  pose proof (address_range_check
                (set_queue_tx [mkBeat true 262144 [] (-1) false 1]
                              (init cfg32))
                (mkBeat true 262144 [] (-1) false 1) []
                eq_refl ltac:(discriminate)) as H.
  cbv zeta in H. destruct H as [H _].
  destruct (H ltac:(right; cbn; lia)) as (_ & _ & Hs & _).
  exact (Hs busy_sample).
Defined.

(** ** Capture and verification of read data *)

Lemma read_capture_spec b s m :
  read_capture b s m =
  let r := readdata s in
  let m1 := add_log Info (MsgValueRead r) m in
  if match b_data b with
     | [] => true
     | _ :: _ => from_bytes (b_data b) =? r
     end
  then
    match to_bytes (rbytes (cfg m)) r with
    | Some bs =>
        Ok LBeatEnd (set_queue_rx (queue_rx m ++ [(bs, b_id b)]) m1)
    | None => Raised OverflowError m1
    end
  else Raised (VerificationMismatch (from_bytes (b_data b)) r) m1.
Proof.
  unfold read_capture, bind, modify, gets, ret, raise, py_to_bytes.
  cbv zeta.
  destruct (b_data b) as [|x l];
    [|destruct (from_bytes (x :: l) =? readdata s)]; cbn;
    try reflexivity;
    destruct (to_bytes (rbytes (cfg m)) (readdata s)); reflexivity.
Qed.

Lemma read_complete_spec b s m :
  read_complete b s m =
  let mr := set_bus (fun o =>
    mkBusOut 0 (bus_write o) 0 (bus_writedata o) (bus_byteenable o)) m in
  let ee := b_error_expected b in
  let e := read_violation ee (response s) in
  if contract_ok ee (response s) then read_capture b s mr
  else if exception_enabled m then
    Raised e (add_log Critical (MsgExn e) (set_exception_occurred true mr))
  else
    read_capture b s
      (add_log Warning (MsgExn e) (set_exception_occurred true mr)).
Proof.
  unfold read_complete, bind, modify.
  rewrite read_check_response_spec. cbv zeta.
  destruct (contract_ok (b_error_expected b) (response s)); [reflexivity|].
  cbn [exception_enabled set_bus].
  destruct (exception_enabled m); reflexivity.
Qed.

(** C7: for a completed read beat with a non-empty expected payload: if the
    value on [readdata] differs from the expected one the engine raises,
    whether or not [exception_enabled] is set, and delivers nothing (the
    exception is the verification mismatch unless the response contract
    raised first); if it is the expected value, the response contract
    holds or exceptions are disabled, and the value fits the read data
    width, the beat completes and its data is appended to the response
    queue as [rbytes] little-endian bytes under the beat's id. *)
Theorem read_verification (m : Master) (b : Beat) (s : Sample) :
  b_data b <> [] ->
  let expected := from_bytes (b_data b) in
  (expected <> readdata s ->
     (exists e m', read_complete b s m = Raised e m' /\
                   queue_rx m' = queue_rx m) /\
     (contract_ok (b_error_expected b) (response s) = true \/
      exception_enabled m = false ->
      exists m', read_complete b s m
                 = Raised (VerificationMismatch expected (readdata s)) m')) /\
  (expected = readdata s ->
   rwidth (cfg m) = 8 * rbytes (cfg m) -> 0 <= rbytes (cfg m) ->
   readdata s < 2 ^ rwidth (cfg m) ->
   contract_ok (b_error_expected b) (response s) = true \/
   exception_enabled m = false ->
   let bs := le_bytes (Z.to_nat (rbytes (cfg m))) (readdata s) in
   exists m',
     read_complete b s m = Ok LBeatEnd m' /\
     queue_rx m' = queue_rx m ++ [(bs, b_id b)] /\
     from_bytes bs = readdata s /\
     Z.of_nat (length bs) = rbytes (cfg m)).
Proof.
  intros Hne expected.
  rewrite read_complete_spec. cbv zeta.
  assert (Hcap : forall x,
    read_capture b s x =
    if expected =? readdata s then
      match to_bytes (rbytes (cfg x)) (readdata s) with
      | Some bs =>
          Ok LBeatEnd (set_queue_rx (queue_rx x ++ [(bs, b_id b)])
                         (add_log Info (MsgValueRead (readdata s)) x))
      | None =>
          Raised OverflowError (add_log Info (MsgValueRead (readdata s)) x)
      end
    else Raised (VerificationMismatch expected (readdata s))
           (add_log Info (MsgValueRead (readdata s)) x)).
  { intros x. rewrite read_capture_spec. cbv zeta. fold expected.
    destruct (b_data b); [congruence|reflexivity]. }
  rewrite !Hcap. split.
  - intros Hd. apply Z.eqb_neq in Hd. rewrite Hd. split.
    + destruct (contract_ok _ _); [|destruct (exception_enabled m)];
        eexists; eexists; (split; [reflexivity|reflexivity]).
    + intros [Hc|He]; [rewrite Hc|rewrite He];
        [|destruct (contract_ok _ _)]; eexists; reflexivity.
  - intros Heq H8 Hb Hlt Hok.
    set (bs := le_bytes (Z.to_nat (rbytes (cfg m))) (readdata s)).
    assert (H0 : 0 <= readdata s)
      by (rewrite <- Heq; apply from_bytes_range).
    apply Z.eqb_eq in Heq. rewrite Heq.
    cbn [cfg set_bus add_log set_exception_occurred].
    rewrite to_bytes_fits by (rewrite <- H8; lia). fold bs.
    assert (Hbs : from_bytes bs = readdata s /\
                  Z.of_nat (length bs) = rbytes (cfg m)).
    { unfold bs. rewrite from_bytes_le_bytes, length_le_bytes.
      rewrite Z2Nat.id by lia. split; [|reflexivity].
      rewrite <- H8. apply Z.mod_small. lia. }
    destruct Hok as [Hc|He]; [rewrite Hc|rewrite He];
      [|destruct (contract_ok _ _)];
      eexists; (split; [reflexivity|split; [reflexivity|exact Hbs]]).
Qed.

Lemma read_verification_witness :
  exists m',
    read_complete (mkBeat false 32 (le_bytes 4 305419896) (-1) false 1)
      (ok_sample 305419896) (init cfg32) = Ok LBeatEnd m' /\
    queue_rx m' = [(["x"; "V"; "4"; "018"]%byte, 1)].
Proof.
  pose proof (read_verification (init cfg32)
                (mkBeat false 32 (le_bytes 4 305419896) (-1) false 1)
                (ok_sample 305419896) ltac:(discriminate)) as H.
  cbv zeta in H. destruct H as [_ H].
  destruct (H eq_refl eq_refl ltac:(discriminate) eq_refl
              (or_introl eq_refl)) as (m' & Hr & Hq & _).
  exists m'. split; [exact Hr|exact Hq].
Defined.

(** ** Read beats: byte addresses and word addresses *)

Lemma for_each_enqueue_run w addr_of data_of strb ee xs m :
  Forall (fun i => data_of i <> None) xs ->
  for_each (fun i =>
      datab <- match data_of i with
               | Some d => ret d
               | None => raise OverflowError
               end ;;
      enqueue w (addr_of i) datab strb ee) xs m
  = Ok tt (set_queue_tx
             (queue_tx m ++ loop_beats w addr_of data_of strb ee (tx_id m) xs)
             (set_tx_id (tx_id m + Z.of_nat (length xs)) m)).
Proof.
  intros Hall.
  destruct (for_each_enqueue_ok w addr_of data_of strb ee xs m Hall)
    as [m' Hm'].
  pose proof (for_each_enqueue_final w addr_of data_of strb ee xs m) as Hf.
  rewrite Hm' in *. cbn [final] in Hf. unfold appended in Hf.
  rewrite (loop_beats_length w addr_of data_of strb ee xs (tx_id m) Hall)
    in Hf.
  now rewrite Hf.
Qed.

Lemma read_nowait_int_run addr v ee m :
  byte_wide (cfg m) ->
  let c := cfg m in
  let n := Z.max 1 (ceil_div (bit_length v) (rwidth c)) in
  let beats := loop_beats false (fun i => addr + i * rbytes c)
                 (read_data c (PInt v)) (-1) ee (tx_id m) (range n) in
  read_nowait addr (PInt v) ee m
  = Ok (tx_id m + n)
      (set_idle false (set_sync true
         (set_queue_tx (queue_tx m ++ beats) (set_tx_id (tx_id m + n) m)))).
Proof.
  intros Hc c n beats.
  assert (Hw : 0 < rwidth c) by (destruct Hc as (_ & _ & Hr & _); exact Hr).
  pose proof (bit_length_nonneg v) as HL.
  assert (Hn : 1 <= n) by (unfold n; lia).
  assert (Hnum : (if 0 <? bit_length v
                  then py_ceil_div (bit_length v) (rwidth (cfg m))
                  else ret 1) m = Ok n m).
  { unfold n. rewrite <- num_beats_max by lia.
    unfold py_ceil_div. fold c.
    destruct (rwidth c =? 0) eqn:E0; [lia|]. now destruct (0 <? bit_length v). }
  pose proof (for_each_enqueue_run false (fun i => addr + i * rbytes c)
                (read_data c (PInt v)) (-1) ee (range n) m) as Hrun.
  unfold read_nowait. unfold bind at 1. unfold gets at 1.
  unfold bind at 1. rewrite Hnum. unfold bind at 1. fold c.
  match goal with
  | |- context [for_each ?f ?xs m] =>
      change (for_each f xs m) with
        (for_each (fun i =>
           datab <- match read_data c (PInt v) i with
                    | Some d => ret d
                    | None => raise OverflowError
                    end ;;
           enqueue false (addr + i * rbytes c) datab (-1) ee) (range n) m)
  end.
  rewrite Hrun
    by (apply Forall_forall; intros; now apply read_data_some).
  rewrite range_length by lia. reflexivity.
Qed.

(** C10: the word address the engine drives for a read beat is the beat's
    byte address divided by [wbytes], the write data width in bytes, while
    the byte addresses [read_nowait] gives the beats of an integer
    expected value advance by [rbytes], the read data width in bytes. *)
Theorem read_word_address_uses_wbytes (m : Master) :
  (forall b rest s1 s2,
     queue_tx m = b :: rest -> b_write b = false ->
     wbytes (cfg m) <> 0 ->
     0 <= b_addr b / wbytes (cfg m) < 2 ^ address_width (cfg m) ->
     let y := on_edges [s1; s2] (mkSys m LStart) in
     eng y = LReadIssued b /\
     bus_read (bus (mst y)) = 1 /\
     bus_address (bus (mst y)) = b_addr b / wbytes (cfg m)) /\
  (forall addr v ee,
     byte_wide (cfg m) ->
     exists beats id m',
       read_nowait addr (PInt v) ee m = Ok id m' /\
       queue_tx m' = queue_tx m ++ beats /\
       Z.of_nat (length beats)
       = Z.max 1 (ceil_div (bit_length v) (rwidth (cfg m))) /\
       forall i b, nth_error beats i = Some b ->
         b_write b = false /\
         b_addr b = addr + Z.of_nat i * rbytes (cfg m)).
Proof.
  split.
  - intros b rest s1 s2 Hq Hr Hw Hrange y. unfold y. clear y.
    cbn [on_edges]. unfold on_edge. cbn [eng mst engine_edge].
    rewrite (run_loop_cons m b rest Hq).
    rewrite issue_in_range by assumption.
    cbv zeta. rewrite Hr. cbn. auto.
  - intros addr v ee Hc.
    pose proof (read_nowait_int_run addr v ee m Hc) as Hrun.
    cbv zeta in Hrun.
    set (n := Z.max 1 (ceil_div (bit_length v) (rwidth (cfg m)))) in *.
    assert (Hall : Forall (fun i => read_data (cfg m) (PInt v) i <> None)
                     (range n))
      by (apply Forall_forall; intros; now apply read_data_some).
    eexists. eexists. eexists. split; [exact Hrun|].
    split; [reflexivity|]. split.
    + rewrite loop_beats_length by exact Hall.
      apply range_length. unfold n. lia.
    + intros i b Hi.
      assert (Hlt : (i < length (range n))%nat).
      { rewrite <- (loop_beats_length false
                      (fun j => addr + j * rbytes (cfg m))
                      (read_data (cfg m) (PInt v)) (-1) ee (range n)
                      (tx_id m) Hall).
        apply nth_error_Some. congruence. }
      assert (Hx : nth_error (range n) i = Some (Z.of_nat i)).
      { unfold range in *. rewrite length_map, length_seq in Hlt.
        rewrite nth_error_map, nth_error_seq.
        apply Nat.ltb_lt in Hlt. rewrite Hlt. reflexivity. }
      destruct (loop_beats_nth false (fun j => addr + j * rbytes (cfg m))
                  (read_data (cfg m) (PInt v)) (-1) ee (range n)
                  (tx_id m) i (Z.of_nat i) Hall Hx) as (d & _ & Hb).
      rewrite Hb in Hi. injection Hi as <-. cbn. auto.
Qed.

Lemma read_word_address_uses_wbytes_witness :
  let y0 := act (AReadNowait 0 (PInt (2 ^ 64)) false) (start cfg_r64_w32) in
  map b_addr (queue_tx (mst y0)) = [0; 8] /\
  bus_address (bus (mst (on_edges [busy_sample; busy_sample] y0))) = 0 /\
  bus_address
    (bus (mst (on_edges [busy_sample; busy_sample]
                 (mkSys (set_queue_tx (tl (queue_tx (mst y0))) (mst y0))
                        LStart)))) = 2.
Proof.
  cbv zeta. split; [reflexivity|]. split; [reflexivity|].
  destruct (read_word_address_uses_wbytes
              (set_queue_tx
                 (tl (queue_tx (mst (act (AReadNowait 0 (PInt (2 ^ 64)) false)
                                         (start cfg_r64_w32)))))
                 (mst (act (AReadNowait 0 (PInt (2 ^ 64)) false)
                           (start cfg_r64_w32)))))
    as [H _].
  specialize (H (mkBeat false 8 (le_bytes 8 1) (-1) false 2) []
                busy_sample busy_sample eq_refl eq_refl
                ltac:(discriminate)
                ltac:(vm_compute; split; [discriminate|reflexivity])).
  cbv zeta in H. destruct H as (_ & _ & H). exact H.
Defined.

(** ** What the engine may change *)

Ltac break_match :=
  match goal with
  | |- context [match ?x with _ => _ end] =>
      lazymatch x with
      | context [match _ with _ => _ end] => fail
      | _ => destruct x eqn:?
      end
  end.

Ltac unfold_engine :=
  unfold run_loop, issue, write_wait_accept, write_wait_response,
    write_complete, read_wait_accept, read_wait_response, read_complete,
    read_capture, write_check_response, read_check_response, critical,
    py_to_bytes, bind, modify, gets, ret, raise in *.

Ltac frame_solve :=
  repeat split; cbn; intros;
  try match goal with
      | Hq : queue_tx _ = _ |- _ => rewrite Hq in *
      end;
  repeat match goal with
         | H : Some _ = Some _ |- _ => injection H as H; subst
         | H : None = Some _ |- _ => discriminate H
         | H : In _ (_ ++ [_]) |- _ =>
             apply in_app_or in H; destruct H as [H|[H|[]]]; subst
         end;
  cbn; eauto using in_cons, in_eq.

Lemma run_loop_frame m l : engine_frame m l (settle (run_loop m)).
Proof.
  unfold engine_frame. unfold_engine.
  destruct (queue_tx m) as [|b rest] eqn:Hq; repeat break_match;
    frame_solve.
Qed.

Lemma engine_edge_frame s l m :
  engine_frame m l (settle (engine_edge s l m)).
Proof.
  destruct l; cbn [engine_edge];
    lazymatch goal with
    | |- engine_frame _ LStart _ => apply run_loop_frame
    | |- engine_frame _ LBeatEnd _ =>
        (* [sync] is set, then the loop head runs *)
        unfold bind, modify;
        destruct (run_loop_frame (set_sync true m) LBeatEnd)
          as (H1 & H2 & H3 & H4 & H5);
        unfold engine_frame; cbn in *; repeat split; auto
    | _ =>
        unfold engine_frame; unfold_engine; repeat break_match;
        frame_solve
    end.
Qed.

Lemma engine_wake_frame l m :
  engine_frame m l (settle (engine_wake l m)).
Proof.
  destruct l; cbn [engine_wake]; try apply run_loop_frame;
    unfold engine_frame, ret; frame_solve.
Qed.

(** ** What one action may change *)

Lemma ids_after_bounds id0 n x :
  In x (ids_after id0 n) -> id0 < x <= id0 + Z.of_nat n.
Proof.
  unfold ids_after. rewrite in_map_iff. intros (k & <- & Hk).
  apply in_seq in Hk. lia.
Qed.

Lemma appended_ids m beats mq b :
  appended m beats mq ->
  map b_id beats = ids_after (tx_id m) (length beats) ->
  In b (queue_tx mq) ->
  In b (queue_tx m) \/ tx_id m < b_id b <= tx_id mq.
Proof.
  intros -> Hids Hin. cbn in *.
  apply in_app_or in Hin. destruct Hin as [Hin|Hin]; [now left|right].
  apply ids_after_bounds. rewrite <- Hids. now apply in_map.
Qed.

Lemma rx_scan_incl rx_id q e : In e (snd (rx_scan rx_id q)) -> In e q.
Proof.
  induction q as [|[r t] q IH]; cbn; [auto|].
  destruct (rx_id =? t); cbn; auto.
Qed.

Lemma read_search_final rx_id m :
  final (read_search rx_id m)
  = set_queue_rx (snd (rx_scan rx_id (queue_rx m))) m.
Proof.
  unfold read_search, bind, gets, modify, ret.
  destruct (fst (rx_scan rx_id (queue_rx m))); reflexivity.
Qed.

Lemma engine_action_frame y y' :
  engine_frame (mst y) (eng y) y' -> action_frame y y'.
Proof.
  intros (H1 & H2 & H3 & H4 & H5). unfold action_frame.
  repeat split; auto; lia.
Qed.

Lemma act_frame a y : action_frame y (act a y).
Proof.
  destruct a as [s| |addr data strb ee|addr data ee| |rx_id|v|];
    cbn [act].
  - apply engine_action_frame. apply engine_edge_frame.
  - destruct (sync (mst y)).
    + apply engine_action_frame. apply engine_wake_frame.
    + unfold action_frame. repeat split; auto; lia.
  - destruct (write_nowait_frame addr data strb ee (mst y))
      as (beats & mq & Ha & Hids & [Hr|[[e Hr] _]]);
      unfold on_master; rewrite Hr; cbn [final];
      pose proof (fun b => appended_ids _ _ _ b Ha Hids) as Hq;
      unfold appended in Ha; subst mq; unfold action_frame; cbn in *;
      repeat split; auto; lia.
  - destruct (read_nowait_frame addr data ee (mst y))
      as (beats & mq & Ha & Hids & [[Hr _]|[[e Hr] _]]);
      unfold on_master; rewrite Hr; cbn [final];
      pose proof (fun b => appended_ids _ _ _ b Ha Hids) as Hq;
      unfold appended in Ha; subst mq; unfold action_frame; cbn in *;
      repeat split; auto; lia.
  - unfold action_frame. cbn. repeat split; intros; auto; try lia;
      contradiction.
  - unfold action_frame, on_master. rewrite read_search_final. cbn.
    repeat split; intros; auto; try lia.
    left. eapply rx_scan_incl. eassumption.
  - unfold action_frame. cbn. repeat split; intros; auto; lia.
  - unfold action_frame. cbn. repeat split; intros; auto; try lia;
      discriminate.
Qed.

Lemma ids_bounded_step a y : ids_bounded y -> ids_bounded (act a y).
Proof.
  intros [Hq Hf]. destruct (act_frame a y) as (_ & Ht & Fq & Ff & _).
  split.
  - intros b Hb. destruct (Fq b Hb) as [Hin|Hnew]; [|lia].
    specialize (Hq b Hin). lia.
  - intros b Hb. destruct (Ff b Hb) as [Hin|Hin].
    + specialize (Hf b Hin). lia.
    + specialize (Hq b Hin). lia.
Qed.

Lemma ids_bounded_run acts : forall y,
  ids_bounded y -> ids_bounded (run acts y).
Proof.
  induction acts as [|a acts IH]; intros y Hy; cbn; auto.
  apply IH. now apply ids_bounded_step.
Qed.

Lemma ids_bounded_start c : ids_bounded (start c).
Proof. split; cbn; [intros ? []|discriminate]. Qed.

Lemma absent_step k a y : absent k y -> absent k (act a y).
Proof.
  intros (Hk & Hq & Hf & Hr).
  destruct (act_frame a y) as (_ & Ht & Fq & Ff & Fr).
  repeat split.
  - lia.
  - intros b Hb. destruct (Fq b Hb) as [Hin|Hnew]; [auto|lia].
  - intros b Hb. destruct (Ff b Hb) as [Hin|Hin]; [auto|].
    specialize (Hq b Hin). lia.
  - intros e He. destruct (Fr e He) as [Hin|(b & Hb & ->)]; auto.
Qed.

Lemma absent_run k acts : forall y, absent k y -> absent k (run acts y).
Proof.
  induction acts as [|a acts IH]; intros y Hy; cbn; auto.
  apply IH. now apply absent_step.
Qed.

Lemma cfg_run acts : forall y, cfg (mst (run acts y)) = cfg (mst y).
Proof.
  induction acts as [|a acts IH]; intros y; cbn; auto.
  rewrite IH. now destruct (act_frame a y) as (Hc & _).
Qed.

(** ** Beat ids *)

Lemma ids_after_sorted id0 n : StronglySorted Z.lt (ids_after id0 n).
Proof.
  unfold ids_after. generalize 0%nat as k.
  induction n as [|n IH]; intros k; cbn [seq map]; constructor.
  - apply IH.
  - apply Forall_forall. intros x Hx. apply in_map_iff in Hx.
    destruct Hx as (j & <- & Hj). apply in_seq in Hj. lia.
Qed.

Lemma sorted_app (xs ys : list Z) :
  StronglySorted Z.lt xs -> StronglySorted Z.lt ys ->
  (forall x y, In x xs -> In y ys -> x < y) ->
  StronglySorted Z.lt (xs ++ ys).
Proof.
  intros Hx Hy Hlt. induction Hx as [|x xs Hs IH Hall]; cbn; [exact Hy|].
  constructor.
  - apply IH. intros a b Ha Hb. apply Hlt; [now right|exact Hb].
  - apply Forall_app. split; [exact Hall|].
    apply Forall_forall. intros b Hb. apply Hlt; [now left|exact Hb].
Qed.

Lemma sorted_nodup (xs : list Z) : StronglySorted Z.lt xs -> NoDup xs.
Proof.
  induction 1 as [|x xs Hs IH Hall]; constructor; [|exact IH].
  intros Hin. rewrite Forall_forall in Hall. specialize (Hall x Hin). lia.
Qed.

Lemma skipn_app_exact {A} (xs ys : list A) :
  skipn (length xs) (xs ++ ys) = ys.
Proof. induction xs; cbn; auto. Qed.

(** The ids one action hands out are the next ones after the counter,
    which it advances past them. *)
Lemma assigned_next a y :
  exists n,
    assigned a y = ids_after (tx_id (mst y)) n /\
    tx_id (mst (act a y)) = tx_id (mst y) + Z.of_nat n.
Proof.
  destruct a as [s| |addr data strb ee|addr data ee| |rx_id|v|];
    cbn [assigned].
  - exists 0%nat. split; [reflexivity|]. cbn [act].
    destruct (engine_edge_frame s (eng y) (mst y)) as (_ & Ht & _).
    unfold on_edge. lia.
  - exists 0%nat. split; [reflexivity|]. cbn [act].
    destruct (sync (mst y)); [|lia].
    destruct (engine_wake_frame (eng y) (mst y)) as (_ & Ht & _).
    unfold on_wake. lia.
  - cbn [act]. unfold on_master. cbn [mst].
    destruct (write_nowait_frame addr data strb ee (mst y))
      as (beats & mq & Ha & Hids & [Hr|[[e Hr] _]]);
      rewrite Hr; cbn [final]; unfold appended in Ha; subst mq; cbn;
      rewrite skipn_app_exact; exists (length beats); auto.
  - cbn [act]. unfold on_master. cbn [mst].
    destruct (read_nowait_frame addr data ee (mst y))
      as (beats & mq & Ha & Hids & [[Hr _]|[[e Hr] _]]);
      rewrite Hr; cbn [final]; unfold appended in Ha; subst mq; cbn;
      rewrite skipn_app_exact; exists (length beats); auto.
  - exists 0%nat. cbn. split; [reflexivity|lia].
  - exists 0%nat. cbn [act]. unfold on_master. rewrite read_search_final.
    cbn. split; [reflexivity|lia].
  - exists 0%nat. cbn. split; [reflexivity|lia].
  - exists 0%nat. cbn. split; [reflexivity|lia].
Qed.

Lemma assigned_ids_sorted acts : forall y,
  StronglySorted Z.lt (assigned_ids acts y) /\
  Forall (fun i => tx_id (mst y) < i) (assigned_ids acts y).
Proof.
  induction acts as [|a acts IH]; intros y; cbn [assigned_ids].
  - split; constructor.
  - destruct (IH (act a y)) as [Hs Hb].
    destruct (assigned_next a y) as (n & Ha & Ht).
    rewrite Ha. rewrite Forall_forall in Hb. split.
    + apply sorted_app; [apply ids_after_sorted|exact Hs|].
      intros i j Hi Hj. apply ids_after_bounds in Hi.
      specialize (Hb j Hj). lia.
    + apply Forall_app. split; apply Forall_forall; intros i Hi.
      * apply ids_after_bounds in Hi. lia.
      * specialize (Hb i Hi). lia.
Qed.

(** C9: over any sequence of actions on a driver, the calls of
    [write_nowait] and [read_nowait] among them interleaved with [clear]
    and with the engine's steps, the ids given to the beats enqueued are
    strictly increasing in the order they are given, start above the
    counter, and none is given twice. *)
Theorem beat_ids_strictly_increasing (acts : list action) (y : Sys) :
  StronglySorted Z.lt (assigned_ids acts y) /\
  NoDup (assigned_ids acts y) /\
  Forall (fun i => tx_id (mst y) < i) (assigned_ids acts y).
Proof.
  destruct (assigned_ids_sorted acts y) as [Hs Hb].
  repeat split; [exact Hs| |exact Hb]. now apply sorted_nodup.
Qed.

(** ** [clear] *)

Lemma clear_spec m :
  clear m = Ok tt (set_queue_rx [] (set_queue_tx [] m)).
Proof. reflexivity. Qed.

Lemma reachable_ids_bounded c acts : ids_bounded (run acts (start c)).
Proof. apply ids_bounded_run, ids_bounded_start. Qed.

Lemma reachable_cfg c acts : cfg (mst (run acts (start c))) = c.
Proof. now rewrite cfg_run. Qed.

(** On a byte-wide bus [read_nowait] returns, with an id above the
    counter it found. *)
Lemma read_nowait_returns addr data ee m :
  byte_wide (cfg m) ->
  exists mq,
    read_nowait addr data ee m
      = Ok (tx_id mq) (set_idle false (set_sync true mq)) /\
    tx_id m < tx_id mq /\
    bus mq = bus m /\ queue_rx mq = queue_rx m /\
    (exists beats, beats <> [] /\ queue_tx mq = queue_tx m ++ beats /\
       tx_id mq = tx_id m + Z.of_nat (length beats) /\
       map b_id beats = ids_after (tx_id m) (length beats)).
Proof.
  intros Hbw.
  destruct (read_nowait_frame addr data ee m)
    as (beats & mq & Ha & Hids & [[Hr Hne]|[_ Hn]]); [|contradiction].
  exists mq. split; [exact Hr|].
  assert (Hb : beats <> []) by (apply Hne; destruct Hbw as (_ & _ & ? & _); lia).
  unfold appended in Ha. subst mq. cbn.
  repeat split; auto.
  - destruct beats; [congruence|]. cbn [length]. lia.
  - exists beats. auto.
Qed.

(** C8: [clear] returns on every object, leaves both queues empty and the
    bus signals as they were.  On a byte-wide bus, in any state the driver
    can reach, [read_nowait] followed by [clear] before the engine runs
    again leaves nothing of the call behind: whatever happens afterwards,
    no entry with the id [read_nowait] returned is ever in the response
    queue, no beat with that id is queued or in flight, and an engine
    waiting for work finds the queue empty and goes back to waiting
    without raising. *)
Theorem clear_drops_work (c : Config) (acts : list action)
    (addr : Z) (data : Payload) (ee : bool) :
  byte_wide c ->
  (forall m, exists m',
     clear m = Ok tt m' /\
     queue_tx m' = [] /\ queue_rx m' = [] /\ bus m' = bus m) /\
  let y := run acts (start c) in
  exists id m1,
    read_nowait addr data ee (mst y) = Ok id m1 /\
    let y2 := act AClear (act (AReadNowait addr data ee) y) in
    mst y2 = set_queue_rx [] (set_queue_tx [] m1) /\
    eng y2 = eng y /\
    bus (mst y2) = bus (mst y) /\
    run_loop (mst y2)
      = Ok LWaitWork (set_sync false (set_idle true (mst y2))) /\
    forall acts',
      let y3 := run acts' y2 in
      (forall e, In e (queue_rx (mst y3)) -> snd e <> id) /\
      (forall b, In b (queue_tx (mst y3)) -> b_id b <> id) /\
      (forall b, in_flight (eng y3) = Some b -> b_id b <> id).
Proof.
  intros Hbw. split.
  - intros m. eexists. rewrite clear_spec. repeat split.
  - cbv zeta.
    pose proof (reachable_ids_bounded c acts) as [_ Hf].
    pose proof (reachable_cfg c acts) as Hc.
    set (y := run acts (start c)) in *.
    destruct (read_nowait_returns addr data ee (mst y))
      as (mq & Hr & Hlt & Hbus & _); [now rewrite Hc|].
    exists (tx_id mq), (set_idle false (set_sync true mq)).
    split; [exact Hr|].
    cbn [act]. unfold on_master. cbn [mst eng]. rewrite Hr.
    cbn [final]. rewrite clear_spec. cbn [final].
    split; [reflexivity|]. split; [reflexivity|].
    split; [exact Hbus|].
    split; [now apply run_loop_nil|].
    intros acts'.
    set (y2 := mkSys _ (eng y)).
    assert (Habs : absent (tx_id mq) y2).
    { unfold absent, y2. cbn. repeat split.
      - lia.
      - intros b [].
      - intros b Hb. specialize (Hf b Hb). lia.
      - intros e []. }
    destruct (absent_run (tx_id mq) acts' y2 Habs) as (_ & Hq & Hfl & Hrx).
    repeat split; auto.
    intros b Hb. specialize (Hq b Hb). lia.
Qed.

Lemma clear_drops_work_witness :
  byte_wide cfg32 /\
  forall e,
    In e (queue_rx (mst (run [AEdge busy_sample; AWake; AEdge (ok_sample 7)]
            (act AClear (act (AReadNowait 32 (PBytes []) false)
               (run [AEdge busy_sample] (start cfg32))))))) ->
    snd e <> 1.
Proof.
  assert (Hbw : byte_wide cfg32) by (cbv; repeat split; discriminate).
  split; [exact Hbw|].
  destruct (clear_drops_work cfg32 [AEdge busy_sample] 32 (PBytes []) false Hbw)
    as (_ & id & m1 & Hr & _ & _ & _ & _ & Hfut).
  assert (Hid : id = 1) by (vm_compute in Hr; congruence).
  subst id.
  exact (proj1 (Hfut [AEdge busy_sample; AWake; AEdge (ok_sample 7)])).
Defined.

(** ** The [_idle] event *)

Lemma run_loop_idle m l :
  in_flight l = None -> idle_frame m l (settle (run_loop m)).
Proof.
  intros Hl. unfold idle_frame.
  destruct (queue_tx m) as [|b rest] eqn:Hq.
  - right; left. rewrite run_loop_nil by exact Hq. cbn. auto.
  - right; right. rewrite (run_loop_cons _ _ _ Hq).
    unfold_engine. repeat break_match; cbn; repeat split; eauto.
Qed.

Lemma engine_edge_idle s l m :
  idle_frame m l (settle (engine_edge s l m)).
Proof.
  destruct l; cbn [engine_edge];
    lazymatch goal with
    | |- idle_frame _ LStart _ => now apply run_loop_idle
    | |- idle_frame _ LBeatEnd _ =>
        unfold bind, modify;
        destruct (run_loop_idle (set_sync true m) LBeatEnd eq_refl)
          as [H|[H|H]]; unfold idle_frame; cbn in *; tauto
    | _ =>
        left; unfold_engine; repeat break_match; cbn; auto
    end.
Qed.

Lemma engine_wake_idle l m :
  idle_frame m l (settle (engine_wake l m)).
Proof.
  destruct l; cbn [engine_wake]; try (now apply run_loop_idle);
    left; cbn; auto.
Qed.

Lemma idle_frame_sound m l y' :
  idle_frame m l y' -> idle_sound (mkSys m l) -> idle_sound y'.
Proof.
  unfold idle_sound. cbn.
  intros [(Hi & Hq & Hr)|[(_ & _ & Hq & _ & He)|(_ & [b Hq] & Hi & _)]] Hs Ht.
  - rewrite Hi in Ht. rewrite Hq, Hr. auto.
  - rewrite He. auto.
  - rewrite Hi in Ht. destruct (Hs Ht) as [Hn _]. congruence.
Qed.

(** An enqueueing call that returns leaves [_idle] clear; one that raises
    leaves it as it was. *)
Lemma enqueue_idle a y :
  is_enqueue a = true ->
  (byte_wide (cfg (mst y)) -> idle_ev (mst (act a y)) = false) /\
  (idle_ev (mst y) = false -> idle_ev (mst (act a y)) = false) /\
  eng (act a y) = eng y.
Proof.
  destruct a as [s| |addr data strb ee|addr data ee| |rx_id|v|];
    try discriminate; intros _; cbn [act]; unfold on_master; cbn [mst eng].
  - destruct (write_nowait_frame addr data strb ee (mst y))
      as (beats & mq & Ha & _ & [Hr|[[e Hr] Hn]]);
      rewrite Hr; cbn [final]; unfold appended in Ha; subst mq; cbn;
      repeat split; auto; intros; contradiction.
  - destruct (read_nowait_frame addr data ee (mst y))
      as (beats & mq & Ha & _ & [[Hr _]|[[e Hr] Hn]]);
      rewrite Hr; cbn [final]; unfold appended in Ha; subst mq; cbn;
      repeat split; auto; intros; contradiction.
Qed.

Lemma act_engine_idle a y :
  is_engine a = true ->
  act a y = y \/ idle_frame (mst y) (eng y) (act a y).
Proof.
  destruct a; try discriminate; intros _; cbn [act].
  - right. apply engine_edge_idle.
  - destruct (sync (mst y)); [right; apply engine_wake_idle|now left].
Qed.

Lemma act_other_idle a y :
  is_engine a = false -> is_enqueue a = false ->
  idle_ev (mst (act a y)) = idle_ev (mst y) /\
  (queue_tx (mst (act a y)) = queue_tx (mst y) \/
   queue_tx (mst (act a y)) = []) /\
  (eng (act a y) = eng y \/ eng (act a y) = LStart).
Proof.
  destruct a; try discriminate; intros _ _; cbn [act]; unfold on_master;
    try rewrite read_search_final; cbn; auto.
Qed.

Lemma idle_sound_step a y :
  byte_wide (cfg (mst y)) -> idle_sound y -> idle_sound (act a y).
Proof.
  intros Hbw Hs.
  destruct (is_engine a) eqn:He; [|destruct (is_enqueue a) eqn:Hq].
  - destruct (act_engine_idle a y He) as [->|Hf]; [exact Hs|].
    eapply idle_frame_sound; [exact Hf|]. now destruct y.
  - destruct (enqueue_idle a y Hq) as (Hc & _ & _).
    intros Ht. rewrite (Hc Hbw) in Ht. discriminate.
  - destruct (act_other_idle a y He Hq) as (Hi & Hqq & Hl).
    intros Ht. rewrite Hi in Ht. destruct (Hs Ht) as [Hn Hr].
    split.
    + destruct Hqq as [->| ->]; auto.
    + destruct Hl as [->| ->]; auto.
Qed.

Lemma idle_sound_run acts : forall y,
  byte_wide (cfg (mst y)) -> idle_sound y -> idle_sound (run acts y).
Proof.
  induction acts as [|a acts IH]; intros y Hbw Hs; cbn [run]; auto.
  apply IH.
  - destruct (act_frame a y) as (Hc & _). now rewrite Hc.
  - now apply idle_sound_step.
Qed.

Lemma idle_sound_start c : idle_sound (start c).
Proof. intros _. cbn. auto. Qed.

(** The head of the loop: with nothing queued the engine sets [_idle],
    clears [sync] and waits; otherwise it takes a beat and leaves both. *)
Lemma run_loop_sync m :
  (queue_tx m = [] /\
   settle (run_loop m)
   = mkSys (set_sync false (set_idle true m)) LWaitWork) \/
  (queue_tx m <> [] /\
   idle_ev (mst (settle (run_loop m))) = idle_ev m /\
   sync (mst (settle (run_loop m))) = sync m /\
   at_rest (eng (settle (run_loop m))) = false).
Proof.
  destruct (queue_tx m) as [|b rest] eqn:Hq.
  - left. split; [reflexivity|]. now rewrite run_loop_nil by exact Hq.
  - right. split; [discriminate|]. rewrite (run_loop_cons _ _ _ Hq).
    unfold_engine. repeat break_match; cbn; auto.
Qed.

Lemma at_rest_not_waiting l : at_rest l = false -> l <> LWaitWork.
Proof. intros H ->. discriminate. Qed.

Lemma engine_edge_sync s l m :
  sync_frame m l (settle (engine_edge s l m)).
Proof.
  destruct l; cbn [engine_edge];
    lazymatch goal with
    | |- sync_frame _ LStart _ =>
        destruct (run_loop_sync m) as [[Hq Hr]|(Hq & Hi & Hs & Hr)];
        [right; left; rewrite Hr; cbn; auto
        |left; repeat split; auto; intros He;
         now apply at_rest_not_waiting in Hr]
    | |- sync_frame _ LBeatEnd _ =>
        unfold bind, modify;
        destruct (run_loop_sync (set_sync true m))
          as [[Hq Hr]|(Hq & Hi & Hs & Hr)];
        [right; left; rewrite Hr; cbn in *; auto
        |right; right; cbn in *; auto]
    | _ =>
        left; unfold_engine; repeat break_match; cbn; repeat split; auto;
        intros; discriminate
    end.
Qed.

Lemma engine_wake_sync l m :
  sync_frame m l (settle (engine_wake l m)).
Proof.
  destruct l; cbn [engine_wake];
    try (left; cbn; repeat split; auto; intros; discriminate).
  destruct (run_loop_sync m) as [[Hq Hr]|(Hq & Hi & Hs & Hr)].
  - right; left. rewrite Hr. cbn. auto.
  - left; repeat split; auto; intros He;
      now apply at_rest_not_waiting in Hr.
Qed.

(** A call that returns leaves [sync] set and [_idle] clear; one that
    raises leaves both as they were. *)
Lemma enqueue_sync a y :
  is_enqueue a = true ->
  (idle_ev (mst (act a y)) = false /\ sync (mst (act a y)) = true) \/
  (idle_ev (mst (act a y)) = idle_ev (mst y) /\
   sync (mst (act a y)) = sync (mst y) /\
   ~ byte_wide (cfg (mst y))).
Proof.
  destruct a as [s| |addr data strb ee|addr data ee| |rx_id|v|];
    try discriminate; intros _; cbn [act]; unfold on_master; cbn [mst eng].
  - destruct (write_nowait_frame addr data strb ee (mst y))
      as (beats & mq & Ha & _ & [Hr|[[e Hr] Hn]]);
      rewrite Hr; cbn [final]; unfold appended in Ha; subst mq; cbn; auto.
  - destruct (read_nowait_frame addr data ee (mst y))
      as (beats & mq & Ha & _ & [[Hr _]|[[e Hr] Hn]]);
      rewrite Hr; cbn [final]; unfold appended in Ha; subst mq; cbn; auto.
Qed.

Lemma act_other_sync a y :
  is_engine a = false -> is_enqueue a = false ->
  sync (mst (act a y)) = sync (mst y).
Proof.
  destruct a; try discriminate; intros _ _; cbn [act]; unfold on_master;
    try rewrite read_search_final; reflexivity.
Qed.

Lemma idle_when_waiting_step a y :
  idle_when_waiting y -> idle_when_waiting (act a y).
Proof.
  unfold idle_when_waiting. intros Hy.
  destruct (is_enqueue a) eqn:Hq; [|destruct (is_engine a) eqn:He].
  - destruct (enqueue_idle a y Hq) as (_ & _ & Hl).
    destruct (enqueue_sync a y Hq) as [[_ Hs]|(Hi & Hs & _)].
    + intros _ Hf. congruence.
    + rewrite Hi, Hs, Hl. exact Hy.
  - destruct a; try discriminate; cbn [act].
    + unfold on_edge.
      destruct (engine_edge_sync s (eng y) (mst y))
        as [(Hi & Hs & Hl)|[(_ & _ & Hi & _)|(_ & _ & Hs & _)]].
      * intros Hw Hf. rewrite Hi. rewrite Hs in Hf. auto.
      * auto.
      * intros _ Hf. congruence.
    + destruct (sync (mst y)) eqn:Hsy; [|now rewrite Hsy].
      unfold on_wake.
      destruct (engine_wake_sync (eng y) (mst y))
        as [(Hi & Hs & Hl)|[(_ & _ & Hi & _)|(_ & _ & Hs & _)]].
      * intros _ Hf. congruence.
      * auto.
      * intros _ Hf. congruence.
  - destruct (act_other_idle a y He Hq) as (Hi & _ & Hl).
    rewrite Hi, (act_other_sync a y He Hq).
    destruct Hl as [-> | ->]; [exact Hy|discriminate].
Qed.

Lemma idle_when_waiting_run acts : forall y,
  idle_when_waiting y -> idle_when_waiting (run acts y).
Proof.
  induction acts as [|a acts IH]; intros y Hy; cbn [run]; auto.
  apply IH. now apply idle_when_waiting_step.
Qed.

Lemma idle_tracks_sync_step a y :
  byte_wide (cfg (mst y)) -> idle_sound y ->
  idle_tracks_sync y -> idle_tracks_sync (act a y).
Proof.
  unfold idle_tracks_sync. intros Hbw Hsound Hy.
  destruct (is_enqueue a) eqn:Hq; [|destruct (is_engine a) eqn:He].
  - destruct (enqueue_sync a y Hq) as [[Hi Hs]|(_ & _ & Hn)];
      [|contradiction].
    now rewrite Hi, Hs.
  - destruct a; try discriminate; cbn [act].
    + unfold on_edge.
      destruct (engine_edge_sync s (eng y) (mst y))
        as [(Hi & Hs & _)|[(_ & _ & Hi & Hs & _)|(Hl & Hi & Hs & _)]].
      * now rewrite Hi, Hs.
      * now rewrite Hi, Hs.
      * rewrite Hi, Hs. cbn.
        destruct (idle_ev (mst y)) eqn:E; [|reflexivity].
        destruct (Hsound E) as [_ Hr]. rewrite Hl in Hr. discriminate.
    + destruct (sync (mst y)) eqn:Hsy; [|now rewrite Hsy].
      unfold on_wake.
      destruct (engine_wake_sync (eng y) (mst y))
        as [(Hi & Hs & _)|[(_ & _ & Hi & Hs & _)|(Hl & Hi & Hs & _)]].
      * now rewrite Hi, Hs, Hsy.
      * now rewrite Hi, Hs.
      * rewrite Hi, Hs. cbn.
        destruct (idle_ev (mst y)) eqn:E; [|reflexivity].
        destruct (Hsound E) as [_ Hr]. rewrite Hl in Hr. discriminate.
  - destruct (act_other_idle a y He Hq) as (Hi & _).
    now rewrite Hi, (act_other_sync a y He Hq).
Qed.

Lemma idle_tracks_sync_run acts : forall y,
  byte_wide (cfg (mst y)) -> idle_sound y ->
  idle_tracks_sync y -> idle_tracks_sync (run acts y).
Proof.
  induction acts as [|a acts IH]; intros y Hbw Hs Hy; cbn [run]; auto.
  apply IH.
  - destruct (act_frame a y) as (Hc & _). now rewrite Hc.
  - now apply idle_sound_step.
  - now apply idle_tracks_sync_step.
Qed.

(** C2, as stated, fails in both directions.  After [read_nowait] and the
    four clock edges that carry its beat to completion, the engine has set
    [_idle] while the response is still in the response queue.  After
    [write_nowait] and one clock edge the engine has taken the beat: both
    queues are empty and [_idle] is clear. *)
Lemma idle_event_not_iff_queues_empty :
  let y1 := run [AReadNowait 32 (PBytes []) false;
                 AEdge busy_sample; AEdge busy_sample;
                 AEdge (ok_sample 7); AEdge busy_sample] (start cfg32) in
  let y2 := run [AWriteNowait 32 (PInt 7) (-1) false;
                 AEdge busy_sample] (start cfg32) in
  (idle_ev (mst y1) = true /\ queue_tx (mst y1) = [] /\
   queue_rx (mst y1) <> [] /\ idle (mst y1) = false) /\
  (idle_ev (mst y2) = false /\ queue_tx (mst y2) = [] /\
   queue_rx (mst y2) = [] /\ idle (mst y2) = true) /\
  ~ (idle_ev (mst y1) = true <->
     queue_tx (mst y1) = [] /\ queue_rx (mst y1) = []) /\
  ~ (idle_ev (mst y2) = true <->
     queue_tx (mst y2) = [] /\ queue_rx (mst y2) = []).
Proof.
  cbv zeta. repeat split; try (vm_compute; congruence).
  - vm_compute. intros [H _]. destruct (H eq_refl) as [_ Hrx]. discriminate.
  - vm_compute. intros [_ H]. specialize (H (conj eq_refl eq_refl)).
    discriminate.
Qed.

(** C2, amended: in every state the driver can reach, [_idle] is
    maintained from the transaction queue and the engine, never from the
    response queue.

    When it is set.  An engine that waits for work with [sync] clear has
    [_idle] set; and whenever the engine comes to the head of its loop
    with the transaction queue empty (on its first clock edge, on the
    edge after a beat, when woken) it sets [_idle] and waits for work.
    On a byte-wide bus [_idle] is set if and only if the transaction
    queue is empty, the engine holds no beat and [sync] is clear, and if
    and only if [sync] is clear.

    When it is clear.  Every enqueueing call that returns leaves it
    clear, and only the engine sets it again: an action that sets it is a
    resumption of the engine at the head of its loop, with no beat in
    flight and the transaction queue empty, after which the engine waits
    for work. *)
Theorem idle_event_tracks_engine (c : Config) (acts : list action) :
  let y := run acts (start c) in
  (eng y = LWaitWork -> sync (mst y) = false -> idle_ev (mst y) = true) /\
  (queue_tx (mst y) = [] ->
   (eng y = LStart \/ eng y = LBeatEnd ->
    forall s, idle_ev (mst (act (AEdge s) y)) = true /\
              eng (act (AEdge s) y) = LWaitWork) /\
   (eng y = LWaitWork ->
    idle_ev (mst (act AWake y)) = true /\
    eng (act AWake y) = LWaitWork)) /\
  (forall addr data strb ee m',
     write_nowait addr data strb ee (mst y) = Ok tt m' ->
     idle_ev m' = false) /\
  (forall addr data ee id m',
     read_nowait addr data ee (mst y) = Ok id m' ->
     idle_ev m' = false) /\
  (forall a,
     idle_ev (mst y) = false -> idle_ev (mst (act a y)) = true ->
     is_engine a = true /\
     in_flight (eng y) = None /\
     queue_tx (mst y) = [] /\
     queue_tx (mst (act a y)) = [] /\
     eng (act a y) = LWaitWork) /\
  (byte_wide c ->
   (idle_ev (mst y) = true <->
    queue_tx (mst y) = [] /\ at_rest (eng y) = true /\
    sync (mst y) = false) /\
   (idle_ev (mst y) = true <-> sync (mst y) = false) /\
   (idle_ev (mst y) = true ->
    queue_tx (mst y) = [] /\ at_rest (eng y) = true /\
    in_flight (eng y) = None) /\
   (forall a, is_enqueue a = true -> idle_ev (mst (act a y)) = false)).
Proof.
  cbv zeta.
  pose proof (reachable_cfg c acts) as Hc.
  assert (Hw : idle_when_waiting (run acts (start c))).
  { apply idle_when_waiting_run. unfold idle_when_waiting. cbn.
    discriminate. }
  set (y := run acts (start c)) in *.
  split; [exact Hw|]. split; [|split; [|split; [|split]]].
  - intros Hq. split.
    + intros Hl s. cbn [act]. unfold on_edge.
      destruct Hl as [Hl|Hl]; rewrite Hl; cbn [engine_edge].
      * rewrite run_loop_nil by exact Hq. cbn. auto.
      * unfold bind, modify. rewrite run_loop_nil by exact Hq. cbn. auto.
    + intros Hl. cbn [act]. destruct (sync (mst y)) eqn:Hsy.
      * unfold on_wake. rewrite Hl. cbn [engine_wake].
        rewrite run_loop_nil by exact Hq. cbn. auto.
      * split; [now apply Hw|exact Hl].
  - intros addr data strb ee m' Hr.
    destruct (write_nowait_frame addr data strb ee (mst y))
      as (beats & mq & _ & _ & [Hr'|[[e Hr'] _]]);
      rewrite Hr in Hr'; [|discriminate].
    injection Hr' as ->. reflexivity.
  - intros addr data ee id m' Hr.
    destruct (read_nowait_frame addr data ee (mst y))
      as (beats & mq & _ & _ & [[Hr' _]|[[e Hr'] _]]);
      rewrite Hr in Hr'; [|discriminate].
    injection Hr' as _ ->. reflexivity.
  - intros a Hf Ht.
    destruct (is_engine a) eqn:He.
    + destruct (act_engine_idle a y He)
        as [Heq|[(Hi & _)|[(Hl & Hq & Hq' & _ & Hwt)|(_ & _ & Hi & _)]]].
      * rewrite Heq in Ht. congruence.
      * congruence.
      * auto.
      * congruence.
    + destruct (is_enqueue a) eqn:Hq.
      * destruct (enqueue_idle a y Hq) as (_ & Hk & _).
        rewrite (Hk Hf) in Ht. discriminate.
      * destruct (act_other_idle a y He Hq) as (Hi & _). congruence.
  - intros Hbw.
    assert (Hs : idle_sound y).
    { apply idle_sound_run; [exact Hbw|apply idle_sound_start]. }
    assert (Hts : idle_tracks_sync y).
    { apply idle_tracks_sync_run;
        [exact Hbw|apply idle_sound_start|reflexivity]. }
    unfold idle_tracks_sync in Hts.
    assert (Hiff : idle_ev (mst y) = true <-> sync (mst y) = false).
    { rewrite Hts. destruct (sync (mst y)); cbn; split; congruence. }
    split; [|split; [exact Hiff|split]].
    + split.
      * intros Ht. destruct (Hs Ht) as [Hq Hr].
        repeat split; auto. now apply Hiff.
      * intros (_ & _ & Hsy). now apply Hiff.
    + intros Ht. destruct (Hs Ht) as [Hq Hr]. repeat split; auto.
      destruct (eng y); cbn in *; congruence.
    + intros a Ha. destruct (enqueue_idle a y Ha) as (Hclr & _).
      apply Hclr. now rewrite Hc.
Qed.

Lemma idle_event_tracks_engine_witness :
  byte_wide cfg32 /\
  let y := run [AReadNowait 32 (PBytes []) false;
                AEdge busy_sample; AEdge busy_sample;
                AEdge (ok_sample 7); AEdge busy_sample] (start cfg32) in
  (idle_ev (mst y) = true <->
   queue_tx (mst y) = [] /\ at_rest (eng y) = true /\
   sync (mst y) = false) /\
  (idle_ev (mst y) = true <-> sync (mst y) = false) /\
  (idle_ev (mst y) = true ->
   queue_tx (mst y) = [] /\ at_rest (eng y) = true /\
   in_flight (eng y) = None) /\
  (forall a, is_enqueue a = true -> idle_ev (mst (act a y)) = false).
Proof.
  assert (Hbw : byte_wide cfg32) by (cbv; repeat split; discriminate).
  split; [exact Hbw|].
  exact (proj2 (proj2 (proj2 (proj2 (proj2
    (idle_event_tracks_engine cfg32
       [AReadNowait 32 (PBytes []) false;
        AEdge busy_sample; AEdge busy_sample;
        AEdge (ok_sample 7); AEdge busy_sample]))))) Hbw).
Defined.

(** ** The blocking [read] *)

Lemma last_beat_id (beats : list Beat) (t : Z) :
  beats <> [] ->
  map b_id beats = ids_after t (length beats) ->
  exists front lastb,
    beats = front ++ [lastb] /\ b_id lastb = t + Z.of_nat (length beats).
Proof.
  intros Hne Hids. destruct (exists_last Hne) as (front & lastb & ->).
  exists front, lastb. split; [reflexivity|].
  rewrite length_app in *. cbn [length] in *.
  replace (length front + 1)%nat with (S (length front)) in * by lia.
  unfold ids_after in Hids. rewrite seq_S, !map_app in Hids.
  cbn [map] in Hids. apply app_inj_tail in Hids. destruct Hids as [_ ->].
  lia.
Qed.

Lemma rx_scan_found rx_id pre r post :
  (forall e, In e pre -> snd e <> rx_id) ->
  rx_scan rx_id (pre ++ (r, rx_id) :: post) = (Some r, post).
Proof.
  induction pre as [|[r' t] pre IH]; intros Hpre; cbn.
  - now rewrite Z.eqb_refl.
  - destruct (rx_id =? t) eqn:E.
    + apply Z.eqb_eq in E. exfalso.
      apply (Hpre (r', t)); [now left|now cbn].
    + apply IH. intros e He. apply Hpre. now right.
Qed.

Lemma rx_scan_none rx_id q :
  (forall e, In e q -> snd e <> rx_id) ->
  rx_scan rx_id q = (None, []).
Proof.
  induction q as [|[r' t] q IH]; intros Hq; cbn; [reflexivity|].
  destruct (rx_id =? t) eqn:E.
  - apply Z.eqb_eq in E. exfalso. apply (Hq (r', t)); [now left|now cbn].
  - apply IH. intros e He. apply Hq. now right.
Qed.

(** C5: on a byte-wide bus, [read] runs [read_nowait] and searches the
    response queue for the id it returned, which is the id of the last
    beat the call appended to the transaction queue.  The search pops
    entries from the front: it stops at the first entry with that id,
    keeping its data and leaving only the entries behind it, so every
    entry in front of it is gone; when no entry matches, the queue is left
    empty and the search is repeated on the next clock edge.  Once the
    entry is found, [read] passes one clock edge and then returns that
    entry's data when [_idle] is set, and not before. *)
Theorem blocking_read_correlation (m : Master) (addr : Z) (data : Payload)
    (ee : bool) :
  byte_wide (cfg m) ->
  (exists id m1 front lastb,
     read_nowait addr data ee m = Ok id m1 /\
     queue_tx m1 = queue_tx m ++ front ++ [lastb] /\
     b_id lastb = id /\
     queue_rx m1 = queue_rx m /\
     read addr data ee m = read_search id m1) /\
  (forall rx_id m', caller_edge (CReadSearch rx_id) m' = read_search rx_id m') /\
  (forall rx_id pre r post m',
     queue_rx m' = pre ++ (r, rx_id) :: post ->
     (forall e, In e pre -> snd e <> rx_id) ->
     read_search rx_id m' = Ok (CReadFound r) (set_queue_rx post m')) /\
  (forall rx_id m',
     (forall e, In e (queue_rx m') -> snd e <> rx_id) ->
     read_search rx_id m' = Ok (CReadSearch rx_id) (set_queue_rx [] m')) /\
  (forall r m', caller_edge (CReadFound r) m' = Ok (CReadWait r) m') /\
  (forall r m',
     idle_ev m' = false ->
     caller_idle (CReadWait r) m' = Ok (CReadWait r) m') /\
  (forall r m',
     idle_ev m' = true ->
     caller_idle (CReadWait r) m' = Ok (CReturned (Some r)) m').
Proof.
  intros Hbw. repeat split.
  - destruct (read_nowait_returns addr data ee m Hbw)
      as (mq & Hr & _ & _ & Hrx & beats & Hne & Hq & Ht & Hids).
    destruct (last_beat_id beats (tx_id m) Hne Hids)
      as (front & lastb & Hb & Hl).
    exists (tx_id mq), (set_idle false (set_sync true mq)), front, lastb.
    repeat split.
    + exact Hr.
    + cbn. now rewrite Hq, Hb.
    + rewrite Hl, Ht. reflexivity.
    + cbn. exact Hrx.
    + unfold read, bind. now rewrite Hr.
  - intros rx_id pre r post m' Hq Hpre.
    unfold read_search, bind, gets, modify.
    rewrite Hq, (rx_scan_found _ _ _ _ Hpre). reflexivity.
  - intros rx_id m' Hq.
    unfold read_search, bind, gets, modify.
    rewrite (rx_scan_none _ _ Hq). reflexivity.
  - intros r m' Hi. unfold caller_idle, bind, gets. now rewrite Hi.
  - intros r m' Hi. unfold caller_idle, bind, gets. now rewrite Hi.
Qed.

Lemma blocking_read_correlation_witness :
  byte_wide (cfg (init cfg32)) /\
  forall r m',
    idle_ev m' = false ->
    caller_idle (CReadWait r) m' = Ok (CReadWait r) m'.
Proof.
  assert (Hbw : byte_wide (cfg (init cfg32)))
    by (cbv; repeat split; discriminate).
  split; [exact Hbw|].
  exact (proj1 (proj2 (proj2 (proj2 (proj2 (proj2
    (blocking_read_correlation (init cfg32) 32 (PBytes []) false Hbw))))))).
Defined.

(** * Further properties of the driver *)

(** ** Which byte addresses the engine accepts *)

Lemma floor_div_range a w n :
  0 < w -> (0 <= a / w < n <-> 0 <= a < w * n).
Proof.
  intros Hw. split; intros [H0 H1].
  - split.
    + destruct (Z.neg_nonneg_cases a) as [Hn|]; [|assumption].
      assert (a / w < 0) by (apply Z.div_lt_upper_bound; lia). lia.
    + destruct (Z.lt_ge_cases a (w * n)) as [|Hge]; [assumption|].
      assert (n <= a / w) by (apply Z.div_le_lower_bound; lia). lia.
  - split.
    + apply Z.div_pos; lia.
    + apply Z.div_lt_upper_bound; lia.
Qed.

(** The range check of lines 274-278 in terms of the byte address: on a
    bus of [wbytes > 0] bytes the engine takes a beat exactly when its
    byte address lies in [0, wbytes * 2 ^ address_width); any other
    address, a negative one included, ends the engine with the
    out-of-range error. *)
Theorem byte_address_range (m : Master) (b : Beat) (rest : list Beat) :
  queue_tx m = b :: rest ->
  0 < wbytes (cfg m) ->
  let limit := wbytes (cfg m) * 2 ^ address_width (cfg m) in
  (0 <= b_addr b < limit ->
   exists l m', run_loop m = Ok l m' /\ in_flight l = Some b /\
                queue_tx m' = rest) /\
  (b_addr b < 0 \/ limit <= b_addr b ->
   run_loop m
   = Raised (AddressOutOfRange (b_addr b) (b_addr b / wbytes (cfg m)))
       (set_queue_tx rest m)) /\
  (raises is_out_of_range (run_loop m) = true <->
   b_addr b < 0 \/ limit <= b_addr b).
Proof.
  intros Hq Hw limit.
  pose proof (floor_div_range (b_addr b) (wbytes (cfg m))
                (2 ^ address_width (cfg m)) Hw) as Hdiv.
  fold limit in Hdiv.
  assert (Hin : 0 <= b_addr b < limit ->
    exists l m', run_loop m = Ok l m' /\ in_flight l = Some b /\
                 queue_tx m' = rest).
  { intros Hr. rewrite (run_loop_cons m b rest Hq).
    rewrite issue_in_range by (cbn [cfg set_queue_tx]; tauto || lia).
    cbv zeta. destruct (b_write b); eexists; eexists;
      (split; [reflexivity|split; reflexivity]). }
  assert (Hout : b_addr b < 0 \/ limit <= b_addr b ->
    run_loop m
    = Raised (AddressOutOfRange (b_addr b) (b_addr b / wbytes (cfg m)))
        (set_queue_tx rest m)).
  { intros Hr. rewrite (run_loop_cons m b rest Hq).
    rewrite issue_out_of_range; cbn [cfg set_queue_tx]; [reflexivity|lia|].
    destruct (Z.lt_ge_cases (b_addr b / wbytes (cfg m)) 0); [now left|].
    destruct (Z.lt_ge_cases (b_addr b / wbytes (cfg m))
                (2 ^ address_width (cfg m))); [|now right].
    lia. }
  split; [exact Hin|]. split; [exact Hout|]. split.
  - intros Hr.
    destruct (Z.lt_ge_cases (b_addr b) 0); [now left|].
    destruct (Z.lt_ge_cases (b_addr b) limit); [|now right].
    destruct Hin as (l & m' & Hrun & _); [lia|].
    rewrite Hrun in Hr. discriminate.
  - intros Hr. rewrite (Hout Hr). reflexivity.
Qed.

Lemma byte_address_range_witness :
  run_loop (set_queue_tx [mkBeat false (-4) [] (-1) false 1] (init cfg32))
  = Raised (AddressOutOfRange (-4) (-1)) (set_queue_tx [] (init cfg32)).
Proof.
  pose proof (byte_address_range
                (set_queue_tx [mkBeat false (-4) [] (-1) false 1]
                              (init cfg32))
                (mkBeat false (-4) [] (-1) false 1) []
                eq_refl ltac:(reflexivity)) as H.
  cbv zeta in H. destruct H as (_ & H & _).
  exact (H ltac:(left; reflexivity)).
Defined.

(** ** A write bus narrower than a byte *)

(** When the write data width is below 8 bits, [wbytes] is 0 and divides
    in [write_nowait] (line 143) and in [_run] (line 274): a write of
    bytes raises with the object untouched, and every beat the engine
    takes, a read beat included, ends the engine. *)
Theorem zero_wbytes_divides (m : Master) :
  wbytes (cfg m) = 0 ->
  (forall addr bs strb ee,
     write_nowait addr (PBytes bs) strb ee m = Raised ZeroDivisionError m) /\
  (forall b rest,
     queue_tx m = b :: rest ->
     run_loop m = Raised ZeroDivisionError (set_queue_tx rest m) /\
     forall s, on_edge s (mkSys m LStart)
               = mkSys (set_queue_tx rest m) (LDead ZeroDivisionError)).
Proof.
  intros Hw. split.
  - intros addr bs strb ee.
    unfold write_nowait, bind, gets, py_ceil_div, raise.
    rewrite Hw. reflexivity.
  - intros b rest Hq.
    assert (Hrun : run_loop m = Raised ZeroDivisionError (set_queue_tx rest m)).
    { rewrite (run_loop_cons m b rest Hq).
      unfold issue, bind, gets, raise. cbn [cfg set_queue_tx].
      rewrite Hw. reflexivity. }
    split; [exact Hrun|].
    intros s. unfold on_edge. cbn [eng mst engine_edge]. now rewrite Hrun.
Qed.

Lemma zero_wbytes_divides_witness :
  on_edge busy_sample
    (mkSys (set_queue_tx [mkBeat false 0 [] (-1) false 1]
              (init (mkConfig 16 4 32 1 1000))) LStart)
  = mkSys (set_queue_tx [] (set_queue_tx [mkBeat false 0 [] (-1) false 1]
                              (init (mkConfig 16 4 32 1 1000))))
          (LDead ZeroDivisionError).
Proof.
  exact (proj2 (proj2 (zero_wbytes_divides
           (set_queue_tx [mkBeat false 0 [] (-1) false 1]
              (init (mkConfig 16 4 32 1 1000))) eq_refl)
         (mkBeat false 0 [] (-1) false 1) [] eq_refl) busy_sample).
Defined.

(** ** The signals of a write beat *)

Lemma shiftl_ones w : 0 <= w -> Z.shiftl 1 w - 1 = 2 ^ w - 1.
Proof. intros Hw. now rewrite Z.shiftl_1_l. Qed.

(** Lines 280-295: when the engine takes a write beat whose address is in
    range it asserts [write], drives the word address, the payload read
    little-endian and reduced to the data width, and the byte enables:
    all [be_width] bits for the default [-1], the low [be_width] bits of
    the given mask otherwise.  [read] is left as it was.  Both values fit
    their signals, and a payload of at most [wbytes] bytes is driven
    unchanged. *)
Theorem write_beat_signals (m : Master) (b : Beat) (rest : list Beat) :
  queue_tx m = b :: rest ->
  b_write b = true ->
  wbytes (cfg m) <> 0 ->
  0 <= b_addr b / wbytes (cfg m) < 2 ^ address_width (cfg m) ->
  0 <= wwidth (cfg m) -> 0 <= be_width (cfg m) ->
  let y := settle (run_loop m) in
  let o := bus (mst y) in
  eng y = LWriteIssued b /\
  queue_tx (mst y) = rest /\
  bus_write o = 1 /\
  bus_read o = bus_read (bus m) /\
  bus_address o = b_addr b / wbytes (cfg m) /\
  bus_writedata o = from_bytes (b_data b) mod 2 ^ wwidth (cfg m) /\
  bus_byteenable o
  = (if b_strb b =? -1 then 2 ^ be_width (cfg m) - 1
     else b_strb b mod 2 ^ be_width (cfg m)) /\
  0 <= bus_writedata o < 2 ^ wwidth (cfg m) /\
  0 <= bus_byteenable o < 2 ^ be_width (cfg m) /\
  (wwidth (cfg m) = 8 * wbytes (cfg m) ->
   Z.of_nat (length (b_data b)) <= wbytes (cfg m) ->
   bus_writedata o = from_bytes (b_data b)).
Proof.
  intros Hq Hwr Hw Hr HW HB y o. unfold o, y. clear o y.
  rewrite (run_loop_cons m b rest Hq).
  rewrite issue_in_range by (cbn [cfg set_queue_tx]; assumption).
  cbv zeta. rewrite Hwr. cbn [settle eng mst bus set_bus add_log
    set_queue_tx cfg queue_tx bus_write bus_read bus_address bus_writedata
    bus_byteenable].
  assert (HpW : 0 < 2 ^ wwidth (cfg m)) by (apply Z.pow_pos_nonneg; lia).
  assert (HpB : 0 < 2 ^ be_width (cfg m)) by (apply Z.pow_pos_nonneg; lia).
  unfold wdata_mask. rewrite land_mask by assumption.
  rewrite shiftl_ones by assumption. rewrite land_mask by assumption.
  pose proof (Z.mod_pos_bound (from_bytes (b_data b)) _ HpW) as HdW.
  pose proof (Z.mod_pos_bound (b_strb b) _ HpB) as HdB.
  repeat split; try reflexivity; try lia.
  - destruct (b_strb b =? -1); lia.
  - destruct (b_strb b =? -1); lia.
  - intros H8 Hlen. apply Z.mod_small.
    pose proof (from_bytes_range (b_data b)) as [H0 H1].
    split; [exact H0|].
    apply Z.lt_le_trans with (2 ^ (8 * Z.of_nat (length (b_data b))));
      [exact H1|].
    apply Z.pow_le_mono_r; lia.
Qed.

Lemma write_beat_signals_witness :
  bus (mst (settle (run_loop
    (set_queue_tx [mkBeat true 16 (le_bytes 4 3735928559) 5 false 1]
       (init cfg32)))))
  = mkBusOut 0 1 4 3735928559 5.
Proof.
  pose proof (write_beat_signals
    (set_queue_tx [mkBeat true 16 (le_bytes 4 3735928559) 5 false 1]
       (init cfg32))
    (mkBeat true 16 (le_bytes 4 3735928559) 5 false 1) []
    eq_refl eq_refl ltac:(discriminate)
    ltac:(lazy; split; [discriminate|reflexivity])
    ltac:(discriminate) ltac:(discriminate)) as H.
  cbv zeta in H.
  destruct H as (_ & _ & Hw & Hrd & Ha & Hd & Hb & _).
  destruct (bus _) as [r w a d e]. cbn in *. subst.
  reflexivity.
Defined.

(** ** Byte payloads *)

Lemma firstn_skipn_app {A} (l : list A) (a b : nat) :
  firstn a l ++ firstn b (skipn a l) = firstn (a + b) l.
Proof.
  revert l. induction a as [|a IH]; intros [|x l]; cbn;
    rewrite ?firstn_nil; auto.
  f_equal. apply IH.
Qed.

Lemma slices_concat (bs : list byte) (w k : nat) : forall j,
  concat (map (fun i => firstn w (skipn (i * w) bs)) (seq j k))
  = firstn (k * w) (skipn (j * w) bs).
Proof.
  induction k as [|k IH]; intros j; [reflexivity|].
  cbn [seq map concat]. rewrite IH.
  replace (S j * w)%nat with (w + j * w)%nat by lia.
  rewrite <- skipn_skipn. rewrite firstn_skipn_app.
  f_equal.
Qed.

Lemma slice_chunk (bs : list byte) (w : Z) (i : nat) :
  0 < w ->
  slice bs (Z.of_nat i * w) ((Z.of_nat i + 1) * w)
  = firstn (Z.to_nat w) (skipn (i * Z.to_nat w) bs).
Proof.
  intros Hw. unfold slice. f_equal; [f_equal; lia|f_equal; nia].
Qed.

Lemma loop_beats_data w addr_of data_of (f : Z -> list byte) strb ee xs :
  forall id0,
  (forall i, In i xs -> data_of i = Some (f i)) ->
  map b_data (loop_beats w addr_of data_of strb ee id0 xs) = map f xs.
Proof.
  induction xs as [|x xs IH]; intros id0 Hf; [reflexivity|].
  cbn [loop_beats]. rewrite (Hf x (or_introl eq_refl)).
  cbn [map b_data]. f_equal. apply IH. intros i Hi. apply Hf. now right.
Qed.

Lemma loop_beats_range_nth w addr_of data_of strb ee id0 n i b :
  Forall (fun j => data_of j <> None) (range n) ->
  nth_error (loop_beats w addr_of data_of strb ee id0 (range n)) i = Some b ->
  exists d,
    data_of (Z.of_nat i) = Some d /\
    b = mkBeat w (addr_of (Z.of_nat i)) d strb ee (id0 + 1 + Z.of_nat i) /\
    Z.of_nat i < n.
Proof.
  intros Hall Hi.
  assert (Hlt : (i < length (range n))%nat).
  { rewrite <- (loop_beats_length w addr_of data_of strb ee (range n)
                  id0 Hall).
    apply nth_error_Some. congruence. }
  unfold range in Hlt. rewrite length_map, length_seq in Hlt.
  assert (Hx : nth_error (range n) i = Some (Z.of_nat i)).
  { unfold range. rewrite nth_error_map, nth_error_seq.
    apply Nat.ltb_lt in Hlt. rewrite Hlt. reflexivity. }
  destruct (loop_beats_nth w addr_of data_of strb ee (range n)
              id0 i (Z.of_nat i) Hall Hx) as (d & Hd & Hb).
  exists d. split; [exact Hd|]. split; [congruence|lia].
Qed.

Lemma ceil_div_nonneg a b : 0 <= a -> 0 < b -> 0 <= ceil_div a b.
Proof.
  intros Ha Hb. unfold ceil_div.
  assert ((- a) / b <= 0) by (apply Z.div_le_upper_bound; lia). lia.
Qed.

(** [ceil_div a b] is the least such [n]: one less is not enough. *)
Lemma ceil_div_tight a b : 0 < b -> b * (ceil_div a b - 1) < a.
Proof.
  intros Hb.
  destruct (Z.lt_ge_cases (b * (ceil_div a b - 1)) a) as [|Hge];
    [assumption|].
  pose proof (ceil_div_least a b (ceil_div a b - 1) Hb Hge). lia.
Qed.

Lemma write_nowait_bytes_run addr bs strb ee m :
  0 < wbytes (cfg m) ->
  let c := cfg m in
  let n := ceil_div (Z.of_nat (length bs)) (wbytes c) in
  let beats := loop_beats true (fun i => addr + i * wbytes c)
                 (write_data c (PBytes bs)) strb ee (tx_id m) (range n) in
  write_nowait addr (PBytes bs) strb ee m
  = Ok tt
      (set_idle false (set_sync true
         (set_queue_tx (queue_tx m ++ beats) (set_tx_id (tx_id m + n) m)))).
Proof.
  intros Hw c n beats. change (0 < wbytes c) in Hw.
  assert (Hn : 0 <= n)
    by (apply ceil_div_nonneg; [apply Nat2Z.is_nonneg|exact Hw]).
  pose proof (for_each_enqueue_run true (fun i => addr + i * wbytes c)
                (write_data c (PBytes bs)) strb ee (range n) m) as Hrun.
  unfold write_nowait. unfold bind at 1. unfold gets at 1.
  unfold bind at 1. unfold py_ceil_div. fold c.
  destruct (wbytes c =? 0) eqn:E0; [lia|].
  unfold ret at 1. unfold bind at 1. fold n.
  match goal with
  | |- context [for_each ?f ?xs m] =>
      change (for_each f xs m) with
        (for_each (fun i =>
           datab <- match write_data c (PBytes bs) i with
                    | Some d => ret d
                    | None => raise OverflowError
                    end ;;
           enqueue true (addr + i * wbytes c) datab strb ee) (range n) m)
  end.
  rewrite Hrun by (apply Forall_forall; intros; discriminate).
  rewrite range_length by lia. reflexivity.
Qed.

(** [write_nowait] with a byte string on a bus of [wbytes > 0] bytes
    (lines 143-156): it enqueues [ceil (len / wbytes)] write beats, none
    for the empty string; beat [i] is at [addr + i * wbytes] and carries
    the bytes [i * wbytes .. (i + 1) * wbytes) of the string, so the last
    beat is short when the length is not a multiple of [wbytes]: no beat
    is empty and none is padded.  The payloads concatenated are the
    string.  [sync] is set and [_idle] cleared even when nothing was
    enqueued. *)
Theorem write_nowait_bytes_beats (m : Master) (addr : Z) (bs : list byte)
    (strb : Z) (ee : bool) :
  0 < wbytes (cfg m) ->
  let w := wbytes (cfg m) in
  let n := ceil_div (Z.of_nat (length bs)) w in
  exists beats m',
    write_nowait addr (PBytes bs) strb ee m = Ok tt m' /\
    queue_tx m' = queue_tx m ++ beats /\
    tx_id m' = tx_id m + n /\
    sync m' = true /\ idle_ev m' = false /\
    Z.of_nat (length beats) = n /\
    (bs = [] <-> beats = []) /\
    (forall i b, nth_error beats i = Some b ->
       b_write b = true /\
       b_addr b = addr + Z.of_nat i * w /\
       b_data b = slice bs (Z.of_nat i * w) ((Z.of_nat i + 1) * w) /\
       Z.of_nat (length (b_data b))
       = Z.min w (Z.of_nat (length bs) - Z.of_nat i * w) /\
       0 < Z.of_nat (length (b_data b)) /\
       b_strb b = strb /\ b_error_expected b = ee /\
       b_id b = tx_id m + 1 + Z.of_nat i) /\
    payload_bytes beats = bs.
Proof.
  intros Hw w n.
  pose proof (write_nowait_bytes_run addr bs strb ee m Hw) as Hrun.
  cbv zeta in Hrun. fold w in Hrun. fold n in Hrun.
  change (0 < w) in Hw.
  assert (Hn : 0 <= n)
    by (apply ceil_div_nonneg; [apply Nat2Z.is_nonneg|exact Hw]).
  assert (Hall : Forall (fun i => write_data (cfg m) (PBytes bs) i <> None)
                   (range n))
    by (apply Forall_forall; intros; discriminate).
  pose proof (ceil_div_ge (Z.of_nat (length bs)) w Hw) as Hge.
  pose proof (ceil_div_tight (Z.of_nat (length bs)) w Hw) as Htight.
  fold n in Hge, Htight.
  assert (Hlen : Z.of_nat (length
            (loop_beats true (fun i => addr + i * w)
               (write_data (cfg m) (PBytes bs)) strb ee (tx_id m) (range n)))
          = n).
  { rewrite loop_beats_length by exact Hall. apply range_length. lia. }
  eexists. eexists. split; [exact Hrun|].
  split; [reflexivity|]. split; [reflexivity|].
  split; [reflexivity|]. split; [reflexivity|].
  split; [exact Hlen|]. split; [|split].
  - split.
    + intros ->. cbn [length] in *.
      destruct (loop_beats _ _ _ _ _ _ _); [reflexivity|].
      cbn [length] in Hlen. nia.
    + intros Hb. rewrite Hb in Hlen. cbn [length] in Hlen.
      destruct bs; [reflexivity|]. cbn [length] in *. nia.
  - intros i b Hi.
    destruct (loop_beats_range_nth _ _ _ _ _ _ _ _ _ Hall Hi)
      as (d & Hd & -> & Hlt).
    cbn [write_data] in Hd. injection Hd as <-.
    cbn [b_write b_addr b_data b_strb b_error_expected b_id].
    assert (HL : Z.of_nat (length
                   (slice bs (Z.of_nat i * w) ((Z.of_nat i + 1) * w)))
                 = Z.min w (Z.of_nat (length bs) - Z.of_nat i * w)).
    { unfold slice. rewrite length_firstn, length_skipn. nia. }
    split; [reflexivity|]. split; [reflexivity|]. split; [reflexivity|].
    split; [exact HL|].
    split; [change (0 < Z.of_nat (length
               (slice bs (Z.of_nat i * w) ((Z.of_nat i + 1) * w))));
            rewrite HL; nia|].
    repeat split.
  - unfold payload_bytes.
    rewrite (loop_beats_data _ _ _
               (fun i => slice bs (i * w) ((i + 1) * w)))
      by (intros; reflexivity).
    unfold range. rewrite map_map.
    rewrite (map_ext _ (fun i => firstn (Z.to_nat w)
                                   (skipn (i * Z.to_nat w) bs)))
      by (intros i; apply slice_chunk; exact Hw).
    rewrite slices_concat. cbn [Nat.mul skipn].
    apply firstn_all2. nia.
Qed.

Lemma write_nowait_bytes_beats_witness :
  exists beats m',
    write_nowait 16 (PBytes ["001"; "002"; "003"; "004"; "005"]%byte)
      (-1) false (init cfg32) = Ok tt m' /\
    queue_tx m' = beats /\
    Z.of_nat (length beats) = 2 /\
    payload_bytes beats = ["001"; "002"; "003"; "004"; "005"]%byte.
Proof.
  destruct (write_nowait_bytes_beats (init cfg32) 16
              ["001"; "002"; "003"; "004"; "005"]%byte (-1) false
              ltac:(reflexivity))
    as (beats & m' & Hw & Hq & _ & _ & _ & Hlen & _ & _ & Hcat).
  exists beats, m'. repeat split.
  - exact Hw.
  - exact Hq.
  - exact Hlen.
  - exact Hcat.
Defined.

(** A write of the empty byte string: [write_nowait] enqueues nothing and
    uses no id, but still sets [sync] and clears [_idle]; the engine,
    woken while waiting for work, finds the queue empty, sets [_idle]
    again and waits, having driven no signal; the blocking [write] then
    returns. *)
Theorem write_empty_bytes_no_beat (y : Sys) (addr strb : Z) (ee : bool) :
  0 < wbytes (cfg (mst y)) ->
  eng y = LWaitWork ->
  queue_tx (mst y) = [] ->
  let y1 := act (AWriteNowait addr (PBytes []) strb ee) y in
  let y2 := act AWake y1 in
  (queue_tx (mst y1) = [] /\ tx_id (mst y1) = tx_id (mst y) /\
   sync (mst y1) = true /\ idle_ev (mst y1) = false) /\
  (eng y2 = LWaitWork /\
   queue_tx (mst y2) = [] /\ tx_id (mst y2) = tx_id (mst y) /\
   sync (mst y2) = false /\ idle_ev (mst y2) = true /\
   bus (mst y2) = bus (mst y) /\ queue_rx (mst y2) = queue_rx (mst y)) /\
  write addr (PBytes []) strb ee (mst y) = Ok CWriteWait (mst y1) /\
  caller_idle CWriteWait (mst y1) = Ok CWriteWait (mst y1) /\
  caller_idle CWriteWait (mst y2) = Ok (CReturned None) (mst y2).
Proof.
  intros Hw He Hq. cbv zeta.
  pose proof (write_nowait_bytes_run addr [] strb ee (mst y) Hw) as Hrun.
  cbv zeta in Hrun. cbn [length] in Hrun.
  change (Z.of_nat 0) with 0 in Hrun. rewrite ceil_div_0 in Hrun.
  change (range 0) with (@nil Z) in Hrun. cbn [loop_beats] in Hrun.
  rewrite Hq in Hrun. cbn [app] in Hrun.
  cbn [act]. unfold on_master. cbn [mst eng].
  unfold write, bind. rewrite Hrun. cbn [final mst sync set_idle set_sync].
  unfold on_wake. cbn [mst eng]. rewrite He. cbn [engine_wake].
  rewrite run_loop_nil by reflexivity.
  unfold caller_idle, bind, gets. cbn.
  repeat split; lia.
Qed.

Lemma write_empty_bytes_no_beat_witness :
  let y := on_edges [busy_sample] (start cfg32) in
  let y2 := act AWake (act (AWriteNowait 16 (PBytes []) (-1) false) y) in
  eng y2 = LWaitWork /\ idle_ev (mst y2) = true /\
  bus (mst y2) = bus (mst y).
Proof.
  cbv zeta.
  destruct (write_empty_bytes_no_beat
              (on_edges [busy_sample] (start cfg32)) 16 (-1) false
              ltac:(reflexivity) eq_refl eq_refl)
    as (_ & (He & _ & _ & _ & Hi & Hb & _) & _).
  split; [exact He|]. split; [exact Hi|exact Hb].
Defined.

(** [read_nowait] with expected bytes (lines 197-219), on any bus: one
    read beat at [addr] carrying the whole byte string, however long,
    under the next id, which is returned; it never raises. *)
Theorem read_nowait_bytes_one_beat (m : Master) (addr : Z) (bs : list byte)
    (ee : bool) :
  read_nowait addr (PBytes bs) ee m
  = Ok (tx_id m + 1)
      (set_idle false (set_sync true
         (set_queue_tx
            (queue_tx m ++ [mkBeat false addr bs (-1) ee (tx_id m + 1)])
            (set_tx_id (tx_id m + 1) m)))).
Proof.
  unfold read_nowait, bind, gets, ret, modify, enqueue.
  change (range 1) with [0]. cbn [for_each].
  unfold bind, ret, modify. cbn.
  rewrite Z.add_0_r. reflexivity.
Qed.

(** ** Integer expected values of a read *)

Lemma le_chunks_value (P W B : Z) (k : nat) : forall j : nat,
  W = 8 * B -> 0 <= B ->
  from_bytes (concat (map
    (fun i => le_bytes (Z.to_nat B) (Z.land (Z.shiftr P (W * i)) (2 ^ W - 1)))
    (map Z.of_nat (seq j k))))
  = (P / 2 ^ (W * Z.of_nat j)) mod 2 ^ (W * Z.of_nat k).
Proof.
  intros j HW HB. assert (H0 : 0 <= W) by lia. revert j.
  induction k as [|k IH]; intros j.
  - cbn. rewrite Z.mul_0_r, Z.pow_0_r, Z.mod_1_r. reflexivity.
  - cbn [seq map concat].
    rewrite from_bytes_app, IH.
    rewrite from_bytes_le_bytes, length_le_bytes.
    rewrite Z2Nat.id by lia. rewrite <- HW.
    rewrite land_mask by lia.
    rewrite Z.shiftr_div_pow2 by nia.
    rewrite Z.mod_mod by (apply Z.pow_nonzero; lia).
    assert (Hp : 0 < 2 ^ W) by (apply Z.pow_pos_nonneg; lia).
    assert (Hq : 0 < 2 ^ (W * Z.of_nat k)) by (apply Z.pow_pos_nonneg; nia).
    assert (Hr : 0 < 2 ^ (W * Z.of_nat j)) by (apply Z.pow_pos_nonneg; nia).
    replace (W * Z.of_nat (S j)) with (W * Z.of_nat j + W) by lia.
    rewrite Z.pow_add_r by nia.
    rewrite <- Z.div_div by lia.
    replace (W * Z.of_nat (S k)) with (W + W * Z.of_nat k) by lia.
    rewrite Z.pow_add_r by nia.
    rewrite (Z.rem_mul_r _ (2 ^ W) (2 ^ (W * Z.of_nat k))) by lia.
    reflexivity.
Qed.

(** [read_nowait] with an integer expected value [P] on a byte-wide bus
    (lines 197-219): beat [i] expects the [rbytes] little-endian bytes of
    bits [i * R .. (i + 1) * R) of [P], [R] being the read width, under
    the id [tx_id + 1 + i]; the id returned is that of the last beat;
    every beat carries a non-empty expected payload, for [P = 0] too, so
    every beat is verified; and for [P >= 0] the expected payloads
    concatenated and read little-endian give [P]. *)
Theorem read_nowait_int_beats (m : Master) (addr P : Z) (ee : bool) :
  byte_wide (cfg m) ->
  let R := rwidth (cfg m) in
  let n := Z.max 1 (ceil_div (bit_length P) R) in
  exists beats m',
    read_nowait addr (PInt P) ee m = Ok (tx_id m + n) m' /\
    queue_tx m' = queue_tx m ++ beats /\
    tx_id m' = tx_id m + n /\
    Z.of_nat (length beats) = n /\
    (forall i b, nth_error beats i = Some b ->
       b_write b = false /\
       b_data b = le_bytes (Z.to_nat (rbytes (cfg m)))
                    ((P / 2 ^ (Z.of_nat i * R)) mod 2 ^ R) /\
       from_bytes (b_data b) = (P / 2 ^ (Z.of_nat i * R)) mod 2 ^ R /\
       b_data b <> [] /\
       b_error_expected b = ee /\
       b_id b = tx_id m + 1 + Z.of_nat i) /\
    (exists front lastb,
       beats = front ++ [lastb] /\ b_id lastb = tx_id m + n) /\
    (0 <= P -> from_bytes (payload_bytes beats) = P).
Proof.
  intros Hbw R n.
  destruct (byte_wide_bytes _ Hbw) as (_ & _ & H8 & Hb).
  change (R = 8 * rbytes (cfg m)) in H8.
  assert (HR : 0 < R) by lia.
  pose proof (bit_length_nonneg P) as HL.
  assert (Hn : 1 <= n) by (unfold n; lia).
  pose proof (read_nowait_int_run addr P ee m Hbw) as Hrun.
  cbv zeta in Hrun. fold R in Hrun. fold n in Hrun.
  assert (Hall : Forall (fun i => read_data (cfg m) (PInt P) i <> None)
                   (range n))
    by (apply Forall_forall; intros; now apply read_data_some).
  assert (Hdata : forall i,
    read_data (cfg m) (PInt P) i
    = Some (le_bytes (Z.to_nat (rbytes (cfg m)))
              (Z.land (Z.shiftr P (R * i)) (2 ^ R - 1)))).
  { intros i. cbn [read_data]. unfold rdata_mask. fold R.
    apply to_bytes_fits. rewrite land_mask by lia. rewrite <- H8.
    apply Z.mod_pos_bound. apply Z.pow_pos_nonneg; lia. }
  set (beats := loop_beats false (fun i => addr + i * rbytes (cfg m))
                  (read_data (cfg m) (PInt P)) (-1) ee (tx_id m) (range n))
    in *.
  assert (Hlen : Z.of_nat (length beats) = n).
  { unfold beats. rewrite loop_beats_length by exact Hall.
    apply range_length. lia. }
  exists beats. eexists. split; [exact Hrun|].
  split; [reflexivity|]. split; [reflexivity|]. split; [exact Hlen|].
  split; [|split].
  - intros i b Hi.
    destruct (loop_beats_range_nth _ _ _ _ _ _ _ _ _ Hall Hi)
      as (d & Hd & -> & Hlt).
    rewrite Hdata in Hd. injection Hd as <-.
    cbn [b_write b_data b_error_expected b_id].
    rewrite land_mask by lia.
    rewrite Z.shiftr_div_pow2 by nia.
    rewrite (Z.mul_comm R (Z.of_nat i)).
    split; [reflexivity|]. split; [reflexivity|]. split; [|split].
    + rewrite from_bytes_le_bytes, Z2Nat.id by lia. rewrite <- H8.
      apply Z.mod_mod. apply Z.pow_nonzero; lia.
    + intros Hnil. apply (f_equal (@length byte)) in Hnil.
      rewrite length_le_bytes in Hnil. cbn [length] in Hnil. lia.
    + split; reflexivity.
  - assert (Hne : beats <> [])
      by (intros Hnil; rewrite Hnil in Hlen; cbn [length] in Hlen; lia).
    destruct (last_beat_id beats (tx_id m) Hne) as (front & lastb & Hf & Hl).
    { unfold beats. apply loop_beats_ids. }
    exists front, lastb. split; [exact Hf|]. rewrite Hl. lia.
  - intros HP. unfold payload_bytes, beats.
    rewrite (loop_beats_data _ _ _
               (fun i => le_bytes (Z.to_nat (rbytes (cfg m)))
                           (Z.land (Z.shiftr P (R * i)) (2 ^ R - 1))))
      by (intros; apply Hdata).
    unfold range.
    rewrite (le_chunks_value P R (rbytes (cfg m))) by lia.
    rewrite Z.mul_0_r, Z.pow_0_r, Z.div_1_r, Z2Nat.id by lia.
    apply Z.mod_small. split; [exact HP|].
    apply Z.lt_le_trans with (2 ^ bit_length P);
      [apply bit_length_bound; exact HP|].
    apply Z.pow_le_mono_r; [lia|].
    pose proof (ceil_div_ge (bit_length P) R HR). unfold n. nia.
Qed.

Lemma read_nowait_int_beats_witness :
  exists beats m',
    read_nowait 0 (PInt 0) false (init cfg32) = Ok 1 m' /\
    queue_tx m' = beats /\
    Z.of_nat (length beats) = 1 /\
    from_bytes (payload_bytes beats) = 0.
Proof.
  destruct (read_nowait_int_beats (init cfg32) 0 0 false
              ltac:(cbv; repeat split; discriminate))
    as (beats & m' & Hr & Hq & _ & Hlen & _ & _ & Hrec).
  exists beats, m'. repeat split.
  - exact Hr.
  - exact Hq.
  - exact Hlen.
  - apply Hrec. discriminate.
Defined.

(** ** A beat from issue to completion *)

Lemma within_budget_S c k :
  within_budget c (S k) = true ->
  timed_out c (Z.of_nat k + 1) = false /\ within_budget c k = true.
Proof.
  cbn [within_budget]. rewrite negb_true_iff.
  replace (Z.of_nat (S k)) with (Z.of_nat k + 1) by lia.
  intros H. split; [exact H|].
  destruct k; [reflexivity|]. cbn [within_budget]. rewrite negb_true_iff.
  apply timed_out_false. apply timed_out_false in H. lia.
Qed.

(** Cycles with [waitrequest] high after a write beat was issued. *)
Lemma write_accept_run b m ws :
  Forall (fun s => waitrequest s = true) ws ->
  within_budget (cfg m) (length ws) = true ->
  on_edges ws (mkSys m (LWriteIssued b))
  = mkSys m (write_accept_loc b (length ws)).
Proof.
  intros Hall Hb. destruct ws as [|s ws]; [reflexivity|].
  inversion Hall as [|? ? Hs Hrest]; subst.
  cbn [on_edges length write_accept_loc]. unfold on_edge at 1.
  cbn [eng mst engine_edge]. unfold write_wait_accept. rewrite Hs.
  cbn [ret settle]. cbn [length] in Hb.
  apply within_budget_S in Hb. destruct Hb as [Ht _].
  change (LWriteAccept b 0) with (phase_loc WriteAccept b 0).
  rewrite (phase_edges_blocked WriteAccept b m ws 0 Hrest).
  - now rewrite Z.add_0_l.
  - apply timed_out_false. apply timed_out_false in Ht. lia.
Qed.

Lemma read_accept_run b m ws :
  Forall (fun s => waitrequest s = true) ws ->
  within_budget (cfg m) (length ws) = true ->
  on_edges ws (mkSys m (LReadIssued b))
  = mkSys m (read_accept_loc b (length ws)).
Proof.
  intros Hall Hb. destruct ws as [|s ws]; [reflexivity|].
  inversion Hall as [|? ? Hs Hrest]; subst.
  cbn [on_edges length read_accept_loc]. unfold on_edge at 1.
  cbn [eng mst engine_edge]. unfold read_wait_accept. rewrite Hs.
  cbn [ret settle]. cbn [length] in Hb.
  apply within_budget_S in Hb. destruct Hb as [Ht _].
  change (LReadAccept b 0) with (phase_loc ReadAccept b 0).
  rewrite (phase_edges_blocked ReadAccept b m ws 0 Hrest).
  - now rewrite Z.add_0_l.
  - apply timed_out_false. apply timed_out_false in Ht. lia.
Qed.

(** The cycle on which [waitrequest] is low. *)
Lemma write_accept_step b m k s :
  within_budget (cfg m) k = true ->
  waitrequest s = false ->
  engine_edge s (write_accept_loc b k) m
  = write_wait_response b 0 s (set_bus release_write m).
Proof.
  intros Hb Hs. destruct k as [|k]; cbn [write_accept_loc engine_edge].
  - unfold write_wait_accept, bind, modify. now rewrite Hs.
  - apply within_budget_S in Hb. destruct Hb as [Ht _].
    unfold bind, gets. rewrite Ht.
    unfold write_wait_accept, bind, modify. now rewrite Hs.
Qed.

Lemma read_accept_step b m k s :
  within_budget (cfg m) k = true ->
  waitrequest s = false ->
  engine_edge s (read_accept_loc b k) m = read_wait_response b 0 s m.
Proof.
  intros Hb Hs. destruct k as [|k]; cbn [read_accept_loc engine_edge].
  - unfold read_wait_accept. now rewrite Hs.
  - apply within_budget_S in Hb. destruct Hb as [Ht _].
    unfold bind, gets. rewrite Ht.
    unfold read_wait_accept. now rewrite Hs.
Qed.

(** The response wait, from the cycle of acceptance on: [rs] are the
    cycles without the response, [sr] the cycle that brings it. *)
Lemma write_response_run b m rs sr :
  Forall (fun s => writeresponsevalid s = false) rs ->
  writeresponsevalid sr = true ->
  within_budget (cfg m) (length rs) = true ->
  on_edges (tl (rs ++ [sr]))
    (settle (write_wait_response b 0 (hd sr rs) m))
  = settle (write_complete b sr m).
Proof.
  intros Hall Hv Hb. destruct rs as [|s rs]; cbn [hd tl app on_edges].
  - unfold write_wait_response. now rewrite Hv.
  - inversion Hall as [|? ? Hs Hrest]; subst.
    unfold write_wait_response at 1. rewrite Hs. cbn [negb ret settle].
    rewrite on_edges_app. cbn [length] in Hb.
    apply within_budget_S in Hb. destruct Hb as [Ht _].
    change (LWriteResp b 0) with (phase_loc WriteResponse b 0).
    rewrite (phase_edges_blocked WriteResponse b m rs 0).
    + cbn [on_edges phase_loc]. unfold on_edge. cbn [eng mst engine_edge].
      unfold bind, gets. rewrite Z.add_0_l, Ht.
      unfold write_wait_response. now rewrite Hv.
    + apply Forall_forall. intros x Hx. cbn [phase_blocked].
      rewrite Forall_forall in Hrest. now rewrite (Hrest x Hx).
    + apply timed_out_false. apply timed_out_false in Ht. lia.
Qed.

Lemma read_response_run b m rs sr :
  Forall (fun s => readdatavalid s = false) rs ->
  readdatavalid sr = true ->
  within_budget (cfg m) (length rs) = true ->
  on_edges (tl (rs ++ [sr]))
    (settle (read_wait_response b 0 (hd sr rs) m))
  = settle (read_complete b sr m).
Proof.
  intros Hall Hv Hb. destruct rs as [|s rs]; cbn [hd tl app on_edges].
  - unfold read_wait_response. now rewrite Hv.
  - inversion Hall as [|? ? Hs Hrest]; subst.
    unfold read_wait_response at 1. rewrite Hs. cbn [negb ret settle].
    rewrite on_edges_app. cbn [length] in Hb.
    apply within_budget_S in Hb. destruct Hb as [Ht _].
    change (LReadResp b 0) with (phase_loc ReadResponse b 0).
    rewrite (phase_edges_blocked ReadResponse b m rs 0).
    + cbn [on_edges phase_loc]. unfold on_edge. cbn [eng mst engine_edge].
      unfold bind, gets. rewrite Z.add_0_l, Ht.
      unfold read_wait_response. now rewrite Hv.
    + apply Forall_forall. intros x Hx. cbn [phase_blocked].
      rewrite Forall_forall in Hrest. now rewrite (Hrest x Hx).
    + apply timed_out_false. apply timed_out_false in Ht. lia.
Qed.

Lemma hd_tl_app (rs : list Sample) sr :
  rs ++ [sr] = hd sr rs :: tl (rs ++ [sr]).
Proof. destruct rs; reflexivity. Qed.

Lemma write_complete_ok b s m :
  contract_ok (b_error_expected b) (response s) = true ->
  write_complete b s m = Ok LBeatEnd m.
Proof.
  intros Hc. unfold write_complete, bind, ret.
  now rewrite write_check_response_spec, Hc.
Qed.

(** The engine at the head of its loop with the driver's last beat done
    and nothing queued. *)
Lemma beat_end_to_rest s m :
  queue_tx m = [] ->
  on_edge s (mkSys m LBeatEnd)
  = mkSys (set_sync false (set_idle true (set_sync true m))) LWaitWork.
Proof.
  intros Hq. unfold on_edge. cbn [eng mst engine_edge].
  unfold bind, modify. now rewrite run_loop_nil by exact Hq.
Qed.

(** A write beat from issue to completion (lines 280-345 and 416-417).
    The beat is taken with its address in range; [ws] are the cycles on
    which [waitrequest] is high, [rs] the cycles from acceptance on that
    do not bring the response, [sr] the cycle that brings it, each wait
    within the budget, which is counted per wait.  The write signals are
    held unchanged through [ws], released on the cycle of acceptance, and
    the beat ends with the signals released and the object otherwise as
    the issue left it; when no beat is left the next edge sets [_idle]
    and the engine waits for work. *)
Theorem write_beat_completes (m : Master) (b : Beat) (rest : list Beat)
    (ws rs : list Sample) (sr : Sample) :
  queue_tx m = b :: rest ->
  b_write b = true ->
  wbytes (cfg m) <> 0 ->
  0 <= b_addr b / wbytes (cfg m) < 2 ^ address_width (cfg m) ->
  Forall (fun s => waitrequest s = true) ws ->
  within_budget (cfg m) (length ws) = true ->
  waitrequest (hd sr rs) = false ->
  Forall (fun s => writeresponsevalid s = false) rs ->
  within_budget (cfg m) (length rs) = true ->
  writeresponsevalid sr = true ->
  contract_ok (b_error_expected b) (response sr) = true ->
  let y0 := settle (run_loop m) in
  let y1 := on_edges ws y0 in
  let y2 := on_edges (rs ++ [sr]) y1 in
  (eng y0 = LWriteIssued b /\ bus_write (bus (mst y0)) = 1) /\
  (mst y1 = mst y0 /\ eng y1 = write_accept_loc b (length ws)) /\
  (forall s rs', rs = s :: rs' ->
     bus (mst (on_edge s y1)) = release_write (bus m) /\
     eng (on_edge s y1) = LWriteResp b 0) /\
  y2 = mkSys (set_bus release_write (mst y0)) LBeatEnd /\
  bus (mst y2) = mkBusOut (bus_read (bus m)) 0 0 0 0 /\
  queue_tx (mst y2) = rest /\
  queue_rx (mst y2) = queue_rx m /\
  exception_occurred (mst y2) = exception_occurred m /\
  (rest = [] -> forall s,
     let y3 := on_edge s y2 in
     eng y3 = LWaitWork /\
     idle_ev (mst y3) = true /\ sync (mst y3) = false /\
     bus (mst y3) = bus (mst y2) /\ queue_tx (mst y3) = []).
Proof.
  intros Hq Hwr Hw Hr Hws Hwb Hacc Hrs Hrb Hv Hc. cbv zeta.
  rewrite (run_loop_cons m b rest Hq).
  rewrite issue_in_range by (cbn [cfg set_queue_tx]; assumption).
  cbv zeta. rewrite Hwr. cbn [settle].
  match goal with
  | |- context [mkSys ?x (LWriteIssued b)] => set (m0 := x)
  end.
  assert (Hy1 : on_edges ws (mkSys m0 (LWriteIssued b))
                = mkSys m0 (write_accept_loc b (length ws)))
    by exact (write_accept_run b m0 ws Hws Hwb).
  rewrite Hy1.
  assert (Hstep : on_edge (hd sr rs)
                    (mkSys m0 (write_accept_loc b (length ws)))
                  = settle (write_wait_response b 0 (hd sr rs)
                              (set_bus release_write m0))).
  { unfold on_edge. cbn [eng mst].
    now rewrite (write_accept_step b m0 (length ws) (hd sr rs) Hwb Hacc). }
  assert (Hy2 : on_edges (rs ++ [sr])
                  (mkSys m0 (write_accept_loc b (length ws)))
                = mkSys (set_bus release_write m0) LBeatEnd).
  { rewrite hd_tl_app. cbn [on_edges]. rewrite Hstep.
    rewrite (write_response_run b (set_bus release_write m0) rs sr Hrs Hv Hrb).
    now rewrite write_complete_ok by exact Hc. }
  rewrite Hy2. cbn [mst eng].
  split; [split; reflexivity|]. split; [split; reflexivity|].
  split.
  { intros s rs' ->. cbn [hd] in Hstep. rewrite Hstep.
    inversion Hrs as [|? ? Hs _]; subst.
    unfold write_wait_response. rewrite Hs. cbn. split; reflexivity. }
  split; [reflexivity|]. split; [reflexivity|].
  split; [reflexivity|]. split; [reflexivity|]. split; [reflexivity|].
  intros -> s. cbv zeta. rewrite beat_end_to_rest by reflexivity.
  cbn. repeat split.
Qed.

Lemma write_beat_completes_witness :
  let m := final (write_nowait 16 (PInt 3735928559) (-1) false (init cfg32)) in
  on_edges [busy_sample; busy_sample;
            mkSample false false false 0 0; mkSample false false false 0 0;
            mkSample false true false 0 0]
    (settle (run_loop m))
  = mkSys (set_bus release_write (mst (settle (run_loop m)))) LBeatEnd.
Proof.
  cbv zeta.
  pose proof (write_beat_completes
    (final (write_nowait 16 (PInt 3735928559) (-1) false (init cfg32)))
    (mkBeat true 16 (le_bytes 4 3735928559) (-1) false 1) []
    [busy_sample; busy_sample]
    [mkSample false false false 0 0; mkSample false false false 0 0]
    (mkSample false true false 0 0)
    eq_refl eq_refl ltac:(discriminate)
    ltac:(lazy; split; [discriminate|reflexivity])
    ltac:(repeat constructor) eq_refl eq_refl
    ltac:(repeat constructor) eq_refl eq_refl eq_refl) as H.
  cbv zeta in H. destruct H as (_ & _ & _ & H & _).
  rewrite <- on_edges_app in H. exact H.
Defined.

Lemma read_complete_ok b s m :
  contract_ok (b_error_expected b) (response s) = true ->
  b_data b = [] \/ from_bytes (b_data b) = readdata s ->
  0 <= readdata s < 2 ^ (8 * rbytes (cfg m)) ->
  read_complete b s m
  = Ok LBeatEnd
      (set_queue_rx
         (queue_rx m
          ++ [(le_bytes (Z.to_nat (rbytes (cfg m))) (readdata s), b_id b)])
         (add_log Info (MsgValueRead (readdata s))
            (set_bus release_read m))).
Proof.
  intros Hc Hd Hr. rewrite read_complete_spec. cbv zeta. rewrite Hc.
  rewrite read_capture_spec. cbv zeta.
  cbn [cfg set_bus queue_rx].
  rewrite (to_bytes_fits _ _ Hr).
  assert (Hm : match b_data b with
               | [] => true
               | _ :: _ => from_bytes (b_data b) =? readdata s
               end = true).
  { destruct Hd as [Hd|Hd]; [now rewrite Hd|].
    destruct (b_data b); [reflexivity|]. now apply Z.eqb_eq. }
  rewrite Hm. reflexivity.
Qed.

(** A read beat from issue to delivery (lines 346-417), and its way back
    to the caller (lines 180-184).  After the beat is taken the bus is
    untouched for one cycle; the next edge asserts [read] with the word
    address; the signals are held through the cycles [ws] with
    [waitrequest] high and the cycles [rs] that do not bring the data, and
    released on the cycle [sr] that brings it.  With the response as
    expected, and the data equal to the expected value when there is one,
    the value on [readdata] is appended to the response queue as [rbytes]
    little-endian bytes under the beat's id, and a caller searching for
    that id gets these bytes. *)
Theorem read_beat_completes (m : Master) (b : Beat) (rest : list Beat)
    (s1 : Sample) (ws rs : list Sample) (sr : Sample) :
  queue_tx m = b :: rest ->
  b_write b = false ->
  wbytes (cfg m) <> 0 ->
  0 <= b_addr b / wbytes (cfg m) < 2 ^ address_width (cfg m) ->
  Forall (fun s => waitrequest s = true) ws ->
  within_budget (cfg m) (length ws) = true ->
  waitrequest (hd sr rs) = false ->
  Forall (fun s => readdatavalid s = false) rs ->
  within_budget (cfg m) (length rs) = true ->
  readdatavalid sr = true ->
  contract_ok (b_error_expected b) (response sr) = true ->
  b_data b = [] \/ from_bytes (b_data b) = readdata sr ->
  0 <= readdata sr < 2 ^ (8 * rbytes (cfg m)) ->
  let y0 := settle (run_loop m) in
  let y1 := on_edge s1 y0 in
  let y2 := on_edges ws y1 in
  let y3 := on_edges (rs ++ [sr]) y2 in
  let data := le_bytes (Z.to_nat (rbytes (cfg m))) (readdata sr) in
  (in_flight (eng y0) = Some b /\ bus (mst y0) = bus m) /\
  (eng y1 = LReadIssued b /\
   bus (mst y1)
   = mkBusOut 1 (bus_write (bus m)) (b_addr b / wbytes (cfg m))
       (bus_writedata (bus m)) (bus_byteenable (bus m))) /\
  (mst y2 = mst y1 /\ eng y2 = read_accept_loc b (length ws)) /\
  (forall s rs', rs = s :: rs' ->
     mst (on_edge s y2) = mst y1 /\ eng (on_edge s y2) = LReadResp b 0) /\
  eng y3 = LBeatEnd /\
  bus (mst y3) = release_read (bus (mst y1)) /\
  queue_tx (mst y3) = rest /\
  queue_rx (mst y3) = queue_rx m ++ [(data, b_id b)] /\
  from_bytes data = readdata sr /\
  Z.of_nat (length data) = rbytes (cfg m) /\
  ((forall e, In e (queue_rx m) -> snd e <> b_id b) ->
   read_search (b_id b) (mst y3)
   = Ok (CReadFound data) (set_queue_rx [] (mst y3))).
Proof.
  intros Hq Hwr Hw Hr Hws Hwb Hacc Hrs Hrb Hv Hc Hd Hdata. cbv zeta.
  assert (Hnb : 0 <= rbytes (cfg m)).
  { destruct (Z.lt_ge_cases (rbytes (cfg m)) 0) as [Hneg|]; [|assumption].
    rewrite Z.pow_neg_r in Hdata by lia. lia. }
  rewrite (run_loop_cons m b rest Hq).
  rewrite issue_in_range by (cbn [cfg set_queue_tx]; assumption).
  cbv zeta. rewrite Hwr. cbn [settle].
  match goal with
  | |- context [on_edge s1 ?y] =>
      let y1 := eval cbv [on_edge engine_edge eng mst bind modify ret settle]
                in (on_edge s1 y) in
      change (on_edge s1 y) with y1
  end.
  match goal with
  | |- context [mkSys ?x (LReadIssued b)] => set (m1 := x)
  end.
  assert (Hy2 : on_edges ws (mkSys m1 (LReadIssued b))
                = mkSys m1 (read_accept_loc b (length ws)))
    by exact (read_accept_run b m1 ws Hws Hwb).
  rewrite Hy2.
  assert (Hstep : on_edge (hd sr rs)
                    (mkSys m1 (read_accept_loc b (length ws)))
                  = settle (read_wait_response b 0 (hd sr rs) m1)).
  { unfold on_edge. cbn [eng mst].
    now rewrite (read_accept_step b m1 (length ws) (hd sr rs) Hwb Hacc). }
  assert (Hy3 : on_edges (rs ++ [sr])
                  (mkSys m1 (read_accept_loc b (length ws)))
                = settle (read_complete b sr m1)).
  { rewrite hd_tl_app. cbn [on_edges]. rewrite Hstep.
    exact (read_response_run b m1 rs sr Hrs Hv Hrb). }
  rewrite Hy3.
  rewrite (read_complete_ok b sr m1 Hc Hd Hdata). cbn [settle mst eng].
  assert (Hbytes :
    from_bytes (le_bytes (Z.to_nat (rbytes (cfg m))) (readdata sr))
    = readdata sr).
  { rewrite from_bytes_le_bytes, Z2Nat.id by lia.
    apply Z.mod_small. exact Hdata. }
  split; [split; reflexivity|]. split; [split; reflexivity|].
  split; [split; reflexivity|]. split.
  { intros s rs' ->. cbn [hd] in Hstep. rewrite Hstep.
    inversion Hrs as [|? ? Hs _]; subst.
    unfold read_wait_response. rewrite Hs. cbn. split; reflexivity. }
  split; [reflexivity|]. split; [reflexivity|]. split; [reflexivity|].
  split; [reflexivity|]. split; [exact Hbytes|].
  split; [rewrite length_le_bytes; lia|].
  intros Hfresh. unfold read_search, bind, gets, modify.
  cbn [queue_rx set_queue_rx].
  change (cfg m1) with (cfg m).
  rewrite (rx_scan_found (b_id b) (queue_rx m) _ [] Hfresh).
  reflexivity.
Qed.

Lemma read_beat_completes_witness :
  let m := mst (act (AReadNowait 32 (PBytes []) false) (start cfg32)) in
  let y3 := on_edges ([mkSample false false false 0 0]
                      ++ [ok_sample 305419896])
              (on_edges [busy_sample; busy_sample]
                 (on_edge busy_sample (settle (run_loop m)))) in
  queue_rx (mst y3)
  = queue_rx m ++ [(le_bytes (Z.to_nat (rbytes (cfg m))) 305419896, 1)] /\
  from_bytes (le_bytes (Z.to_nat (rbytes (cfg m))) 305419896) = 305419896.
Proof.
  cbv zeta.
  pose proof (read_beat_completes
    (mst (act (AReadNowait 32 (PBytes []) false) (start cfg32)))
    (mkBeat false 32 [] (-1) false 1) []
    busy_sample [busy_sample; busy_sample]
    [mkSample false false false 0 0] (ok_sample 305419896)
    eq_refl eq_refl ltac:(discriminate)
    ltac:(lazy; split; [discriminate|reflexivity])
    ltac:(repeat constructor) eq_refl eq_refl
    ltac:(repeat constructor) eq_refl eq_refl eq_refl
    (or_introl eq_refl)
    ltac:(lazy; split; [discriminate|reflexivity])) as H.
  cbv zeta in H.
  destruct H as (_ & _ & _ & _ & _ & _ & _ & Hq & Hb & _).
  split; [exact Hq|exact Hb].
Defined.

(** ** Beat ids are consecutive *)

Lemma map_seq_shift {A} (f : nat -> A) (k : nat) : forall n,
  map f (seq n k) = map (fun j => f (n + j)%nat) (seq 0 k).
Proof.
  induction k as [|k IH]; intros n; cbn [seq map]; [reflexivity|].
  f_equal; [f_equal; lia|].
  rewrite IH, <- seq_shift, map_map.
  apply map_ext. intros j. f_equal. lia.
Qed.

Lemma ids_after_app t n k :
  ids_after t n ++ ids_after (t + Z.of_nat n) k = ids_after t (n + k).
Proof.
  unfold ids_after. rewrite seq_app, map_app. f_equal.
  cbn [Nat.add]. rewrite (map_seq_shift _ k n).
  apply map_ext. intros j. cbv beta. lia.
Qed.

Lemma assigned_ids_consecutive acts : forall y,
  assigned_ids acts y
  = ids_after (tx_id (mst y)) (length (assigned_ids acts y)) /\
  tx_id (mst (run acts y))
  = tx_id (mst y) + Z.of_nat (length (assigned_ids acts y)).
Proof.
  induction acts as [|a acts IH]; intros y; cbn [assigned_ids run].
  - cbn. split; [reflexivity|lia].
  - destruct (IH (act a y)) as [Hids Ht].
    destruct (assigned_next a y) as (n & Ha & Hn).
    assert (Hlen : length (assigned a y) = n).
    { rewrite Ha. unfold ids_after. now rewrite length_map, length_seq. }
    rewrite length_app, Hlen. split.
    + rewrite <- ids_after_app. rewrite <- Ha at 1. f_equal.
      rewrite Hids at 1. now rewrite Hn.
    + rewrite Ht, Hn. lia.
Qed.

(** From [__init__] on (line 88 and the two enqueueing loops), whatever
    the calls and however they are interleaved with the engine, [clear]
    and [_restart]: the [k]-th beat ever enqueued has id [k], counting
    from 1, and [tx_id] is the number of beats enqueued so far.  Ids are
    used without gaps, and [clear] does not return any. *)
Theorem beat_ids_count_from_one (c : Config) (acts : list action) :
  let ids := assigned_ids acts (start c) in
  ids = ids_after 0 (length ids) /\
  (forall k id, nth_error ids k = Some id -> id = Z.of_nat k + 1) /\
  tx_id (mst (run acts (start c))) = Z.of_nat (length ids).
Proof.
  cbv zeta.
  destruct (assigned_ids_consecutive acts (start c)) as [Hids Ht].
  cbn [start mst init tx_id] in Hids, Ht.
  split; [exact Hids|]. split; [|rewrite Ht; lia].
  intros k id Hk. rewrite Hids in Hk. unfold ids_after in Hk.
  rewrite nth_error_map in Hk.
  destruct (nth_error (seq 0 _) k) as [j|] eqn:Ej; [|discriminate].
  cbn [option_map] in Hk.
  assert (Hid : id = 0 + 1 + Z.of_nat j) by congruence.
  assert (Hlt : (k < length (seq 0 (length (assigned_ids acts (start c)))))%nat)
    by (apply nth_error_Some; congruence).
  rewrite length_seq in Hlt.
  rewrite nth_error_seq in Ej. apply Nat.ltb_lt in Hlt. rewrite Hlt in Ej.
  assert (Hj : j = k) by (cbn [Nat.add] in Ej; congruence).
  lia.
Qed.

(** ** A read value that does not fit [rbytes] bytes *)

(** Line 414: [to_bytes] raises when the sampled value needs more than
    [rbytes] bytes, which a read width that is not a multiple of 8 allows.
    The beat had passed the response check and the verification; the
    engine ends with [OverflowError], the read signals already released,
    and nothing is delivered. *)
Theorem read_capture_overflow (m : Master) (b : Beat) (s : Sample) :
  contract_ok (b_error_expected b) (response s) = true ->
  b_data b = [] \/ from_bytes (b_data b) = readdata s ->
  2 ^ (8 * rbytes (cfg m)) <= readdata s ->
  exists m',
    read_complete b s m = Raised OverflowError m' /\
    queue_rx m' = queue_rx m /\
    bus m' = release_read (bus m) /\
    forall cc,
      readdatavalid s = true -> timed_out (cfg m) (cc + 1) = false ->
      on_edge s (mkSys m (LReadResp b cc)) = mkSys m' (LDead OverflowError).
Proof.
  intros Hc Hd Hr.
  assert (Hrun : read_complete b s m
    = Raised OverflowError
        (add_log Info (MsgValueRead (readdata s)) (set_bus release_read m))).
  { rewrite read_complete_spec. cbv zeta. rewrite Hc.
    rewrite read_capture_spec. cbv zeta. cbn [cfg set_bus queue_rx].
    assert (Hm : match b_data b with
                 | [] => true
                 | _ :: _ => from_bytes (b_data b) =? readdata s
                 end = true).
    { destruct Hd as [Hd|Hd]; [now rewrite Hd|].
      destruct (b_data b); [reflexivity|]. now apply Z.eqb_eq. }
    rewrite Hm. unfold to_bytes.
    destruct (readdata s <? 0); cbn [orb]; [reflexivity|].
    destruct (2 ^ (8 * rbytes (cfg m)) <=? readdata s) eqn:E; [reflexivity|].
    lia. }
  eexists. split; [exact Hrun|]. split; [reflexivity|].
  split; [reflexivity|].
  intros cc Ev Et.
  unfold on_edge. cbn [eng mst engine_edge].
  unfold bind, gets. rewrite Et. unfold read_wait_response. rewrite Ev.
  cbn [negb]. now rewrite Hrun.
Qed.

Lemma read_capture_overflow_witness :
  exists m',
    read_complete (mkBeat false 0 [] (-1) false 1)
      (mkSample false false true 0 256) (init (mkConfig 16 32 12 4 1000))
    = Raised OverflowError m' /\
    queue_rx m' = [].
Proof.
  destruct (read_capture_overflow (init (mkConfig 16 32 12 4 1000))
              (mkBeat false 0 [] (-1) false 1)
              (mkSample false false true 0 256)
              eq_refl (or_introl eq_refl) ltac:(discriminate))
    as (m' & Hr & Hq & _).
  exists m'. split; [exact Hr|exact Hq].
Defined.

(** ** The bus after a timeout *)

(** A wait loop whose budget [T >= 0] runs out: [max 1 T] cycles are
    waited, the last of them is not looked at. *)
Lemma phase_timeout_run ph b m ss s :
  0 <= timeout_cycles (cfg m) ->
  Forall (fun x => phase_blocked ph x = true) ss ->
  Z.of_nat (length ss) = Z.max 1 (timeout_cycles (cfg m)) - 1 ->
  on_edges (ss ++ [s]) (mkSys m (phase_loc ph b 0))
  = mkSys
      (add_log Critical
         (MsgExn (phase_timeout ph (Z.max 1 (timeout_cycles (cfg m)))
                    (b_addr b))) m)
      (LDead (phase_timeout ph (Z.max 1 (timeout_cycles (cfg m)))
                (b_addr b))).
Proof.
  intros HT Hall Hlen. rewrite on_edges_app.
  assert (Hrun : on_edges ss (mkSys m (phase_loc ph b 0))
                 = mkSys m (phase_loc ph b (0 + Z.of_nat (length ss)))).
  { destruct ss as [|s0 ss'] eqn:Ess; [reflexivity|].
    rewrite <- Ess in *. apply phase_edges_blocked; trivial.
    apply timed_out_false. rewrite Ess in Hlen. cbn [length] in Hlen.
    rewrite Ess. cbn [length]. lia. }
  rewrite Hrun. cbn [on_edges]. unfold on_edge. cbn [eng mst].
  rewrite phase_edge_timeout by (apply timed_out_true; lia).
  cbn [settle]. rewrite Hlen.
  replace (0 + (Z.max 1 (timeout_cycles (cfg m)) - 1) + 1)
    with (Z.max 1 (timeout_cycles (cfg m))) by lia.
  reflexivity.
Qed.

(** What the bus shows after a timeout (lines 299-323 and 360-378), the
    budget being [T >= 0] and [ss] the [max 1 T - 1] cycles waited after
    the first.  A write that is not accepted leaves [write] asserted with
    its address; a write without response leaves the signals released;
    a read leaves [read] asserted with its address in both cases, since
    the read signals are released only when the data arrives. *)
Theorem timeout_leaves_bus (m : Master) (b : Beat) (rest : list Beat)
    (ss : list Sample) (s : Sample) :
  queue_tx m = b :: rest ->
  wbytes (cfg m) <> 0 ->
  0 <= b_addr b / wbytes (cfg m) < 2 ^ address_width (cfg m) ->
  0 <= timeout_cycles (cfg m) ->
  Z.of_nat (length ss) = Z.max 1 (timeout_cycles (cfg m)) - 1 ->
  let T := Z.max 1 (timeout_cycles (cfg m)) in
  let y0 := settle (run_loop m) in
  (b_write b = true ->
   (forall s0,
      waitrequest s0 = true ->
      Forall (fun x => waitrequest x = true) ss ->
      let y := on_edges (s0 :: ss ++ [s]) y0 in
      eng y = LDead (WriteTimeout T (b_addr b)) /\
      bus (mst y) = bus (mst y0) /\
      bus_write (bus (mst y)) = 1 /\
      bus_address (bus (mst y)) = b_addr b / wbytes (cfg m)) /\
   (forall sa,
      waitrequest sa = false -> writeresponsevalid sa = false ->
      Forall (fun x => writeresponsevalid x = false) ss ->
      let y := on_edges (sa :: ss ++ [s]) y0 in
      eng y = LDead (WriteResponseTimeout T (b_addr b)) /\
      bus (mst y) = release_write (bus m))) /\
  (b_write b = false ->
   (forall s1 s0,
      waitrequest s0 = true ->
      Forall (fun x => waitrequest x = true) ss ->
      let y := on_edges (s1 :: s0 :: ss ++ [s]) y0 in
      eng y = LDead (ReadTimeout T (b_addr b)) /\
      bus_read (bus (mst y)) = 1 /\
      bus_address (bus (mst y)) = b_addr b / wbytes (cfg m)) /\
   (forall s1 sa,
      waitrequest sa = false -> readdatavalid sa = false ->
      Forall (fun x => readdatavalid x = false) ss ->
      let y := on_edges (s1 :: sa :: ss ++ [s]) y0 in
      eng y = LDead (ReadResponseTimeout T (b_addr b)) /\
      bus_read (bus (mst y)) = 1 /\
      bus_address (bus (mst y)) = b_addr b / wbytes (cfg m))).
Proof.
  intros Hq Hw Hr HT Hlen. cbv zeta.
  rewrite (run_loop_cons m b rest Hq).
  rewrite issue_in_range by (cbn [cfg set_queue_tx]; assumption).
  cbv zeta. split; intros Hwr; rewrite Hwr; cbn [settle]; split.
  - intros s0 Hs0 Hall. cbn [on_edges].
    match goal with
    | |- context [mkSys ?x (LWriteIssued b)] => set (m0 := x)
    end.
    assert (Hy : on_edges (ss ++ [s]) (on_edge s0 (mkSys m0 (LWriteIssued b)))
                 = mkSys (add_log Critical
                            (MsgExn (WriteTimeout
                               (Z.max 1 (timeout_cycles (cfg m))) (b_addr b)))
                            m0)
                     (LDead (WriteTimeout
                               (Z.max 1 (timeout_cycles (cfg m))) (b_addr b)))).
    { unfold on_edge. cbn [eng mst engine_edge].
      unfold write_wait_accept. rewrite Hs0. cbn [ret settle].
      change (LWriteAccept b 0) with (phase_loc WriteAccept b 0).
      exact (phase_timeout_run WriteAccept b m0 ss s HT Hall Hlen). }
    rewrite Hy. cbn. repeat split.
  - intros sa Ha Hv Hall. cbn [on_edges].
    match goal with
    | |- context [mkSys ?x (LWriteIssued b)] => set (m0 := x)
    end.
    assert (Hall' : Forall (fun x => phase_blocked WriteResponse x = true) ss).
    { apply Forall_forall. intros x Hx. cbn [phase_blocked].
      rewrite Forall_forall in Hall. now rewrite (Hall x Hx). }
    assert (Hy : on_edges (ss ++ [s]) (on_edge sa (mkSys m0 (LWriteIssued b)))
                 = mkSys (add_log Critical
                            (MsgExn (WriteResponseTimeout
                               (Z.max 1 (timeout_cycles (cfg m))) (b_addr b)))
                            (set_bus release_write m0))
                     (LDead (WriteResponseTimeout
                               (Z.max 1 (timeout_cycles (cfg m))) (b_addr b)))).
    { unfold on_edge. cbn [eng mst engine_edge].
      unfold write_wait_accept, bind, modify. rewrite Ha.
      unfold write_wait_response. rewrite Hv. cbn [negb ret settle].
      change (LWriteResp b 0) with (phase_loc WriteResponse b 0).
      exact (phase_timeout_run WriteResponse b (set_bus release_write m0)
               ss s HT Hall' Hlen). }
    rewrite Hy. cbn. repeat split.
  - intros s1 s0 Hs0 Hall. cbn [on_edges].
    match goal with
    | |- context [mkSys ?x (LReadSetup b ?wa)] => set (m0 := x); set (w := wa)
    end.
    assert (Hy1 : on_edge s1 (mkSys m0 (LReadSetup b w))
                  = mkSys (set_bus (fun o =>
                             mkBusOut 1 (bus_write o) w (bus_writedata o)
                               (bus_byteenable o)) m0) (LReadIssued b))
      by reflexivity.
    rewrite Hy1.
    match goal with
    | |- context [mkSys ?x (LReadIssued b)] => set (m1 := x)
    end.
    assert (Hy : on_edges (ss ++ [s]) (on_edge s0 (mkSys m1 (LReadIssued b)))
                 = mkSys (add_log Critical
                            (MsgExn (ReadTimeout
                               (Z.max 1 (timeout_cycles (cfg m))) (b_addr b)))
                            m1)
                     (LDead (ReadTimeout
                               (Z.max 1 (timeout_cycles (cfg m))) (b_addr b)))).
    { unfold on_edge. cbn [eng mst engine_edge].
      unfold read_wait_accept. rewrite Hs0. cbn [ret settle].
      change (LReadAccept b 0) with (phase_loc ReadAccept b 0).
      exact (phase_timeout_run ReadAccept b m1 ss s HT Hall Hlen). }
    rewrite Hy. cbn. repeat split.
  - intros s1 sa Ha Hv Hall. cbn [on_edges].
    match goal with
    | |- context [mkSys ?x (LReadSetup b ?wa)] => set (m0 := x); set (w := wa)
    end.
    assert (Hy1 : on_edge s1 (mkSys m0 (LReadSetup b w))
                  = mkSys (set_bus (fun o =>
                             mkBusOut 1 (bus_write o) w (bus_writedata o)
                               (bus_byteenable o)) m0) (LReadIssued b))
      by reflexivity.
    rewrite Hy1.
    match goal with
    | |- context [mkSys ?x (LReadIssued b)] => set (m1 := x)
    end.
    assert (Hall' : Forall (fun x => phase_blocked ReadResponse x = true) ss).
    { apply Forall_forall. intros x Hx. cbn [phase_blocked].
      rewrite Forall_forall in Hall. now rewrite (Hall x Hx). }
    assert (Hy : on_edges (ss ++ [s]) (on_edge sa (mkSys m1 (LReadIssued b)))
                 = mkSys (add_log Critical
                            (MsgExn (ReadResponseTimeout
                               (Z.max 1 (timeout_cycles (cfg m))) (b_addr b)))
                            m1)
                     (LDead (ReadResponseTimeout
                               (Z.max 1 (timeout_cycles (cfg m))) (b_addr b)))).
    { unfold on_edge. cbn [eng mst engine_edge].
      unfold read_wait_accept. rewrite Ha.
      unfold read_wait_response. rewrite Hv. cbn [negb ret settle].
      change (LReadResp b 0) with (phase_loc ReadResponse b 0).
      exact (phase_timeout_run ReadResponse b m1 ss s HT Hall' Hlen). }
    rewrite Hy. cbn. repeat split.
Qed.

Lemma timeout_leaves_bus_witness :
  let m := set_queue_tx [mkBeat true 16 [] (-1) false 1]
             (init (mkConfig 16 32 32 4 2)) in
  let y := on_edges [busy_sample; busy_sample; busy_sample]
             (settle (run_loop m)) in
  eng y = LDead (WriteTimeout 2 16) /\ bus_write (bus (mst y)) = 1.
Proof.
  cbv zeta.
  pose proof (timeout_leaves_bus
    (set_queue_tx [mkBeat true 16 [] (-1) false 1]
       (init (mkConfig 16 32 32 4 2)))
    (mkBeat true 16 [] (-1) false 1) [] [busy_sample] busy_sample
    eq_refl ltac:(discriminate)
    ltac:(lazy; split; [discriminate|reflexivity])
    ltac:(discriminate) eq_refl) as H.
  cbv zeta in H. destruct H as [H _].
  destruct (H eq_refl) as [H1 _].
  destruct (H1 busy_sample eq_refl ltac:(repeat constructor))
    as (He & _ & Hw & _).
  split; [exact He|exact Hw].
Defined.

(** ** What only grows *)

Ltac log_solve :=
  first [ exists []; now rewrite app_nil_r
        | rewrite <- ?app_assoc; eexists; reflexivity ].

Lemma monotone_refl m : monotone_frame m m.
Proof.
  unfold monotone_frame. repeat split; auto; [lia|log_solve].
Qed.

Lemma monotone_trans m1 m2 m3 :
  monotone_frame m1 m2 -> monotone_frame m2 m3 -> monotone_frame m1 m3.
Proof.
  intros (Hc1 & Ht1 & He1 & l1 & Hl1) (Hc2 & Ht2 & He2 & l2 & Hl2).
  unfold monotone_frame. repeat split; auto; [congruence|lia|].
  exists (l1 ++ l2). rewrite Hl2, Hl1. now rewrite app_assoc.
Qed.

Lemma engine_edge_monotone s l m :
  monotone_frame m (mst (settle (engine_edge s l m))).
Proof.
  destruct l; cbn [engine_edge]; unfold monotone_frame; unfold_engine;
    repeat break_match; cbn; repeat split; auto; try lia; try log_solve.
Qed.

Lemma engine_wake_monotone l m :
  monotone_frame m (mst (settle (engine_wake l m))).
Proof.
  destruct l; cbn [engine_wake];
    try (exact (engine_edge_monotone busy_sample LStart m));
    apply monotone_refl.
Qed.

(** An enqueueing call changes the transaction queue, the id counter,
    [sync] and [_idle], and nothing else. *)
Lemma enqueue_untouched a y :
  is_enqueue a = true ->
  bus (mst (act a y)) = bus (mst y) /\
  queue_rx (mst (act a y)) = queue_rx (mst y) /\
  exception_enabled (mst (act a y)) = exception_enabled (mst y) /\
  exception_occurred (mst (act a y)) = exception_occurred (mst y) /\
  log (mst (act a y)) = log (mst y) /\
  cfg (mst (act a y)) = cfg (mst y) /\
  tx_id (mst y) <= tx_id (mst (act a y)) /\
  eng (act a y) = eng y.
Proof.
  destruct a as [s| |addr data strb ee|addr data ee| |rx_id|v|];
    try discriminate; intros _; cbn [act]; unfold on_master; cbn [mst eng].
  - destruct (write_nowait_frame addr data strb ee (mst y))
      as (beats & mq & Ha & _ & [Hr|[[e Hr] Hn]]);
      rewrite Hr; cbn [final]; unfold appended in Ha; subst mq; cbn;
      repeat split; lia.
  - destruct (read_nowait_frame addr data ee (mst y))
      as (beats & mq & Ha & _ & [[Hr _]|[[e Hr] Hn]]);
      rewrite Hr; cbn [final]; unfold appended in Ha; subst mq; cbn;
      repeat split; lia.
Qed.

Lemma act_monotone a y : monotone_frame (mst y) (mst (act a y)).
Proof.
  destruct (is_enqueue a) eqn:Hq.
  - destruct (enqueue_untouched a y Hq)
      as (_ & _ & _ & He & Hl & Hc & Ht & _).
    unfold monotone_frame. repeat split; auto; [congruence|].
    rewrite Hl. log_solve.
  - destruct a; try discriminate; cbn [act].
    + apply engine_edge_monotone.
    + destruct (sync (mst y)); [apply engine_wake_monotone|].
      apply monotone_refl.
    + unfold monotone_frame. cbn. repeat split; auto; [lia|log_solve].
    + unfold on_master. cbn [mst]. rewrite read_search_final.
      unfold monotone_frame. cbn. repeat split; auto; [lia|log_solve].
    + unfold monotone_frame. cbn. repeat split; auto; [lia|log_solve].
    + apply monotone_refl.
Qed.

Lemma run_monotone acts : forall y, monotone_frame (mst y) (mst (run acts y)).
Proof.
  induction acts as [|a acts IH]; intros y; cbn [run].
  - apply monotone_refl.
  - eapply monotone_trans; [apply act_monotone|apply IH].
Qed.

(** The flag is raised only on a beat whose response breaks the
    contract. *)
Lemma write_complete_flag b s m :
  exception_occurred (final (write_complete b s m)) = true ->
  exception_occurred m = true \/
  contract_ok (b_error_expected b) (response s) = false.
Proof.
  unfold write_complete, bind, ret. rewrite write_check_response_spec.
  cbv zeta.
  destruct (contract_ok (b_error_expected b) (response s));
    [now left|now right].
Qed.

Lemma write_wait_response_flag b cc s m :
  exception_occurred (final (write_wait_response b cc s m)) = true ->
  exception_occurred m = true \/
  contract_ok (b_error_expected b) (response s) = false.
Proof.
  unfold write_wait_response.
  destruct (negb (writeresponsevalid s)); [now left|].
  apply write_complete_flag.
Qed.

Lemma write_wait_accept_flag b cc s m :
  exception_occurred (final (write_wait_accept b cc s m)) = true ->
  exception_occurred m = true \/
  contract_ok (b_error_expected b) (response s) = false.
Proof.
  unfold write_wait_accept.
  destruct (waitrequest s); [now left|].
  unfold bind, modify. intros H.
  apply write_wait_response_flag in H. exact H.
Qed.

Lemma read_capture_flag b s m :
  exception_occurred (final (read_capture b s m)) = exception_occurred m.
Proof.
  rewrite read_capture_spec. cbv zeta.
  destruct (match b_data b with
            | [] => true
            | _ :: _ => from_bytes (b_data b) =? readdata s
            end); [|reflexivity].
  destruct (to_bytes (rbytes (cfg m)) (readdata s)); reflexivity.
Qed.

Lemma read_complete_flag b s m :
  exception_occurred (final (read_complete b s m)) = true ->
  exception_occurred m = true \/
  contract_ok (b_error_expected b) (response s) = false.
Proof.
  rewrite read_complete_spec. cbv zeta.
  destruct (contract_ok (b_error_expected b) (response s));
    [|now right].
  rewrite read_capture_flag. now left.
Qed.

Lemma read_wait_response_flag b cc s m :
  exception_occurred (final (read_wait_response b cc s m)) = true ->
  exception_occurred m = true \/
  contract_ok (b_error_expected b) (response s) = false.
Proof.
  unfold read_wait_response.
  destruct (negb (readdatavalid s)); [now left|].
  apply read_complete_flag.
Qed.

Lemma read_wait_accept_flag b cc s m :
  exception_occurred (final (read_wait_accept b cc s m)) = true ->
  exception_occurred m = true \/
  contract_ok (b_error_expected b) (response s) = false.
Proof.
  unfold read_wait_accept.
  destruct (waitrequest s); [now left|].
  apply read_wait_response_flag.
Qed.

Lemma run_loop_flag m :
  exception_occurred (final (run_loop m)) = exception_occurred m.
Proof.
  unfold run_loop, issue, bind, gets, modify, ret, raise.
  destruct (queue_tx m) as [|b rest]; [reflexivity|].
  cbn [cfg set_queue_tx].
  destruct (wbytes (cfg m) =? 0); [reflexivity|].
  destruct ((b_addr b / wbytes (cfg m) <? 0)
            || (2 ^ address_width (cfg m) <=? b_addr b / wbytes (cfg m)));
    [reflexivity|].
  destruct (b_write b); reflexivity.
Qed.

Lemma final_settle (o : Outcome loc) : mst (settle o) = final o.
Proof. destruct o; reflexivity. Qed.

Lemma flag_raised_by_violation s l m :
  exception_occurred m = false ->
  exception_occurred (mst (settle (engine_edge s l m))) = true ->
  exists b, in_flight l = Some b /\
            contract_ok (b_error_expected b) (response s) = false.
Proof.
  intros Hf. rewrite final_settle.
  assert (Hor : forall b,
    exception_occurred m = true \/
    contract_ok (b_error_expected b) (response s) = false ->
    contract_ok (b_error_expected b) (response s) = false)
    by (intros b [H|H]; [congruence|exact H]).
  destruct l; cbn [engine_edge in_flight].
  - rewrite run_loop_flag. congruence.
  - cbn. congruence.
  - intros H. exists b. split; [reflexivity|].
    apply Hor. now apply write_wait_accept_flag in H.
  - unfold bind, gets.
    destruct (timed_out (cfg m) (cycle_count + 1)); [cbn; congruence|].
    intros H. exists b. split; [reflexivity|].
    apply Hor. now apply write_wait_accept_flag in H.
  - unfold bind, gets.
    destruct (timed_out (cfg m) (cycle_count + 1)); [cbn; congruence|].
    intros H. exists b. split; [reflexivity|].
    apply Hor. now apply write_wait_response_flag in H.
  - cbn. congruence.
  - intros H. exists b. split; [reflexivity|].
    apply Hor. now apply read_wait_accept_flag in H.
  - unfold bind, gets.
    destruct (timed_out (cfg m) (cycle_count + 1)); [cbn; congruence|].
    intros H. exists b. split; [reflexivity|].
    apply Hor. now apply read_wait_accept_flag in H.
  - unfold bind, gets.
    destruct (timed_out (cfg m) (cycle_count + 1)); [cbn; congruence|].
    intros H. exists b. split; [reflexivity|].
    apply Hor. now apply read_wait_response_flag in H.
  - unfold bind, modify.
    rewrite run_loop_flag. cbn. congruence.
  - cbn. congruence.
Qed.

(** Over any sequence of actions the configuration stays as [__init__]
    read it, the id counter never goes back, the log is only appended to,
    and [exception_occurred] once set stays set: nothing in the driver
    clears it.  It is raised only by the engine on a clock edge, for the
    beat in flight, when the sampled response breaks the contract with
    [error_expected]. *)
Theorem exception_flag_sticky (acts : list action) (y : Sys) :
  (cfg (mst (run acts y)) = cfg (mst y) /\
   tx_id (mst y) <= tx_id (mst (run acts y)) /\
   (exception_occurred (mst y) = true ->
    exception_occurred (mst (run acts y)) = true) /\
   exists l, log (mst (run acts y)) = log (mst y) ++ l) /\
  (forall a,
     exception_occurred (mst y) = false ->
     exception_occurred (mst (act a y)) = true ->
     exists s b,
       a = AEdge s /\ in_flight (eng y) = Some b /\
       contract_ok (b_error_expected b) (response s) = false).
Proof.
  split; [exact (run_monotone acts y)|].
  intros a Hf Ht.
  destruct (is_enqueue a) eqn:Hq.
  - destruct (enqueue_untouched a y Hq) as (_ & _ & _ & He & _).
    congruence.
  - destruct a; try discriminate; cbn [act] in Ht.
    + destruct (flag_raised_by_violation s (eng y) (mst y) Hf Ht)
        as (b & Hb & Hc).
      exists s, b. auto.
    + exfalso. destruct (sync (mst y)); [|congruence].
      unfold on_wake in Ht.
      destruct (eng y); cbn [engine_wake] in Ht;
        try (unfold ret in Ht; cbn [settle mst] in Ht; congruence).
      destruct (flag_raised_by_violation busy_sample LStart (mst y) Hf Ht)
        as (b & Hb & _).
      discriminate.
    + cbn in Ht. congruence.
    + unfold on_master in Ht. cbn [mst] in Ht.
      rewrite read_search_final in Ht. cbn in Ht. congruence.
    + cbn in Ht. congruence.
    + cbn in Ht. congruence.
Qed.

(** ** Who drives the bus *)

Lemma caller_action_untouched a y :
  is_engine a = false ->
  bus (mst (act a y)) = bus (mst y) /\
  exception_occurred (mst (act a y)) = exception_occurred (mst y) /\
  log (mst (act a y)) = log (mst y).
Proof.
  intros He. destruct (is_enqueue a) eqn:Hq.
  - destruct (enqueue_untouched a y Hq) as (Hb & _ & _ & Hx & Hl & _).
    auto.
  - destruct a; try discriminate; cbn [act]; unfold on_master;
      try rewrite read_search_final; cbn; auto.
Qed.

(** The calls never touch the bus: over any sequence of [write_nowait],
    [read_nowait], [clear], response scans, changes of
    [exception_enabled] and [_restart], with no resumption of the engine
    in between, the bus signals, [exception_occurred] and the log stay as
    they were. *)
Theorem callers_never_drive_bus (acts : list action) (y : Sys) :
  Forall (fun a => is_engine a = false) acts ->
  bus (mst (run acts y)) = bus (mst y) /\
  exception_occurred (mst (run acts y)) = exception_occurred (mst y) /\
  log (mst (run acts y)) = log (mst y).
Proof.
  revert y. induction acts as [|a acts IH]; intros y Hall; cbn [run].
  - auto.
  - inversion Hall as [|? ? Ha Hrest]; subst.
    destruct (IH (act a y) Hrest) as (Hb & Hx & Hl).
    destruct (caller_action_untouched a y Ha) as (Hb' & Hx' & Hl').
    repeat split; congruence.
Qed.

Lemma callers_never_drive_bus_witness :
  bus (mst (run [AWriteNowait 16 (PInt 7) (-1) false;
                 AReadNowait 32 (PBytes []) false; AClear; ARestart]
             (on_edges [busy_sample] (start cfg32))))
  = bus (mst (on_edges [busy_sample] (start cfg32))).
Proof.
  exact (proj1 (callers_never_drive_bus
           [AWriteNowait 16 (PInt 7) (-1) false;
            AReadNowait 32 (PBytes []) false; AClear; ARestart]
           (on_edges [busy_sample] (start cfg32))
           ltac:(repeat constructor))).
Defined.

(** ** After a fatal error *)

Lemma dead_step e a y :
  eng y = LDead e -> a <> ARestart ->
  eng (act a y) = LDead e /\
  bus (mst (act a y)) = bus (mst y) /\
  (idle_ev (mst y) = false -> idle_ev (mst (act a y)) = false) /\
  (forall b, In b (queue_tx (mst y)) ->
     In b (queue_tx (mst (act a y))) \/ a = AClear) /\
  (forall x, In x (queue_rx (mst (act a y))) -> In x (queue_rx (mst y))).
Proof.
  intros He Hr. destruct (is_enqueue a) eqn:Hq.
  - destruct (enqueue_untouched a y Hq)
      as (Hb & Hrx & _ & _ & _ & _ & _ & Hl).
    destruct (enqueue_idle a y Hq) as (_ & Hi & _).
    assert (Hqt : forall b, In b (queue_tx (mst y)) ->
                            In b (queue_tx (mst (act a y)))).
    { destruct a as [s| |addr data strb ee|addr data ee| |rx_id|v|];
        try discriminate; cbn [act]; unfold on_master; cbn [mst].
      - destruct (write_nowait_frame addr data strb ee (mst y))
          as (beats & mq & Ha & _ & [Hrun|[[x Hrun] _]]);
          rewrite Hrun; cbn [final]; unfold appended in Ha; subst mq; cbn;
          intros b Hb'; apply in_or_app; now left.
      - destruct (read_nowait_frame addr data ee (mst y))
          as (beats & mq & Ha & _ & [[Hrun _]|[[x Hrun] _]]);
          rewrite Hrun; cbn [final]; unfold appended in Ha; subst mq; cbn;
          intros b Hb'; apply in_or_app; now left. }
    repeat split; auto; try congruence;
      try (intros x; now rewrite Hrx).
  - destruct a; try discriminate; try congruence; cbn [act].
    + unfold on_edge. rewrite He. cbn. repeat split; auto.
    + destruct (sync (mst y)); [|repeat split; auto].
      unfold on_wake. rewrite He. cbn. repeat split; auto.
    + cbn. repeat split; auto. intros x [].
    + unfold on_master. cbn [mst eng]. rewrite read_search_final. cbn.
      repeat split; auto. intros x. apply rx_scan_incl.
    + cbn. repeat split; auto.
Qed.

(** Once [_run] has raised, in a state the driver can reach on a
    byte-wide bus: until [_restart] the engine stays ended whatever is
    called and however many clock edges pass; the bus keeps the values
    it had, no response is delivered, [_idle] stays clear, so a [write],
    [read] or [wait] blocked on it does not return. *)
Theorem dead_engine_stays_dead (c : Config) (acts acts' : list action)
    (e : Exn) :
  byte_wide c ->
  eng (run acts (start c)) = LDead e ->
  Forall (fun a => a <> ARestart) acts' ->
  let y := run acts (start c) in
  let y' := run acts' y in
  idle_ev (mst y) = false /\
  eng y' = LDead e /\
  bus (mst y') = bus (mst y) /\
  idle_ev (mst y') = false /\
  (forall x, In x (queue_rx (mst y')) -> In x (queue_rx (mst y))) /\
  (forall k, caller_idle k (mst y') = Ok k (mst y')).
Proof.
  intros Hbw He Hall. cbv zeta.
  assert (Hs : idle_sound (run acts (start c)))
    by (apply idle_sound_run; [exact Hbw|apply idle_sound_start]).
  assert (Hi : idle_ev (mst (run acts (start c))) = false).
  { destruct (idle_ev (mst (run acts (start c)))) eqn:E; [|reflexivity].
    destruct (Hs E) as [_ Hr]. rewrite He in Hr. discriminate. }
  split; [exact Hi|].
  set (y := run acts (start c)) in *. clearbody y. clear Hs.
  assert (Hgen : eng (run acts' y) = LDead e /\
                 bus (mst (run acts' y)) = bus (mst y) /\
                 idle_ev (mst (run acts' y)) = false /\
                 (forall x, In x (queue_rx (mst (run acts' y))) ->
                            In x (queue_rx (mst y)))).
  { revert y He Hi. induction acts' as [|a acts' IH]; intros y He Hi;
      cbn [run]; [auto|].
    inversion Hall as [|? ? Ha Hrest]; subst.
    destruct (dead_step e a y He Ha) as (He' & Hb' & Hi' & _ & Hrx').
    destruct (IH Hrest (act a y) He' (Hi' Hi)) as (H1 & H2 & H3 & H4).
    repeat split; auto; congruence. }
  destruct Hgen as (H1 & H2 & H3 & H4).
  repeat split; auto.
  intros k. unfold caller_idle, bind, gets. now rewrite H3.
Qed.

Lemma dead_engine_stays_dead_witness :
  let y := run [AWriteNowait 1048576 (PInt 7) (-1) false; AEdge busy_sample]
             (start cfg32) in
  let y' := run [AEdge busy_sample; AWriteNowait 16 (PInt 7) (-1) false;
                 AWake; AEdge busy_sample] y in
  eng y' = LDead (AddressOutOfRange 1048576 262144) /\
  idle_ev (mst y') = false /\
  caller_idle CWriteWait (mst y') = Ok CWriteWait (mst y').
Proof.
  cbv zeta.
  pose proof (dead_engine_stays_dead cfg32
    [AWriteNowait 1048576 (PInt 7) (-1) false; AEdge busy_sample]
    [AEdge busy_sample; AWriteNowait 16 (PInt 7) (-1) false;
     AWake; AEdge busy_sample]
    (AddressOutOfRange 1048576 262144)
    ltac:(cbv; repeat split; discriminate)
    eq_refl
    ltac:(repeat constructor; discriminate)) as H.
  cbv zeta in H. destruct H as (_ & He & _ & Hi & _ & Hk).
  split; [exact He|]. split; [exact Hi|exact (Hk CWriteWait)].
Defined.

(** ** First in, first out *)

Lemma act_queue_fifo a y :
  a <> AClear ->
  exists taken added,
    queue_tx (mst y) ++ added = taken ++ queue_tx (mst (act a y)) /\
    map b_id added = assigned a y /\
    (length taken <= if is_engine a then 1 else 0)%nat.
Proof.
  intros Hc. destruct (is_enqueue a) eqn:Hq; [|destruct (is_engine a) eqn:He].
  - destruct a as [s| |addr data strb ee|addr data ee| |rx_id|v|];
      try discriminate; cbn [act assigned is_engine]; unfold on_master;
      cbn [mst].
    + destruct (write_nowait_frame addr data strb ee (mst y))
        as (beats & mq & Ha & _ & [Hrun|[[x Hrun] _]]);
        rewrite Hrun; cbn [final]; unfold appended in Ha; subst mq; cbn;
        exists [], beats; rewrite skipn_app_exact; cbn; auto.
    + destruct (read_nowait_frame addr data ee (mst y))
        as (beats & mq & Ha & _ & [[Hrun _]|[[x Hrun] _]]);
        rewrite Hrun; cbn [final]; unfold appended in Ha; subst mq; cbn;
        exists [], beats; rewrite skipn_app_exact; cbn; auto.
  - assert (Has : assigned a y = [])
      by (destruct a; try discriminate; reflexivity).
    rewrite Has.
    destruct (act_engine_idle a y He)
      as [Heq|[(_ & Hsame & _)|[(_ & Hq0 & Hq1 & _)|(_ & [b Hb] & _)]]].
    + rewrite Heq. exists [], []. cbn. rewrite app_nil_r. auto.
    + rewrite Hsame. exists [], []. cbn. rewrite app_nil_r. auto.
    + rewrite Hq0, Hq1. exists [], []. cbn. auto.
    + exists [b], []. rewrite Hb. cbn. rewrite app_nil_r. auto.
  - assert (Has : assigned a y = [])
      by (destruct a; try discriminate; reflexivity).
    rewrite Has.
    assert (Hsame : queue_tx (mst (act a y)) = queue_tx (mst y)).
    { destruct a; try discriminate; try congruence; cbn [act];
        unfold on_master; try rewrite read_search_final; reflexivity. }
    rewrite Hsame. exists [], []. cbn. rewrite app_nil_r. auto.
Qed.

(** The transaction queue is first in, first out.  Over any sequence of
    actions without [clear], the beats queued at the start followed by
    the beats enqueued since, in the order of their ids, are the beats
    taken by the engine followed by the beats still queued: beats leave
    from the front only, at most one per resumption of the engine, and
    none is reordered, dropped or duplicated. *)
Theorem transaction_queue_fifo (acts : list action) (y : Sys) :
  Forall (fun a => a <> AClear) acts ->
  exists taken added,
    queue_tx (mst y) ++ added = taken ++ queue_tx (mst (run acts y)) /\
    map b_id added = assigned_ids acts y /\
    (length taken <= length (filter is_engine acts) <= length acts)%nat.
Proof.
  revert y. induction acts as [|a acts IH]; intros y Hall;
    cbn [run assigned_ids length filter].
  - exists [], []. cbn. rewrite app_nil_r. auto.
  - inversion Hall as [|? ? Ha Hrest]; subst.
    destruct (act_queue_fifo a y Ha) as (t1 & a1 & H1 & Hid1 & Hl1).
    destruct (IH (act a y) Hrest) as (t2 & a2 & H2 & Hid2 & Hl2).
    exists (t1 ++ t2), (a1 ++ a2). split; [|split].
    + rewrite app_assoc, H1, <- !app_assoc. f_equal. exact H2.
    + rewrite map_app. congruence.
    + rewrite length_app. destruct (is_engine a); cbn [length]; lia.
Qed.

Lemma transaction_queue_fifo_witness :
  exists taken added,
    added
    = taken ++ queue_tx (mst (run [AWriteNowait 16 (PInt 7) (-1) false;
                                  AReadNowait 32 (PBytes []) false;
                                  AEdge busy_sample] (start cfg32))) /\
    map b_id added = [1; 2] /\
    (length taken <= 3)%nat.
Proof.
  destruct (transaction_queue_fifo
              [AWriteNowait 16 (PInt 7) (-1) false;
               AReadNowait 32 (PBytes []) false;
               AEdge busy_sample] (start cfg32)
              ltac:(repeat constructor; discriminate))
    as (taken & added & Hq & Hid & Hl).
  exists taken, added. split; [exact Hq|]. split; [|].
  - rewrite Hid. reflexivity.
  - exact (Nat.le_trans _ _ _ (proj1 Hl) (proj2 Hl)).
Defined.

(** ** A blocking write of one beat *)

Lemma write_nowait_int_run addr v strb ee m :
  byte_wide (cfg m) ->
  let c := cfg m in
  let n := Z.max 1 (ceil_div (bit_length v) (wwidth c)) in
  let beats := loop_beats true (fun i => addr + i * wbytes c)
                 (write_data c (PInt v)) strb ee (tx_id m) (range n) in
  write_nowait addr (PInt v) strb ee m
  = Ok tt
      (set_idle false (set_sync true
         (set_queue_tx (queue_tx m ++ beats) (set_tx_id (tx_id m + n) m)))).
Proof.
  intros Hc c n beats.
  assert (Hw : 0 < wwidth c) by (destruct Hc as (Hw & _); exact Hw).
  pose proof (bit_length_nonneg v) as HL.
  assert (Hn : 1 <= n) by (unfold n; lia).
  assert (Hnum : (if 0 <? bit_length v
                  then py_ceil_div (bit_length v) (wwidth (cfg m))
                  else ret 1) m = Ok n m).
  { unfold n. rewrite <- num_beats_max by lia.
    unfold py_ceil_div. fold c.
    destruct (wwidth c =? 0) eqn:E0; [lia|]. now destruct (0 <? bit_length v). }
  pose proof (for_each_enqueue_run true (fun i => addr + i * wbytes c)
                (write_data c (PInt v)) strb ee (range n) m) as Hrun.
  unfold write_nowait. unfold bind at 1. unfold gets at 1.
  unfold bind at 1. rewrite Hnum. unfold bind at 1. fold c.
  match goal with
  | |- context [for_each ?f ?xs m] =>
      change (for_each f xs m) with
        (for_each (fun i =>
           datab <- match write_data c (PInt v) i with
                    | Some d => ret d
                    | None => raise OverflowError
                    end ;;
           enqueue true (addr + i * wbytes c) datab strb ee) (range n) m)
  end.
  rewrite Hrun
    by (apply Forall_forall; intros; now apply write_data_some).
  rewrite range_length by lia. reflexivity.
Qed.

Lemma bit_length_le v w : 0 <= v < 2 ^ w -> 0 <= w -> bit_length v <= w.
Proof.
  intros [H0 H1] Hw. destruct v as [|p|p]; cbn [bit_length Z.abs]; try lia.
  assert (Z.log2 (Z.pos p) < w) by (apply Z.log2_lt_pow2; lia). lia.
Qed.

(** A value that fits the write width is one beat carrying its [wbytes]
    little-endian bytes. *)
Lemma write_nowait_one_beat addr v strb ee m :
  byte_wide (cfg m) ->
  0 <= v < 2 ^ wwidth (cfg m) ->
  write_nowait addr (PInt v) strb ee m
  = Ok tt
      (set_idle false (set_sync true
         (set_queue_tx
            (queue_tx m
             ++ [mkBeat true addr (le_bytes (Z.to_nat (wbytes (cfg m))) v)
                   strb ee (tx_id m + 1)])
            (set_tx_id (tx_id m + 1) m)))).
Proof.
  intros Hc Hv.
  destruct (byte_wide_bytes _ Hc) as (H8 & Hb & _ & _).
  pose proof (write_nowait_int_run addr v strb ee m Hc) as Hrun.
  cbv zeta in Hrun.
  assert (Hn : Z.max 1 (ceil_div (bit_length v) (wwidth (cfg m))) = 1).
  { pose proof (bit_length_le v (wwidth (cfg m)) Hv ltac:(lia)) as HL.
    pose proof (ceil_div_least (bit_length v) (wwidth (cfg m)) 1
                  ltac:(lia) ltac:(lia)).
    lia. }
  rewrite Hn in Hrun. rewrite Hrun.
  change (range 1) with [0]. cbn [loop_beats write_data].
  rewrite Z.mul_0_r, Z.shiftr_0_r.
  unfold wdata_mask. rewrite land_mask by lia.
  rewrite Z.mod_small by exact Hv.
  rewrite to_bytes_fits by (rewrite <- H8; exact Hv).
  rewrite Z.mul_0_l, Z.add_0_r. reflexivity.
Qed.

Lemma write_beat_run m0 b ws rs sr :
  Forall (fun s => waitrequest s = true) ws ->
  within_budget (cfg m0) (length ws) = true ->
  waitrequest (hd sr rs) = false ->
  Forall (fun s => writeresponsevalid s = false) rs ->
  within_budget (cfg m0) (length rs) = true ->
  writeresponsevalid sr = true ->
  contract_ok (b_error_expected b) (response sr) = true ->
  on_edges (ws ++ rs ++ [sr]) (mkSys m0 (LWriteIssued b))
  = mkSys (set_bus release_write m0) LBeatEnd.
Proof.
  intros Hws Hwb Hacc Hrs Hrb Hv Hc.
  rewrite on_edges_app, (write_accept_run b m0 ws Hws Hwb).
  rewrite hd_tl_app. cbn [on_edges]. unfold on_edge at 1. cbn [eng mst].
  rewrite (write_accept_step b m0 (length ws) (hd sr rs) Hwb Hacc).
  rewrite (write_response_run b (set_bus release_write m0) rs sr Hrs Hv Hrb).
  now rewrite write_complete_ok by exact Hc.
Qed.


(** The blocking [write] of a value that fits the bus, on a driver whose
    engine waits for work with nothing queued (lines 105-156 and
    255-345): [write_nowait] enqueues one beat; the engine, woken, drives
    the value and the word address with [write] asserted; [_idle] stays
    clear while the beat waits for acceptance and until it has completed,
    so the call stays blocked; on the edge after the response the engine
    sets [_idle], the write signals being released, and the call
    returns. *)
Theorem blocking_write_one_beat (y : Sys) (addr P strb : Z) (ee : bool)
    (ws rs : list Sample) (sr s_end : Sample) :
  byte_wide (cfg (mst y)) ->
  eng y = LWaitWork ->
  queue_tx (mst y) = [] ->
  0 <= P < 2 ^ wwidth (cfg (mst y)) ->
  0 <= addr / wbytes (cfg (mst y)) < 2 ^ address_width (cfg (mst y)) ->
  Forall (fun s => waitrequest s = true) ws ->
  within_budget (cfg (mst y)) (length ws) = true ->
  waitrequest (hd sr rs) = false ->
  Forall (fun s => writeresponsevalid s = false) rs ->
  within_budget (cfg (mst y)) (length rs) = true ->
  writeresponsevalid sr = true ->
  contract_ok ee (response sr) = true ->
  let y1 := act (AWriteNowait addr (PInt P) strb ee) y in
  let y2 := act AWake y1 in
  let y3 := on_edges ws y2 in
  let y4 := on_edges (rs ++ [sr]) y3 in
  let y5 := on_edge s_end y4 in
  write addr (PInt P) strb ee (mst y) = Ok CWriteWait (mst y1) /\
  (bus_write (bus (mst y2)) = 1 /\
   bus_address (bus (mst y2)) = addr / wbytes (cfg (mst y)) /\
   bus_writedata (bus (mst y2)) = P /\
   bus (mst y3) = bus (mst y2)) /\
  (caller_idle CWriteWait (mst y1) = Ok CWriteWait (mst y1) /\
   caller_idle CWriteWait (mst y2) = Ok CWriteWait (mst y2) /\
   caller_idle CWriteWait (mst y3) = Ok CWriteWait (mst y3) /\
   caller_idle CWriteWait (mst y4) = Ok CWriteWait (mst y4)) /\
  (eng y4 = LBeatEnd /\ bus (mst y4) = release_write (bus (mst y))) /\
  (eng y5 = LWaitWork /\ bus (mst y5) = release_write (bus (mst y)) /\
   queue_tx (mst y5) = [] /\
   caller_idle CWriteWait (mst y5) = Ok (CReturned None) (mst y5)).
Proof.
  intros Hbw He Hq HP Hr Hws Hwb Hacc Hrs Hrb Hv Hc. cbv zeta.
  destruct (byte_wide_bytes _ Hbw) as (H8 & Hb & _ & _).
  pose proof (write_nowait_one_beat addr P strb ee (mst y) Hbw HP) as Hrun.
  rewrite Hq in Hrun. cbn [app] in Hrun.
  set (b := mkBeat true addr (le_bytes (Z.to_nat (wbytes (cfg (mst y)))) P)
              strb ee (tx_id (mst y) + 1)) in *.
  cbn [act]. unfold on_master, write, bind. cbn [mst eng].
  rewrite Hrun. cbn [final mst eng sync set_idle set_sync].
  match goal with
  | |- context [mkSys ?x (eng y)] => set (m1 := x)
  end.
  unfold on_wake. cbn [mst eng]. rewrite He. cbn [engine_wake].
  assert (Hq1 : queue_tx m1 = [b]) by reflexivity.
  rewrite (run_loop_cons m1 b [] Hq1).
  assert (Hcfg : cfg (set_queue_tx [] m1) = cfg (mst y)) by reflexivity.
  rewrite issue_in_range
    by (rewrite Hcfg; unfold b; cbn [b_addr]; first [assumption | lia]).
  cbv zeta. cbn [b_write b]. cbn [settle].
  match goal with
  | |- context [mkSys ?x (LWriteIssued b)] => set (m0 := x)
  end.
  assert (Hy3 : on_edges ws (mkSys m0 (LWriteIssued b))
                = mkSys m0 (write_accept_loc b (length ws)))
    by exact (write_accept_run b m0 ws Hws Hwb).
  assert (Hy4 : on_edges (rs ++ [sr]) (on_edges ws (mkSys m0 (LWriteIssued b)))
                = mkSys (set_bus release_write m0) LBeatEnd).
  { rewrite <- on_edges_app.
    exact (write_beat_run m0 b ws rs sr Hws Hwb Hacc Hrs Hrb Hv Hc). }
  rewrite Hy4, Hy3.
  rewrite beat_end_to_rest by reflexivity.
  assert (Hdata : Z.land (from_bytes (b_data b))
                    (wdata_mask (cfg (set_queue_tx [] m1))) = P).
  { rewrite Hcfg. unfold b. cbn [b_data]. unfold wdata_mask.
    rewrite land_mask by lia.
    rewrite from_bytes_le_bytes, Z2Nat.id by lia. rewrite <- H8.
    rewrite Z.mod_mod by (apply Z.pow_nonzero; lia).
    apply Z.mod_small. exact HP. }
  unfold caller_idle, bind, gets.
  cbn [mst eng bus set_bus add_log set_queue_tx set_sync set_idle idle_ev
       queue_tx bus_write bus_address bus_writedata release_write bus_read
       m0 m1 cfg b_addr b].
  split; [reflexivity|].
  split; [repeat split; try reflexivity; exact Hdata|].
  split; [repeat split|].
  split; [split; reflexivity|].
  repeat split.
Qed.

Lemma blocking_write_one_beat_witness :
  let y := on_edges [busy_sample] (start cfg32) in
  let y2 := act AWake (act (AWriteNowait 16 (PInt 3735928559) (-1) false) y) in
  let y5 := on_edge busy_sample
              (on_edges ([mkSample false false false 0 0]
                         ++ [mkSample false true false 0 0])
                 (on_edges [busy_sample; busy_sample] y2)) in
  bus_writedata (bus (mst y2)) = 3735928559 /\
  caller_idle CWriteWait (mst y2) = Ok CWriteWait (mst y2) /\
  caller_idle CWriteWait (mst y5) = Ok (CReturned None) (mst y5).
Proof.
  cbv zeta.
  pose proof (blocking_write_one_beat
    (on_edges [busy_sample] (start cfg32)) 16 3735928559 (-1) false
    [busy_sample; busy_sample] [mkSample false false false 0 0]
    (mkSample false true false 0 0) busy_sample
    ltac:(cbv; repeat split; discriminate) eq_refl eq_refl
    ltac:(lazy; split; [discriminate|reflexivity])
    ltac:(lazy; split; [discriminate|reflexivity])
    ltac:(repeat constructor) eq_refl eq_refl
    ltac:(repeat constructor) eq_refl eq_refl eq_refl) as H.
  cbv zeta in H.
  destruct H as (_ & (_ & _ & Hd & _) & (_ & H2 & _) & _ & (_ & _ & _ & H5)).
  split; [exact Hd|]. split; [exact H2|exact H5].
Defined.

(** ** The order of ids in the driver *)

Lemma subseq_refl l : subseq l l.
Proof. induction l; [constructor|apply subseq_keep; assumption]. Qed.

Lemma subseq_nil_l l : subseq [] l.
Proof. induction l; constructor; auto. Qed.

Lemma subseq_app l1 l1' l2 l2' :
  subseq l1 l1' -> subseq l2 l2' -> subseq (l1 ++ l2) (l1' ++ l2').
Proof.
  intros H1 H2. induction H1; cbn;
    [exact H2|apply subseq_skip|apply subseq_keep]; assumption.
Qed.

Lemma subseq_in l l' x : subseq l l' -> In x l -> In x l'.
Proof.
  induction 1 as [|y l l' _ IH|y l l' _ IH]; cbn; intros Hx; auto.
  destruct Hx; auto.
Qed.

Lemma subseq_forall (P : Z -> Prop) l l' :
  subseq l l' -> Forall P l' -> Forall P l.
Proof.
  intros Hs Hf. rewrite Forall_forall in *. intros x Hx.
  apply Hf. eapply subseq_in; eauto.
Qed.

Lemma subseq_sorted l l' :
  subseq l l' -> StronglySorted Z.lt l' -> StronglySorted Z.lt l.
Proof.
  induction 1 as [|y l l' Hs IH|y l l' Hs IH]; intros Hsort.
  - constructor.
  - inversion Hsort; subst. auto.
  - inversion Hsort as [|? ? Hrest Hall]; subst. constructor; auto.
    eapply subseq_forall; eauto.
Qed.

Lemma sorted_middle (l1 l2 : list Z) x :
  StronglySorted Z.lt (l1 ++ x :: l2) ->
  Forall (fun i => i < x) l1 /\ Forall (fun i => x < i) l2.
Proof.
  induction l1 as [|a l1 IH]; cbn; intros Hs.
  - inversion Hs; subst. split; [constructor|assumption].
  - inversion Hs as [|? ? Hrest Hall]; subst.
    destruct (IH Hrest) as [H1 H2]. split; [|exact H2].
    constructor; [|exact H1].
    rewrite Forall_forall in Hall. apply Hall.
    apply in_or_app. right. now left.
Qed.

Lemma rx_scan_suffix rx_id q :
  exists pre, q = pre ++ snd (rx_scan rx_id q).
Proof.
  induction q as [|[r t] q [pre IH]]; cbn.
  - exists []. reflexivity.
  - destruct (rx_id =? t); cbn.
    + exists [(r, t)]. reflexivity.
    + exists ((r, t) :: pre). cbn. now rewrite <- IH.
Qed.

Lemma run_loop_shape m l :
  in_flight l = None -> beat_shape m l (settle (run_loop m)).
Proof.
  intros Hl. unfold beat_shape.
  destruct (queue_tx m) as [|b rest] eqn:Hq.
  - left. rewrite run_loop_nil by exact Hq. cbn. rewrite Hl. auto.
  - right; left. rewrite (run_loop_cons _ _ _ Hq).
    split; [exact Hl|].
    unfold_engine. repeat break_match; cbn; (split; [reflexivity|]);
      exists b; split; auto.
Qed.

Lemma engine_edge_shape s l m :
  beat_shape m l (settle (engine_edge s l m)).
Proof.
  destruct l; cbn [engine_edge];
    lazymatch goal with
    | |- beat_shape _ LStart _ => now apply run_loop_shape
    | |- beat_shape _ LBeatEnd _ =>
        unfold bind, modify;
        destruct (run_loop_shape (set_sync true m) LBeatEnd eq_refl)
          as [H|[H|H]]; unfold beat_shape; cbn in *; tauto
    | _ =>
        unfold beat_shape; unfold_engine; repeat break_match; cbn;
        first [ left; repeat split; auto; fail
              | right; right; do 2 eexists; repeat split; reflexivity ]
    end.
Qed.

Lemma engine_wake_shape l m :
  beat_shape m l (settle (engine_wake l m)).
Proof.
  destruct l; cbn [engine_wake]; try (now apply run_loop_shape);
    left; cbn; auto.
Qed.

Lemma flight_ids_shrink l l' :
  in_flight l' = in_flight l \/ in_flight l' = None ->
  subseq (flight_ids l') (flight_ids l).
Proof.
  unfold flight_ids. intros [-> | ->];
    [apply subseq_refl|apply subseq_nil_l].
Qed.

Lemma beat_shape_line m l y' :
  beat_shape m l y' -> subseq (id_line y') (id_line (mkSys m l)).
Proof.
  unfold id_line. cbn [mst eng].
  intros [(Hrx & Htx & Hf)|[(Hl & Hrx & b & Htx & Hf)|
          (b & d & Hl & Hrx & Htx & Hf)]].
  - rewrite Hrx, Htx. apply subseq_app; [apply subseq_refl|].
    apply subseq_app; [now apply flight_ids_shrink|apply subseq_refl].
  - rewrite Hrx, Htx. apply subseq_app; [apply subseq_refl|].
    unfold flight_ids. rewrite Hl. cbn [app map].
    destruct Hf as [-> | ->]; cbn [app].
    + apply subseq_refl.
    + apply subseq_skip, subseq_refl.
  - rewrite Hrx, Htx. unfold flight_ids. rewrite Hl, Hf.
    rewrite map_app, <- app_assoc. cbn. apply subseq_refl.
Qed.

Lemma ordered_shrink y y' :
  ordered y ->
  subseq (id_line y') (id_line y) ->
  tx_id (mst y) <= tx_id (mst y') ->
  ordered y'.
Proof.
  intros [Hs Hb] Hsub Ht. split.
  - eapply subseq_sorted; eauto.
  - eapply subseq_forall in Hb; [|exact Hsub].
    rewrite Forall_forall in *. intros i Hi. specialize (Hb i Hi). lia.
Qed.

Lemma act_line_shrink a y :
  is_enqueue a = false -> subseq (id_line (act a y)) (id_line y).
Proof.
  intros Hq. destruct a; try discriminate; cbn [act].
  - replace (id_line y) with (id_line (mkSys (mst y) (eng y)))
      by (now destruct y).
    apply beat_shape_line, engine_edge_shape.
  - destruct (sync (mst y)); [|apply subseq_refl].
    replace (id_line y) with (id_line (mkSys (mst y) (eng y)))
      by (now destruct y).
    apply beat_shape_line, engine_wake_shape.
  - unfold id_line. cbn.
    apply (subseq_app [] _ _ _ (subseq_nil_l _)).
    apply subseq_app; [apply subseq_refl|apply subseq_nil_l].
  - unfold id_line, on_master. cbn [mst eng].
    rewrite read_search_final. cbn [queue_rx queue_tx set_queue_rx].
    destruct (rx_scan_suffix rx_id (queue_rx (mst y))) as [pre Hpre].
    rewrite Hpre at 2. rewrite map_app, <- app_assoc.
    apply (subseq_app [] _ _ _ (subseq_nil_l _)). apply subseq_refl.
  - apply subseq_refl.
  - unfold id_line. cbn [act mst eng].
    apply subseq_app; [apply subseq_refl|].
    apply subseq_app; [apply subseq_nil_l|apply subseq_refl].
Qed.

Lemma ordered_step a y : ordered y -> ordered (act a y).
Proof.
  intros Ho. destruct (is_enqueue a) eqn:Hq.
  - destruct (enqueue_untouched a y Hq)
      as (_ & Hrx & _ & _ & _ & _ & _ & Hl).
    assert (Hshape : exists beats,
      queue_tx (mst (act a y)) = queue_tx (mst y) ++ beats /\
      map b_id beats = ids_after (tx_id (mst y)) (length beats) /\
      tx_id (mst (act a y)) = tx_id (mst y) + Z.of_nat (length beats)).
    { destruct a as [s| |addr data strb ee|addr data ee| |rx_id|v|];
        try discriminate; cbn [act]; unfold on_master; cbn [mst].
      - destruct (write_nowait_frame addr data strb ee (mst y))
          as (beats & mq & Ha & Hids & [Hrun|[[x Hrun] _]]);
          rewrite Hrun; cbn [final]; unfold appended in Ha; subst mq; cbn;
          exists beats; auto.
      - destruct (read_nowait_frame addr data ee (mst y))
          as (beats & mq & Ha & Hids & [[Hrun _]|[[x Hrun] _]]);
          rewrite Hrun; cbn [final]; unfold appended in Ha; subst mq; cbn;
          exists beats; auto. }
    destruct Hshape as (beats & Htx & Hids & Ht).
    destruct Ho as [Hs Hb].
    assert (Hline : id_line (act a y)
                    = id_line y ++ ids_after (tx_id (mst y)) (length beats)).
    { unfold id_line. rewrite Hrx, Hl, Htx, map_app, Hids.
      now rewrite <- !app_assoc. }
    split; rewrite Hline.
    + apply sorted_app; [exact Hs|apply ids_after_sorted|].
      intros i j Hi Hj. rewrite Forall_forall in Hb.
      specialize (Hb i Hi). apply ids_after_bounds in Hj. lia.
    + apply Forall_app. split.
      * rewrite Forall_forall in *. intros i Hi. specialize (Hb i Hi). lia.
      * apply Forall_forall. intros i Hi. apply ids_after_bounds in Hi. lia.
  - destruct (act_frame a y) as (_ & Ht & _).
    eapply ordered_shrink; [exact Ho|now apply act_line_shrink|exact Ht].
Qed.

Lemma ordered_run acts : forall y, ordered y -> ordered (run acts y).
Proof.
  induction acts as [|a acts IH]; intros y Hy; cbn [run]; auto.
  apply IH. now apply ordered_step.
Qed.

Lemma ordered_start c : ordered (start c).
Proof. split; cbn; constructor. Qed.

Lemma sorted_app_inv (l1 l2 : list Z) :
  StronglySorted Z.lt (l1 ++ l2) ->
  StronglySorted Z.lt l1 /\ StronglySorted Z.lt l2 /\
  forall x y, In x l1 -> In y l2 -> x < y.
Proof.
  induction l1 as [|a l1 IH]; cbn; intros Hs.
  - split; [constructor|]. split; [exact Hs|]. intros x y [].
  - inversion Hs as [|? ? Hrest Hall]; subst.
    destruct (IH Hrest) as (H1 & H2 & H3).
    rewrite Forall_forall in Hall.
    split; [|split; [exact H2|]].
    + constructor; [exact H1|]. apply Forall_forall. intros x Hx.
      apply Hall. apply in_or_app. now left.
    + intros x y [<-|Hx] Hy; [|now apply H3].
      apply Hall. apply in_or_app. now right.
Qed.

Lemma reachable_ordered c acts : ordered (run acts (start c)).
Proof. apply ordered_run, ordered_start. Qed.

(** In every state the driver can reach, the ids of the responses in the
    response queue, then that of the beat in flight, then those of the
    queued beats are strictly increasing.  So the responses lie in the
    response queue in the order their reads were enqueued, no id occurs
    twice in it, and every response is older than the beat in flight and
    than every beat still queued. *)
Theorem responses_in_id_order (c : Config) (acts : list action) :
  let y := run acts (start c) in
  StronglySorted Z.lt (id_line y) /\
  StronglySorted Z.lt (map snd (queue_rx (mst y))) /\
  NoDup (map snd (queue_rx (mst y))) /\
  StronglySorted Z.lt (map b_id (queue_tx (mst y))) /\
  (forall x f, In x (queue_rx (mst y)) -> in_flight (eng y) = Some f ->
               snd x < b_id f) /\
  (forall x q, In x (queue_rx (mst y)) -> In q (queue_tx (mst y)) ->
               snd x < b_id q) /\
  (forall f q, in_flight (eng y) = Some f -> In q (queue_tx (mst y)) ->
               b_id f < b_id q) /\
  (forall i, In i (id_line y) -> 0 < i <= tx_id (mst y)).
Proof.
  cbv zeta. destruct (reachable_ordered c acts) as [Hs Hb].
  set (y := run acts (start c)) in *.
  unfold id_line in Hs.
  destruct (sorted_app_inv _ _ Hs) as (Hrx & Hrest & Hlt1).
  destruct (sorted_app_inv _ _ Hrest) as (Hfl & Htx & Hlt2).
  split; [exact Hs|]. split; [exact Hrx|].
  split; [now apply sorted_nodup|]. split; [exact Htx|].
  split; [|split; [|split]].
  - intros x f Hx Hf. apply Hlt1.
    + apply in_map. exact Hx.
    + apply in_or_app. left. unfold flight_ids. rewrite Hf. now left.
  - intros x q Hx Hq. apply Hlt1.
    + apply in_map. exact Hx.
    + apply in_or_app. right. apply in_map. exact Hq.
  - intros f q Hf Hq. apply Hlt2.
    + unfold flight_ids. rewrite Hf. now left.
    + apply in_map. exact Hq.
  - intros i Hi. rewrite Forall_forall in Hb. split; [|now apply Hb].
    assert (Hpos : Forall (fun i => 0 < i) (id_line y)).
    { clear Hi. unfold y.
      assert (Hgen : forall acts' y0,
        Forall (fun i => 0 < i) (id_line y0) -> 0 <= tx_id (mst y0) ->
        Forall (fun i => 0 < i) (id_line (run acts' y0)) /\
        0 <= tx_id (mst (run acts' y0))).
      { induction acts' as [|a acts' IH]; intros y0 Hp Ht; cbn [run];
          [auto|].
        apply IH.
        - destruct (is_enqueue a) eqn:Hq.
          + destruct (assigned_next a y0) as (n & Ha & Hn).
            destruct (enqueue_untouched a y0 Hq)
              as (_ & Hrx' & _ & _ & _ & _ & _ & Hl').
            destruct (act_frame a y0) as (_ & _ & Fq & _).
            apply Forall_forall. intros j Hj. unfold id_line in Hj.
            rewrite Hrx', Hl' in Hj.
            rewrite Forall_forall in Hp.
            apply in_app_or in Hj. destruct Hj as [Hj|Hj];
              [apply Hp; unfold id_line; apply in_or_app; now left|].
            apply in_app_or in Hj. destruct Hj as [Hj|Hj];
              [apply Hp; unfold id_line; apply in_or_app; right;
               apply in_or_app; now left|].
            apply in_map_iff in Hj. destruct Hj as (q & <- & Hq').
            destruct (Fq q Hq') as [Hold|Hnew]; [|lia].
            apply Hp. unfold id_line. apply in_or_app. right.
            apply in_or_app. right. now apply in_map.
          + eapply subseq_forall; [now apply act_line_shrink|exact Hp].
        - destruct (act_frame a y0) as (_ & Ht' & _). lia. }
      apply (Hgen acts (start c)); cbn; [constructor|lia]. }
    rewrite Forall_forall in Hpos. now apply Hpos.
Qed.

(** ** [_restart] with a beat in flight *)

(** [_restart] (lines 221-224) kills the engine and starts a new one.
    The beat that was in flight is gone for good: whatever follows, no
    beat with its id is taken again, none is queued, and no response with
    its id is delivered.  The object itself, the bus signals included,
    is left as the killed engine had it. *)
Theorem restart_drops_beat_in_flight (c : Config) (acts acts' : list action)
    (b : Beat) :
  in_flight (eng (run acts (start c))) = Some b ->
  let y := run acts (start c) in
  let y1 := act ARestart y in
  let y' := run acts' y1 in
  (eng y1 = LStart /\ mst y1 = mst y) /\
  (forall x, In x (queue_rx (mst y')) -> snd x <> b_id b) /\
  (forall q, In q (queue_tx (mst y')) -> b_id q <> b_id b) /\
  (forall f, in_flight (eng y') = Some f -> b_id f <> b_id b).
Proof.
  intros Hf. cbv zeta.
  destruct (reachable_ordered c acts) as [Hs Hb].
  set (y := run acts (start c)) in *.
  split; [split; reflexivity|].
  unfold id_line, flight_ids in Hs, Hb. rewrite Hf in Hs, Hb.
  destruct (sorted_middle _ _ _ Hs) as [Hrx Htx].
  rewrite Forall_forall in Hrx, Htx, Hb.
  assert (Habs : absent (b_id b) (act ARestart y)).
  { unfold absent. cbn [act mst eng in_flight]. repeat split.
    - apply Hb. apply in_or_app. right. now left.
    - intros q Hq. apply Htx. apply in_map. exact Hq.
    - discriminate.
    - intros x Hx. assert (snd x < b_id b); [|lia].
      apply Hrx. apply in_map. exact Hx. }
  destruct (absent_run (b_id b) acts' _ Habs) as (_ & Hq' & Hf' & Hrx').
  repeat split; auto.
  intros q Hq. specialize (Hq' q Hq). lia.
Qed.

Lemma restart_drops_beat_in_flight_witness :
  let y := run [AReadNowait 32 (PBytes []) false; AEdge busy_sample;
                AEdge busy_sample] (start cfg32) in
  let y' := run [AEdge busy_sample; AEdge (ok_sample 7); AWake;
                 AEdge (ok_sample 7)] (act ARestart y) in
  in_flight (eng y) = Some (mkBeat false 32 [] (-1) false 1) /\
  forall x, In x (queue_rx (mst y')) -> snd x <> 1.
Proof.
  cbv zeta. split; [reflexivity|].
  exact (proj1 (proj2 (restart_drops_beat_in_flight cfg32
    [AReadNowait 32 (PBytes []) false; AEdge busy_sample; AEdge busy_sample]
    [AEdge busy_sample; AEdge (ok_sample 7); AWake; AEdge (ok_sample 7)]
    (mkBeat false 32 [] (-1) false 1) eq_refl))).
Defined.

(** ** The [idle] property and the [_idle] event *)

(** The property [idle] (lines 242-244) is true exactly when both queues
    are empty, that is when [count_tx] and [count_rx] are 0.  It is not
    the [_idle] event that [write], [read] and [wait] block on: [clear]
    makes the property true and leaves the event as it was, and when the
    engine has taken the only queued beat, nothing being in the response
    queue, the property is true while the beat is on the bus and the
    event is clear. *)
Theorem idle_property_is_not_idle_event (m : Master) (b : Beat) :
  queue_tx m = [b] ->
  queue_rx m = [] ->
  idle_ev m = false ->
  wbytes (cfg m) <> 0 ->
  0 <= b_addr b / wbytes (cfg m) < 2 ^ address_width (cfg m) ->
  (forall m0,
     (idle m0 = true <-> queue_tx m0 = [] /\ queue_rx m0 = []) /\
     (idle m0 = true <-> count_tx m0 = 0 /\ count_rx m0 = 0) /\
     (empty_tx m0 = true <-> count_tx m0 = 0) /\
     (empty_rx m0 = true <-> count_rx m0 = 0)) /\
  (forall m0,
     idle (final (clear m0)) = true /\
     idle_ev (final (clear m0)) = idle_ev m0) /\
  idle m = false /\
  let y := settle (run_loop m) in
  idle (mst y) = true /\
  idle_ev (mst y) = false /\
  in_flight (eng y) = Some b.
Proof.
  intros Hq Hrx Hi Hw Hr.
  split; [|split; [|split]].
  - intros m0. unfold idle, empty_tx, empty_rx, count_tx, count_rx.
    destruct (queue_tx m0), (queue_rx m0); cbn [length andb];
      repeat split; intros; try discriminate; try lia; try tauto;
      try (destruct H; discriminate); try (destruct H; lia).
  - intros m0. split; reflexivity.
  - unfold idle, empty_tx. now rewrite Hq.
  - cbv zeta. rewrite (run_loop_cons m b [] Hq).
    rewrite issue_in_range by (cbn [cfg set_queue_tx]; assumption).
    cbv zeta. unfold idle, empty_tx, empty_rx.
    destruct (b_write b); cbn; rewrite Hrx, Hi; auto.
Qed.

Lemma idle_property_is_not_idle_event_witness :
  let m := final (write_nowait 16 (PInt 7) (-1) false (init cfg32)) in
  idle (mst (settle (run_loop m))) = true /\
  idle_ev (mst (settle (run_loop m))) = false.
Proof.
  cbv zeta.
  pose proof (idle_property_is_not_idle_event
    (final (write_nowait 16 (PInt 7) (-1) false (init cfg32)))
    (mkBeat true 16 (le_bytes 4 7) (-1) false 1)
    eq_refl eq_refl eq_refl ltac:(discriminate)
    ltac:(lazy; split; [discriminate|reflexivity])) as H.
  cbv zeta in H. destruct H as (_ & _ & _ & H1 & H2 & _).
  split; [exact H1|exact H2].
Defined.

(** ** Integer payloads below zero *)

Lemma bit_length_abs_bound v : Z.abs v < 2 ^ bit_length v.
Proof.
  destruct v as [|p|p]; cbn [bit_length Z.abs]; [reflexivity| |];
    pose proof (Z.log2_spec (Z.pos p) eq_refl) as [_ H];
    replace (Z.log2 (Z.pos p) + 1) with (Z.succ (Z.log2 (Z.pos p))) by lia;
    exact H.
Qed.

(** [write_nowait] with any integer [P] on a byte-wide bus, a negative
    one included (lines 135-156): the beat count follows the bit length
    of [|P|], and the payloads concatenated and read little-endian give
    [P] modulo [2 ^ (n * W)], [n] being the number of beats and [W] the
    write width.  A negative [P] is therefore written as
    [P + 2 ^ (n * W)], its two's complement on [n * W] bits, and not
    rejected. *)
Theorem write_nowait_int_wraps (m : Master) (addr P strb : Z) (ee : bool) :
  byte_wide (cfg m) ->
  let W := wwidth (cfg m) in
  let n := Z.max 1 (ceil_div (bit_length P) W) in
  exists beats m',
    write_nowait addr (PInt P) strb ee m = Ok tt m' /\
    queue_tx m' = queue_tx m ++ beats /\
    Z.of_nat (length beats) = n /\
    from_bytes (payload_bytes beats) = P mod 2 ^ (W * n) /\
    (P < 0 -> from_bytes (payload_bytes beats) = P + 2 ^ (W * n)).
Proof.
  intros Hbw W n.
  destruct (byte_wide_bytes _ Hbw) as (H8 & Hb & _ & _).
  change (W = 8 * wbytes (cfg m)) in H8.
  assert (HW : 0 < W) by lia.
  pose proof (bit_length_nonneg P) as HL.
  assert (Hn : 1 <= n) by (unfold n; lia).
  pose proof (write_nowait_int_run addr P strb ee m Hbw) as Hrun.
  cbv zeta in Hrun. fold W in Hrun. fold n in Hrun.
  assert (Hall : Forall (fun i => write_data (cfg m) (PInt P) i <> None)
                   (range n))
    by (apply Forall_forall; intros; now apply write_data_some).
  assert (Hdata : forall i,
    write_data (cfg m) (PInt P) i
    = Some (le_bytes (Z.to_nat (wbytes (cfg m)))
              (Z.land (Z.shiftr P (W * i)) (2 ^ W - 1)))).
  { intros i. cbn [write_data]. unfold wdata_mask. fold W.
    apply to_bytes_fits. rewrite land_mask by lia. rewrite <- H8.
    apply Z.mod_pos_bound. apply Z.pow_pos_nonneg; lia. }
  set (beats := loop_beats true (fun i => addr + i * wbytes (cfg m))
                  (write_data (cfg m) (PInt P)) strb ee (tx_id m) (range n))
    in *.
  assert (Hval : from_bytes (payload_bytes beats) = P mod 2 ^ (W * n)).
  { unfold payload_bytes, beats.
    rewrite (loop_beats_data _ _ _
               (fun i => le_bytes (Z.to_nat (wbytes (cfg m)))
                           (Z.land (Z.shiftr P (W * i)) (2 ^ W - 1))))
      by (intros; apply Hdata).
    unfold range.
    rewrite (le_chunks_value P W (wbytes (cfg m))) by lia.
    now rewrite Z.mul_0_r, Z.pow_0_r, Z.div_1_r, Z2Nat.id by lia. }
  exists beats. eexists. split; [exact Hrun|].
  split; [reflexivity|]. split; [|split; [exact Hval|]].
  - unfold beats. rewrite loop_beats_length by exact Hall.
    apply range_length. lia.
  - intros Hneg. rewrite Hval.
    assert (Hpow : 2 ^ bit_length P <= 2 ^ (W * n)).
    { apply Z.pow_le_mono_r; [lia|].
      pose proof (ceil_div_ge (bit_length P) W HW). unfold n. nia. }
    pose proof (bit_length_abs_bound P) as Habs.
    rewrite <- (Z_mod_plus_full P 1 (2 ^ (W * n))).
    rewrite Z.mul_1_l. apply Z.mod_small. lia.
Qed.

Lemma write_nowait_int_wraps_witness :
  exists beats m',
    write_nowait 0 (PInt (-1)) (-1) false (init cfg32) = Ok tt m' /\
    queue_tx m' = beats /\
    Z.of_nat (length beats) = 1 /\
    from_bytes (payload_bytes beats) = 4294967295.
Proof.
  destruct (write_nowait_int_wraps (init cfg32) 0 (-1) (-1) false
              ltac:(cbv; repeat split; discriminate))
    as (beats & m' & Hw & Hq & Hlen & _ & Hneg).
  exists beats, m'. repeat split.
  - exact Hw.
  - exact Hq.
  - exact Hlen.
  - exact (Hneg eq_refl).
Defined.

(** ** What a search of the response queue removes *)

(** In every state the driver can reach, a search for an id that is in
    the response queue (lines 180-184) returns the data of its one entry
    and removes that entry together with every response in front of it,
    which are exactly the older ones; the newer ones stay.  A blocking
    [read] of several beats therefore returns the data of its last beat
    and consumes the responses of the earlier ones. *)
Theorem read_search_drops_older (c : Config) (acts : list action)
    (r : list byte) (k : Z) :
  In (r, k) (queue_rx (mst (run acts (start c)))) ->
  let m := mst (run acts (start c)) in
  exists pre post,
    queue_rx m = pre ++ (r, k) :: post /\
    Forall (fun x => snd x < k) pre /\
    Forall (fun x => k < snd x) post /\
    read_search k m = Ok (CReadFound r) (set_queue_rx post m).
Proof.
  intros Hin. cbv zeta.
  destruct (reachable_ordered c acts) as [Hs _].
  set (y := run acts (start c)) in *.
  destruct (in_split _ _ Hin) as (pre & post & Hq).
  unfold id_line in Hs. apply sorted_app_inv in Hs. destruct Hs as (Hs & _).
  rewrite Hq, map_app in Hs. cbn [map snd] in Hs.
  destruct (sorted_middle _ _ _ Hs) as [Hpre Hpost].
  rewrite Forall_forall in Hpre, Hpost.
  exists pre, post. split; [exact Hq|]. split; [|split].
  - apply Forall_forall. intros x Hx. apply Hpre. now apply in_map.
  - apply Forall_forall. intros x Hx. apply Hpost. now apply in_map.
  - unfold read_search, bind, gets, modify. rewrite Hq.
    rewrite rx_scan_found; [reflexivity|].
    intros x Hx. assert (snd x < k); [|lia].
    apply Hpre. now apply in_map.
Qed.

Lemma read_search_drops_older_witness :
  let m := mst (run [AReadNowait 32 (PInt (2 ^ 32)) false;
                     AEdge busy_sample; AEdge busy_sample;
                     AEdge (ok_sample 0); AEdge busy_sample;
                     AEdge busy_sample; AEdge (ok_sample 1)]
                  (start cfg32)) in
  exists post,
    read_search 2 m = Ok (CReadFound (le_bytes 4 1)) (set_queue_rx post m).
Proof.
  cbv zeta.
  destruct (read_search_drops_older cfg32
    [AReadNowait 32 (PInt (2 ^ 32)) false;
     AEdge busy_sample; AEdge busy_sample;
     AEdge (ok_sample 0); AEdge busy_sample;
     AEdge busy_sample; AEdge (ok_sample 1)]
    (le_bytes 4 1) 2
    ltac:(lazy; right; left; reflexivity))
    as (pre & post & _ & _ & _ & H).
  exists post. exact H.
Defined.

(** ** No lost wake-up *)

Lemma engine_edge_waits s l m :
  eng (settle (engine_edge s l m)) = LWaitWork ->
  queue_tx (mst (settle (engine_edge s l m))) = [] \/
  (l = LWaitWork /\ mst (settle (engine_edge s l m)) = m).
Proof.
  destruct l; cbn [engine_edge]; unfold_engine; repeat break_match;
    cbn in *; intros H; try discriminate; auto.
Qed.

Lemma enqueue_sets_sync a y :
  is_enqueue a = true -> byte_wide (cfg (mst y)) ->
  sync (mst (act a y)) = true.
Proof.
  destruct a as [s| |addr data strb ee|addr data ee| |rx_id|v|];
    try discriminate; intros _ Hbw; cbn [act]; unfold on_master; cbn [mst].
  - destruct (write_nowait_frame addr data strb ee (mst y))
      as (beats & mq & _ & _ & [Hr|[_ Hn]]); [|contradiction].
    now rewrite Hr.
  - destruct (read_nowait_frame addr data ee (mst y))
      as (beats & mq & _ & _ & [[Hr _]|[_ Hn]]); [|contradiction].
    now rewrite Hr.
Qed.

Lemma wake_sound_step a y :
  byte_wide (cfg (mst y)) -> wake_sound y -> wake_sound (act a y).
Proof.
  intros Hbw Hs. unfold wake_sound in *.
  destruct (is_enqueue a) eqn:Hq.
  - intros _ _. now apply enqueue_sets_sync.
  - destruct a; try discriminate; cbn [act].
    + intros He Hne. unfold on_edge in *.
      destruct (engine_edge_waits s (eng y) (mst y) He) as [Hnil|[Hl Hm]];
        [contradiction|].
      rewrite Hm in *. auto.
    + destruct (sync (mst y)) eqn:Hsy; [|now rewrite Hsy].
      unfold on_wake. destruct (eng y) eqn:El; cbn [engine_wake];
        try (cbn; intros; assumption || discriminate).
      intros He Hne.
      destruct (engine_edge_waits busy_sample LStart (mst y) He)
        as [Hnil|[Hl _]]; [contradiction|discriminate].
    + cbn. intros _ Hne. now contradiction Hne.
    + unfold on_master. cbn [mst eng]. rewrite read_search_final.
      cbn. exact Hs.
    + cbn. exact Hs.
Qed.

Lemma wake_sound_run acts : forall y,
  byte_wide (cfg (mst y)) -> wake_sound y -> wake_sound (run acts y).
Proof.
  induction acts as [|a acts IH]; intros y Hbw Hs; cbn [run]; auto.
  apply IH.
  - destruct (act_frame a y) as (Hc & _). now rewrite Hc.
  - now apply wake_sound_step.
Qed.

(** No wake-up is lost (lines 155, 217 and 257-261).  On a byte-wide bus,
    in every state the driver can reach, an engine that waits for work
    while beats are queued has [sync] set: its wait returns, and it takes
    the beat at the head of the queue. *)
Theorem no_lost_wakeup (c : Config) (acts : list action) :
  byte_wide c ->
  let y := run acts (start c) in
  eng y = LWaitWork ->
  forall b rest,
    queue_tx (mst y) = b :: rest ->
    sync (mst y) = true /\
    act AWake y = settle (issue b (set_queue_tx rest (mst y))).
Proof.
  intros Hbw y He b rest Hq.
  assert (Hs : wake_sound y).
  { apply wake_sound_run; [exact Hbw|]. unfold wake_sound. cbn. discriminate. }
  assert (Hsy : sync (mst y) = true).
  { apply Hs; [exact He|]. rewrite Hq. discriminate. }
  split; [exact Hsy|].
  cbn [act]. rewrite Hsy. unfold on_wake. rewrite He. cbn [engine_wake].
  now rewrite (run_loop_cons _ _ _ Hq).
Qed.

Lemma no_lost_wakeup_witness :
  let y := run [AEdge busy_sample; AWriteNowait 16 (PInt 7) (-1) false;
                AClear; AReadNowait 32 (PBytes []) false] (start cfg32) in
  sync (mst y) = true /\
  eng (act AWake y) = LReadSetup (mkBeat false 32 [] (-1) false 2) 8.
Proof.
  cbv zeta.
  destruct (no_lost_wakeup cfg32
    [AEdge busy_sample; AWriteNowait 16 (PInt 7) (-1) false;
     AClear; AReadNowait 32 (PBytes []) false]
    ltac:(cbv; repeat split; discriminate) eq_refl
    (mkBeat false 32 [] (-1) false 2) [] eq_refl) as [Hs Ha].
  split; [exact Hs|]. rewrite Ha. reflexivity.
Defined.
